(** * Nortel Millennium VoiceWare decoder: a shallow embedding

    The development follows [nortel-voiceware-decoder.c]: the uPD7759 ADPCM
    command-stream interpreter of [process_message], the listing branch of
    [handle_message_iteration] and the segment walk of [main].

    Conventions of the embedding.
    - C integers are [Z]; the conversions the code performs ([int16_t],
      [int8_t], [uint32_t], [size_t]) are written out as [to_int16],
      [to_int8], [to_uint32], [to_size_t].  [size_t] is 64 bits wide.
    - The ROM is a [list byte]; a read outside of it is undefined behaviour
      and is modelled by [None] / [Undefined].
    - [realloc], [malloc] and the file system are assumed not to fail; the
      capacity guard of [add_pcm_sample] is modelled as written.
    - Sums of positions and the [int] counters of [main] are not wrapped:
      the ROM is an object in memory, which keeps the positions far below
      2^64 and the counters below 2^31.  The [uint32_t] copy of the cursor
      that the repeat logic keeps is wrapped.
    - The two loops run on fuel; [decode_fuel] and [segment_fuel] are shown
      to be enough, the first on a ROM of less than 4 GiB.
    - Output is modelled as the list of calls made to the sinks
      ([printf] in list mode, [write_wav_file], [save_raw_pcm]) and of the
      diagnostics sent to [stderr].  The informational [status_printf] and
      [verbose_printf] messages are left out, with the exception of the
      zero-samples status line of [process_message]. *)

From Stdlib Require Import ZArith String Ascii Bool Lia ZifyBool DecimalString List.
From Stdlib.Strings Require Import Byte.
Import ListNotations.

#[local] Open Scope Z_scope.

(** ** Constants *)

Definition ROM_SEGMENT_SIZE : Z := 131072.
Definition LIST_FILENAME_ALIGN_WIDTH : Z := 40.
Definition TAB_WIDTH : Z := 8.
Definition SIZE_MAX : Z := 2 ^ 64 - 1.

Definition ROM_MAGIC : list byte := [x5a; xa5; x69; x55].

Definition MODE_ADPCM : Z := 0.
Definition MODE_PCM : Z := 64.

(** ** Machine integers *)

Definition to_int16 (z : Z) : Z := (z + 32768) mod 65536 - 32768.
Definition to_int8 (z : Z) : Z := (z + 128) mod 256 - 128.
Definition to_uint32 (z : Z) : Z := z mod 2 ^ 32.
Definition to_size_t (z : Z) : Z := z mod 2 ^ 64.

Definition byte_val (b : byte) : Z := Z.of_N (Byte.to_N b).

(** ** ROM access *)

Definition rom_size (rom : list byte) : Z := Z.of_nat (length rom).

(** [rom_data[pos]]; [None] stands for a read outside of the buffer. *)
Definition rom_at (rom : list byte) (pos : Z) : option Z :=
  if pos <? 0 then None
  else option_map byte_val (nth_error rom (Z.to_nat pos)).

(** ** ADPCM tables *)

Definition step_table : list (list Z) :=
  [ [ 0; 0; 1; 2; 3; 5; 7; 10; 0; 0; -1; -2; -3; -5; -7; -10 ];
    [ 0; 1; 2; 3; 4; 6; 8; 13; 0; -1; -2; -3; -4; -6; -8; -13 ];
    [ 0; 1; 2; 4; 5; 7; 10; 15; 0; -1; -2; -4; -5; -7; -10; -15 ];
    [ 0; 1; 3; 4; 6; 9; 13; 19; 0; -1; -3; -4; -6; -9; -13; -19 ];
    [ 0; 2; 3; 5; 8; 11; 15; 23; 0; -2; -3; -5; -8; -11; -15; -23 ];
    [ 0; 2; 4; 7; 10; 14; 19; 29; 0; -2; -4; -7; -10; -14; -19; -29 ];
    [ 0; 3; 5; 8; 12; 16; 22; 33; 0; -3; -5; -8; -12; -16; -22; -33 ];
    [ 1; 4; 7; 10; 15; 20; 29; 43; -1; -4; -7; -10; -15; -20; -29; -43 ];
    [ 1; 4; 8; 13; 18; 25; 35; 53; -1; -4; -8; -13; -18; -25; -35; -53 ];
    [ 1; 6; 10; 16; 22; 31; 43; 64; -1; -6; -10; -16; -22; -31; -43; -64 ];
    [ 2; 7; 12; 19; 27; 37; 51; 76; -2; -7; -12; -19; -27; -37; -51; -76 ];
    [ 2; 9; 16; 24; 34; 46; 64; 96; -2; -9; -16; -24; -34; -46; -64; -96 ];
    [ 3; 11; 19; 29; 41; 57; 79; 117; -3; -11; -19; -29; -41; -57; -79; -117 ];
    [ 4; 13; 24; 36; 50; 69; 96; 143; -4; -13; -24; -36; -50; -69; -96; -143 ];
    [ 4; 16; 29; 44; 62; 85; 118; 175; -4; -16; -29; -44; -62; -85; -118; -175 ];
    [ 6; 20; 36; 54; 76; 104; 144; 214; -6; -20; -36; -54; -76; -104; -144; -214 ] ].

Definition state_table : list Z :=
  [ -1; -1; 0; 0; 1; 2; 2; 3; -1; -1; 0; 0; 1; 2; 2; 3 ].

(** Array indexing; [None] stands for an index outside of the array. *)
Definition index {A : Type} (l : list A) (i : Z) : option A :=
  if i <? 0 then None else nth_error l (Z.to_nat i).

Definition step_table_at (state nibble : Z) : option Z :=
  match index step_table state with
  | Some row => index row nibble
  | None => None
  end.

Definition state_table_at (nibble : Z) : option Z := index state_table nibble.

(** ** Diagnostics written to [stderr] *)

Inductive diag : Type :=
| ErrPcmCapacity
| ErrInvalidAdpcmState (state : Z)
| WarnStartOutOfBounds (absolute_msg_idx segment_index msg_idx : Z)
| WarnEndOfRomNibble (absolute_msg_idx : Z)
| WarnEndOfRomCommand (absolute_msg_idx : Z)
| WarnEndOfRomLongN (command absolute_msg_idx : Z)
| WarnEndOfRomRepeatN (command absolute_msg_idx : Z)
| WarnUnknownCommand (command absolute_msg_idx : Z)
| ErrDecodingFailed (absolute_msg_idx : Z)
| WarnRawRange (absolute_msg_idx : Z)
| WarnUnknownMode (mode absolute_msg_idx : Z)
| WarnListModeByte (segment_index msg_idx : Z)
| ErrRomTooSmall
| ErrInvalidMagic
| ErrOffsetTable (segment_index : Z)
| ErrTargetNotFound (target : Z)
| ErrInvalidRomSize.

(** ** Data structures *)

Record AdpcmState : Type := mkAdpcmState {
  current_sample : Z;
  adpcm_state : Z
}.

Record PcmBuffer : Type := mkPcmBuffer {
  samples : list Z;
  capacity : Z
}.

Definition count (buffer : PcmBuffer) : Z := Z.of_nat (length (samples buffer)).

Definition init_pcm_buffer : PcmBuffer := mkPcmBuffer [] 0.

(** [add_pcm_sample]: the boolean is the C return value; a refused sample
    leaves the buffer as it was and reports on [stderr]. *)
Definition add_pcm_sample (buffer : PcmBuffer) (sample : Z)
  : bool * PcmBuffer * list diag :=
  if count buffer >=? capacity buffer then
    let new_capacity :=
      if capacity buffer =? 0 then 2048 else to_size_t (capacity buffer * 2) in
    if new_capacity >? SIZE_MAX / 2 / 2 then
      (false, buffer, [ErrPcmCapacity])
    else
      (true, mkPcmBuffer (samples buffer ++ [sample]) new_capacity, [])
  else
    (true, mkPcmBuffer (samples buffer ++ [sample]) (capacity buffer), []).

(** The result of a [decode_nibble] call. *)
Record nibble_result : Type := mkNibbleResult {
  nr_ok : bool;
  nr_state : AdpcmState;
  nr_buffer : PcmBuffer;
  nr_diags : list diag
}.

(** The value handed to [add_pcm_sample] by [decode_nibble], given the
    updated [current_sample] and the table difference.  The shift of a
    negative [int] is taken as the arithmetic shift that compilers
    implement, the conversion to [int16_t] as the wrap modulo 2^16. *)
Definition scale_sample (cur diff : Z) : Z :=
  let pcm_sample := to_int16 (Z.shiftl cur 7) in
  let pcm_sample :=
    if (cur >? Z.shiftr 32767 7) && (diff >? 0) then 32767 else pcm_sample in
  let pcm_sample :=
    if (cur <? Z.shiftr (-32768) 7) && (diff <? 0) then -32768 else pcm_sample in
  pcm_sample.

(** [decode_nibble]; [None] stands for a table access outside of the
    tables. *)
Definition decode_nibble (nibble : Z) (state : AdpcmState) (pcm_buffer : PcmBuffer)
  : option nibble_result :=
  let invalid := (adpcm_state state <? 0) || (adpcm_state state >? 15) in
  let d0 := if invalid then [ErrInvalidAdpcmState (adpcm_state state)] else [] in
  let idx := if invalid then 0 else adpcm_state state in
  match step_table_at idx nibble, state_table_at nibble with
  | Some diff, Some delta =>
      let next_sample := current_sample state + diff in
      let next_sample :=
        if next_sample >? 32767 then 32767
        else if next_sample <? -32768 then -32768
        else next_sample in
      let cur := to_int16 next_sample in
      let next_state := idx + delta in
      let next_state :=
        if next_state <? 0 then 0
        else if next_state >? 15 then 15
        else next_state in
      let state' := mkAdpcmState cur (to_int8 next_state) in
      let '(ok, buffer', d1) := add_pcm_sample pcm_buffer (scale_sample cur diff) in
      Some (mkNibbleResult ok state' buffer' (d0 ++ d1))
  | _, _ => None
  end.

(** ** The command loop of [process_message] *)

Record DecodeState : Type := mkDecodeState {
  current_pos : Z;
  adpcm : AdpcmState;
  pcm_buffer : PcmBuffer;
  decoding_ok : bool;
  end_of_message : bool;
  nibble_count : Z;
  repeat_count : Z;
  current_repeat_nibble_start : Z;
  current_repeat_nibble_count : Z;
  stderr : list diag
}.

Definition init_decode_state (pos : Z) : DecodeState :=
  mkDecodeState pos (mkAdpcmState 0 0) init_pcm_buffer true false 0 0 0 0 [].

(** How the run of a loop or of a function ends: with a value, in undefined
    behaviour (a read outside of an array), or with the fuel of the model
    used up. *)
Inductive result (A : Type) : Type :=
| Finished (a : A)
| UndefinedBehaviour
| OutOfFuel.

Arguments Finished {A} a.
Arguments UndefinedBehaviour {A}.
Arguments OutOfFuel {A}.

(** How one pass through the body of the [while] loop ends. *)
Inductive flow : Type :=
| Continue (s : DecodeState)
| Break (s : DecodeState)
| Undefined.

(** The silence loop: [n] calls of [add_pcm_sample (_, 0)], stopping at the
    first refusal. *)
Fixpoint add_silence (n : nat) (buffer : PcmBuffer) : bool * PcmBuffer * list diag :=
  match n with
  | O => (true, buffer, [])
  | S n' =>
      let '(ok, buffer', d) := add_pcm_sample buffer 0 in
      if ok then
        let '(ok', buffer'', d') := add_silence n' buffer' in
        (ok', buffer'', d ++ d')
      else (false, buffer', d)
  end.

Section Decoder.

Variable rom : list byte.
Variable absolute_msg_idx : Z.

(** The repeat logic that closes the nibble phase. *)
Definition handle_repeat (s : DecodeState) : DecodeState :=
  if (repeat_count s >? 0) && (nibble_count s =? 0) then
    let rc := repeat_count s - 1 in
    if rc >? 0 then
      mkDecodeState (current_repeat_nibble_start s) (adpcm s) (pcm_buffer s)
        (decoding_ok s) (end_of_message s)
        (current_repeat_nibble_count s) rc
        (current_repeat_nibble_start s) (current_repeat_nibble_count s)
        (stderr s)
    else
      mkDecodeState (current_pos s) (adpcm s) (pcm_buffer s)
        (decoding_ok s) (end_of_message s)
        (nibble_count s) rc 0 0 (stderr s)
  else s.

(** The nibble decoding phase, entered with [nibble_count > 0]. *)
Definition nibble_phase (s : DecodeState) : flow :=
  if current_pos s >=? rom_size rom then
    Break (mkDecodeState (current_pos s) (adpcm s) (pcm_buffer s)
             false (end_of_message s) (nibble_count s) (repeat_count s)
             (current_repeat_nibble_start s) (current_repeat_nibble_count s)
             (stderr s ++ [WarnEndOfRomNibble absolute_msg_idx]))
  else
    match rom_at rom (current_pos s) with
    | None => Undefined
    | Some data_byte =>
        let pos := current_pos s + 1 in
        let nibble1 := Z.land (Z.shiftr data_byte 4) 15 in
        let nibble2 := Z.land data_byte 15 in
        match decode_nibble nibble1 (adpcm s) (pcm_buffer s) with
        | None => Undefined
        | Some r1 =>
            if negb (nr_ok r1) then
              Break (mkDecodeState pos (nr_state r1) (nr_buffer r1)
                       false (end_of_message s) (nibble_count s) (repeat_count s)
                       (current_repeat_nibble_start s)
                       (current_repeat_nibble_count s)
                       (stderr s ++ nr_diags r1))
            else
              let nc := nibble_count s - 1 in
              if nc >? 0 then
                match decode_nibble nibble2 (nr_state r1) (nr_buffer r1) with
                | None => Undefined
                | Some r2 =>
                    if negb (nr_ok r2) then
                      Break (mkDecodeState pos (nr_state r2) (nr_buffer r2)
                               false (end_of_message s) nc (repeat_count s)
                               (current_repeat_nibble_start s)
                               (current_repeat_nibble_count s)
                               (stderr s ++ nr_diags r1 ++ nr_diags r2))
                    else
                      Continue (handle_repeat
                        (mkDecodeState pos (nr_state r2) (nr_buffer r2)
                           (decoding_ok s) (end_of_message s) (nc - 1)
                           (repeat_count s)
                           (current_repeat_nibble_start s)
                           (current_repeat_nibble_count s)
                           (stderr s ++ nr_diags r1 ++ nr_diags r2)))
                end
              else
                Continue (handle_repeat
                  (mkDecodeState pos (nr_state r1) (nr_buffer r1)
                     (decoding_ok s) (end_of_message s) nc
                     (repeat_count s)
                     (current_repeat_nibble_start s)
                     (current_repeat_nibble_count s)
                     (stderr s ++ nr_diags r1)))
        end
    end.

(** The command reading phase, entered with [nibble_count = 0]. *)
Definition command_phase (s : DecodeState) : flow :=
  if current_pos s >=? rom_size rom then
    let eom := count (pcm_buffer s) >? 0 in
    Break (mkDecodeState (current_pos s) (adpcm s) (pcm_buffer s)
             eom eom (nibble_count s) (repeat_count s)
             (current_repeat_nibble_start s) (current_repeat_nibble_count s)
             (stderr s ++ [WarnEndOfRomCommand absolute_msg_idx]))
  else
    match rom_at rom (current_pos s) with
    | None => Undefined
    | Some command =>
        let pos := current_pos s + 1 in
        if command =? 0 then
          let s' := mkDecodeState pos (adpcm s) (pcm_buffer s)
                      (decoding_ok s) true (nibble_count s) (repeat_count s)
                      (current_repeat_nibble_start s)
                      (current_repeat_nibble_count s) (stderr s) in
          if decoding_ok s' then Continue s' else Break s'
        else if (command >=? 1) && (command <=? 63) then
          let silence_samples := to_uint32 (command * 8) in
          let '(ok, buffer', d) :=
            add_silence (Z.to_nat silence_samples) (pcm_buffer s) in
          let s' := mkDecodeState pos (adpcm s) buffer'
                      (if ok then decoding_ok s else false)
                      (end_of_message s) (nibble_count s) (repeat_count s)
                      (current_repeat_nibble_start s)
                      (current_repeat_nibble_count s) (stderr s ++ d) in
          if decoding_ok s' then Continue s' else Break s'
        else if (command >=? 64) && (command <=? 127) then
          let s' := mkDecodeState pos (adpcm s) (pcm_buffer s)
                      (decoding_ok s) (end_of_message s) 256 0
                      (current_repeat_nibble_start s)
                      (current_repeat_nibble_count s) (stderr s) in
          if decoding_ok s' then Continue s' else Break s'
        else if (command >=? 128) && (command <=? 191) then
          if pos >=? rom_size rom then
            Break (mkDecodeState pos (adpcm s) (pcm_buffer s)
                     false (end_of_message s) (nibble_count s) (repeat_count s)
                     (current_repeat_nibble_start s)
                     (current_repeat_nibble_count s)
                     (stderr s ++ [WarnEndOfRomLongN command absolute_msg_idx]))
          else
            match rom_at rom pos with
            | None => Undefined
            | Some n =>
                let s' := mkDecodeState (pos + 1) (adpcm s) (pcm_buffer s)
                            (decoding_ok s) (end_of_message s)
                            (to_uint32 (n + 1)) 0
                            (current_repeat_nibble_start s)
                            (current_repeat_nibble_count s) (stderr s) in
                if decoding_ok s' then Continue s' else Break s'
            end
        else if (command >=? 192) && (command <=? 255) then
          if pos >=? rom_size rom then
            Break (mkDecodeState pos (adpcm s) (pcm_buffer s)
                     false (end_of_message s) (nibble_count s) (repeat_count s)
                     (current_repeat_nibble_start s)
                     (current_repeat_nibble_count s)
                     (stderr s ++ [WarnEndOfRomRepeatN command absolute_msg_idx]))
          else
            match rom_at rom pos with
            | None => Undefined
            | Some n =>
                let nc := to_uint32 (n + 1) in
                let s' := mkDecodeState (pos + 1) (adpcm s) (pcm_buffer s)
                            (decoding_ok s) (end_of_message s)
                            nc (Z.land (Z.shiftr command 3) 7)
                            (to_uint32 (pos + 1)) nc (stderr s) in
                if decoding_ok s' then Continue s' else Break s'
            end
        else
          Break (mkDecodeState pos (adpcm s) (pcm_buffer s)
                   false (end_of_message s) (nibble_count s) (repeat_count s)
                   (current_repeat_nibble_start s)
                   (current_repeat_nibble_count s)
                   (stderr s ++ [WarnUnknownCommand command absolute_msg_idx]))
    end.

(** The body of [while (!end_of_message && current_pos < rom_size)]. *)
Definition loop_body (s : DecodeState) : flow :=
  if nibble_count s >? 0 then nibble_phase s else command_phase s.

Definition loop_cond (s : DecodeState) : bool :=
  negb (end_of_message s) && (current_pos s <? rom_size rom).

Fixpoint decode_loop (fuel : nat) (s : DecodeState) : result DecodeState :=
  if loop_cond s then
    match fuel with
    | O => OutOfFuel
    | S fuel' =>
        match loop_body s with
        | Continue s' => decode_loop fuel' s'
        | Break s' => Finished s'
        | Undefined => UndefinedBehaviour
        end
    end
  else Finished s.

End Decoder.

(** Enough fuel for the loop on a ROM of less than 4 GiB: a pass consumes a
    byte or rewinds a repeat block, and a block is played at most seven
    times. *)
Definition decode_fuel (rom : list byte) : nat := 7 * length rom + 1024.

(** ** Strings *)

Definition tab : string := String "009"%char EmptyString.
Definition newline : string := String "010"%char EmptyString.

Definition strlen (s : string) : Z := Z.of_nat (String.length s).

(** [strstr (haystack, needle) != NULL] *)
Fixpoint strstr (haystack needle : string) : bool :=
  prefix needle haystack ||
  match haystack with
  | EmptyString => false
  | String _ rest => strstr rest needle
  end.

Fixpoint replicate (n : nat) (s : string) : string :=
  match n with
  | O => EmptyString
  | S n' => (s ++ replicate n' s)%string
  end.

Definition digits (z : Z) : string := NilZero.string_of_uint (N.to_uint (Z.to_N z)).

(** [printf ("%d")] and [printf ("%u")] of a value in range. *)
Definition fmt_d (z : Z) : string := NilZero.string_of_int (Z.to_int z).
Definition fmt_u (z : Z) : string := digits z.

(** [printf ("%03d")] *)
Definition fmt_03d (z : Z) : string :=
  if z <? 0 then
    let d := digits (- z) in ("-" ++ replicate (2 - String.length d) "0" ++ d)%string
  else
    let d := digits z in (replicate (3 - String.length d) "0" ++ d)%string.

(** [snprintf (buf, size, ...)] keeps [size - 1] characters. *)
Definition snprintf (size : nat) (s : string) : string := substring 0 (size - 1) s.

Definition FILENAME_MAX : nat := 4096.

(** [snprintf (default_filename_base, 25, "message_%d_%03d", ...)] *)
Definition default_filename_base (segment_index msg_idx : Z) : string :=
  snprintf 25 ("message_" ++ fmt_d segment_index ++ "_" ++ fmt_03d msg_idx)%string.

(** ** The mapping table *)

Record MessageMapping : Type := mkMessageMapping {
  segment_index : Z;
  message_index_in_seg : Z;
  output_filename_base : string;
  comment : option string
}.

Definition MappingTable : Type := list MessageMapping.

Fixpoint find_mapping (table : MappingTable) (segment_index_0_based msg_idx : Z)
  : option MessageMapping :=
  match table with
  | [] => None
  | m :: rest =>
      if (segment_index m =? segment_index_0_based)
         && (message_index_in_seg m =? msg_idx)
      then Some m
      else find_mapping rest segment_index_0_based msg_idx
  end.

(** ** Observable events *)

Inductive event : Type :=
| Stderr (d : diag)
| Stdout (s : string)
| StatusNoSamples (absolute_msg_idx : Z)
| WriteWavFile (wav_filename : string) (pcm : list Z) (sample_rate : Z)
    (rom_basename track_title track_number_str : string)
    (comment : option string)
| SaveRawPcm (pcm_filename : string) (message_start_offset message_end_offset : Z).

Definition DEFAULT_SAMPLE_RATE : Z := 8000.

(** ** [process_message] *)

Definition process_message (rom : list byte)
    (segment_start_offset segment_index_0_based msg_idx_in_segment
     absolute_msg_idx message_offset_in_segment
     next_message_offset_in_segment : Z)
    (mapping : option MessageMapping) (rom_basename : string)
  : result (bool * list event) :=
  let start_address := segment_start_offset + message_offset_in_segment in
  if start_address >=? rom_size rom then
    Finished (true, [Stderr (WarnStartOutOfBounds absolute_msg_idx
                               segment_index_0_based msg_idx_in_segment)])
  else
    match rom_at rom start_address with
    | None => UndefinedBehaviour
    | Some message_mode =>
        let current_pos := start_address + 1 in
        let output_base :=
          match mapping with
          | Some m => output_filename_base m
          | None => default_filename_base segment_index_0_based msg_idx_in_segment
          end in
        let comment :=
          match mapping with
          | Some m => comment m
          | None => None
          end in
        if message_mode =? MODE_ADPCM then
          match decode_loop rom absolute_msg_idx (decode_fuel rom)
                  (init_decode_state current_pos) with
          | Finished s =>
              let errs := map Stderr (stderr s) in
              if decoding_ok s && (count (pcm_buffer s) >? 0) then
                let wav_filename := snprintf FILENAME_MAX (output_base ++ ".wav")%string in
                let track_num_str := snprintf 12 (fmt_d absolute_msg_idx) in
                Finished (true,
                  errs ++ [WriteWavFile wav_filename (samples (pcm_buffer s))
                             DEFAULT_SAMPLE_RATE rom_basename output_base
                             track_num_str comment])
              else if decoding_ok s && (count (pcm_buffer s) =? 0) then
                Finished (true, errs ++ [StatusNoSamples absolute_msg_idx])
              else
                Finished (true, errs ++ [Stderr (ErrDecodingFailed absolute_msg_idx)])
          | UndefinedBehaviour => UndefinedBehaviour
          | OutOfFuel => OutOfFuel
          end
        else if message_mode =? MODE_PCM then
          let message_end_offset :=
            segment_start_offset + next_message_offset_in_segment in
          let message_end_offset :=
            if message_end_offset >? rom_size rom then rom_size rom
            else message_end_offset in
          let pcm_filename := snprintf FILENAME_MAX (output_base ++ ".pcm")%string in
          if message_end_offset <=? start_address then
            Finished (true, [Stderr (WarnRawRange absolute_msg_idx)])
          else
            Finished (true, [SaveRawPcm pcm_filename start_address message_end_offset])
        else
          Finished (true, [Stderr (WarnUnknownMode message_mode absolute_msg_idx)])
    end.

(** ** [handle_message_iteration] *)

Inductive HandleMessageResult : Type :=
| MSG_HANDLED_CONTINUE
| MSG_HANDLED_TARGET_FOUND
| MSG_HANDLED_ERROR.

(** The text of [comment_buffer] once the listing branch has built it. *)
Definition build_comment (mode_read_ok : bool) (message_mode : Z)
    (user_comment : option string) : string :=
  let pcm_already_in_user_comment :=
    match user_comment with Some c => strstr c "(PCM)"%string | None => false end in
  let has_user_comment :=
    match user_comment with Some c => strlen c >? 0 | None => false end in
  let comment_buffer := "#"%string in
  let pcm_tag_added :=
    mode_read_ok && (message_mode =? MODE_PCM) && negb pcm_already_in_user_comment in
  let comment_buffer :=
    if pcm_tag_added then (comment_buffer ++ " (PCM)")%string else comment_buffer in
  if has_user_comment then
    let comment_buffer :=
      if pcm_tag_added || String.eqb comment_buffer "#"
      then (comment_buffer ++ " ")%string else comment_buffer in
    (comment_buffer ++ match user_comment with Some c => c | None => "" end)%string
  else if negb pcm_tag_added then (comment_buffer ++ " ")%string
  else comment_buffer.

(** The padding between the file name and the comment. *)
Definition tabs_to_print (output_base : string) : Z :=
  let filename_len := strlen output_base in
  let num_stops := filename_len / TAB_WIDTH in
  let target_stops := (LIST_FILENAME_ALIGN_WIDTH + TAB_WIDTH - 1) / TAB_WIDTH in
  if num_stops <? target_stops then target_stops - num_stops else 1.

(** The listing branch; the line is one [Stdout] event.  A comment that
    does not fit the 256 bytes of [comment_buffer] is undefined behaviour. *)
Definition list_message (rom : list byte)
    (start_address segment_index_0_based msg_idx_in_seg : Z)
    (mapping : option MessageMapping) : result (list event) :=
  let output_base :=
    match mapping with
    | Some m => output_filename_base m
    | None => default_filename_base segment_index_0_based msg_idx_in_seg
    end in
  let user_comment :=
    match mapping with Some m => comment m | None => None end in
  let mode_read_ok := start_address <? rom_size rom in
  let message_mode :=
    if mode_read_ok then
      match rom_at rom start_address with Some b => b | None => 255 end
    else 255 in
  let warn :=
    if mode_read_ok then []
    else [Stderr (WarnListModeByte segment_index_0_based msg_idx_in_seg)] in
  let comment_buffer := build_comment mode_read_ok message_mode user_comment in
  if strlen comment_buffer >=? 256 then UndefinedBehaviour
  else
    Finished (warn ++
      [Stdout (fmt_d segment_index_0_based ++ tab ++ fmt_u msg_idx_in_seg ++ tab
               ++ output_base
               ++ replicate (Z.to_nat (tabs_to_print output_base)) tab
               ++ comment_buffer ++ newline)%string]).

Definition handle_message_iteration (rom : list byte)
    (segment_start_offset segment_index_0_based msg_idx_in_seg
     absolute_msg_idx : Z)
    (offset_table : list Z) (message_count_in_segment : Z)
    (mapping_table : MappingTable) (rom_basename : string)
    (list_mode quiet_mode : bool) (target_message_idx : Z)
  : result (HandleMessageResult * list event) :=
  let mapping := find_mapping mapping_table segment_index_0_based msg_idx_in_seg in
  match index offset_table msg_idx_in_seg with
  | None => UndefinedBehaviour
  | Some relative_base_offset_words =>
      let message_offset_bytes := to_uint32 (relative_base_offset_words * 2) in
      let start_address := segment_start_offset + message_offset_bytes in
      if list_mode then
        if negb quiet_mode then
          match list_message rom start_address segment_index_0_based
                  msg_idx_in_seg mapping with
          | Finished ev => Finished (MSG_HANDLED_CONTINUE, ev)
          | UndefinedBehaviour => UndefinedBehaviour
          | OutOfFuel => OutOfFuel
          end
        else Finished (MSG_HANDLED_CONTINUE, [])
      else
        if (target_message_idx <? 0) || (absolute_msg_idx =? target_message_idx) then
          let next :=
            if msg_idx_in_seg + 1 <? message_count_in_segment then
              option_map (fun w => to_uint32 (w * 2))
                (index offset_table (msg_idx_in_seg + 1))
            else Some ROM_SEGMENT_SIZE in
          match next with
          | None => UndefinedBehaviour
          | Some next_message_offset_bytes =>
              match process_message rom segment_start_offset
                      segment_index_0_based msg_idx_in_seg absolute_msg_idx
                      message_offset_bytes next_message_offset_bytes
                      mapping rom_basename with
              | Finished (success, ev) =>
                  if negb success then Finished (MSG_HANDLED_ERROR, ev)
                  else if (target_message_idx >=? 0)
                          && (absolute_msg_idx =? target_message_idx)
                  then Finished (MSG_HANDLED_TARGET_FOUND, ev)
                  else Finished (MSG_HANDLED_CONTINUE, ev)
              | UndefinedBehaviour => UndefinedBehaviour
              | OutOfFuel => OutOfFuel
              end
          end
        else Finished (MSG_HANDLED_CONTINUE, [])
  end.

(** ** The segment walk of [main] *)

Definition EXIT_SUCCESS : Z := 0.
Definition EXIT_FAILURE : Z := 1.

Definition to_uint16 (z : Z) : Z := z mod 2 ^ 16.

Definition read_u16be (rom : list byte) (pos : Z) : option Z :=
  match rom_at rom pos, rom_at rom (pos + 1) with
  | Some b0, Some b1 => Some (to_uint16 (Z.lor (Z.shiftl b0 8) b1))
  | _, _ => None
  end.

(** [memcmp (rom_data + pos, ref, |ref|) != 0] *)
Fixpoint memcmp_differs (rom : list byte) (pos : Z) (ref : list byte) : option bool :=
  match ref with
  | [] => Some false
  | r :: ref' =>
      match rom_at rom pos with
      | None => None
      | Some b =>
          if b =? byte_val r then memcmp_differs rom (pos + 1) ref'
          else Some true
      end
  end.

(** The loop that fills [offset_table] with [count] words. *)
Fixpoint read_offset_table (rom : list byte) (pos : Z) (count : nat) : option (list Z) :=
  match count with
  | O => Some []
  | S count' =>
      match read_u16be rom pos, read_offset_table rom (pos + 2) count' with
      | Some w, Some rest => Some (w :: rest)
      | _, _ => None
      end
  end.

(** The variables of [main] that live across the segment loop. *)
Record WalkState : Type := mkWalkState {
  segment_start : Z;
  segment_index_0_based : Z;
  absolute_msg_idx_counter : Z;
  target_found_and_processed : bool;
  exit_code : Z;
  output : list event
}.

Definition init_walk_state (out : list event) : WalkState :=
  mkWalkState 0 0 0 false EXIT_SUCCESS out.

(** How one pass through the body of the segment loop ends. *)
Inductive walk_step : Type :=
| WalkContinue (w : WalkState)
| WalkBreak (w : WalkState)
| WalkUndefined
| WalkOutOfFuel.

Section Walker.

Variable rom : list byte.
Variable mapping_table : MappingTable.
Variable rom_basename : string.
Variables list_mode quiet_mode : bool.
Variable target_message_idx : Z.

(** The message loop of one segment, with [remaining] records still to
    visit; the boolean of the result is [segment_error]. *)
Fixpoint message_loop (remaining : nat) (msg_idx_in_seg : Z)
    (offset_table : list Z) (message_count_in_segment : Z) (w : WalkState)
  : result (bool * WalkState) :=
  match remaining with
  | O => Finished (false, w)
  | S remaining' =>
      match handle_message_iteration rom (segment_start w)
              (segment_index_0_based w) msg_idx_in_seg
              (absolute_msg_idx_counter w + msg_idx_in_seg)
              offset_table message_count_in_segment mapping_table
              rom_basename list_mode quiet_mode target_message_idx with
      | Finished (r, ev) =>
          let out := output w ++ ev in
          match r with
          | MSG_HANDLED_ERROR =>
              Finished (true,
                mkWalkState (segment_start w) (segment_index_0_based w)
                  (absolute_msg_idx_counter w)
                  (target_found_and_processed w) EXIT_FAILURE out)
          | MSG_HANDLED_TARGET_FOUND =>
              Finished (false,
                mkWalkState (segment_start w) (segment_index_0_based w)
                  (absolute_msg_idx_counter w) true (exit_code w) out)
          | MSG_HANDLED_CONTINUE =>
              message_loop remaining' (msg_idx_in_seg + 1) offset_table
                message_count_in_segment
                (mkWalkState (segment_start w) (segment_index_0_based w)
                   (absolute_msg_idx_counter w)
                   (target_found_and_processed w) (exit_code w) out)
          end
      | UndefinedBehaviour => UndefinedBehaviour
      | OutOfFuel => OutOfFuel
      end
  end.

Definition fail_walk (w : WalkState) (d : diag) : WalkState :=
  mkWalkState (segment_start w) (segment_index_0_based w)
    (absolute_msg_idx_counter w) (target_found_and_processed w)
    EXIT_FAILURE (output w ++ [Stderr d]).

(** The body of the segment loop. *)
Definition segment_body (w : WalkState) : walk_step :=
  if segment_start w + 5 >? rom_size rom then
    if segment_index_0_based w >? 0 then WalkBreak w
    else WalkBreak (fail_walk w ErrRomTooSmall)
  else
    match rom_at rom (segment_start w),
          memcmp_differs rom (segment_start w + 1) ROM_MAGIC with
    | Some last_message_index, Some differs =>
        if differs then
          if segment_index_0_based w =? 0
          then WalkBreak (fail_walk w ErrInvalidMagic)
          else WalkBreak w
        else
          let message_count_in_segment := to_uint32 (last_message_index + 1) in
          let offset_table_start := segment_start w + 5 in
          let offset_table_size := message_count_in_segment * 2 in
          if (offset_table_start + offset_table_size >? rom_size rom)
             || (offset_table_start + offset_table_size
                 >? segment_start w + ROM_SEGMENT_SIZE)
          then WalkBreak (fail_walk w (ErrOffsetTable (segment_index_0_based w)))
          else
            match read_offset_table rom offset_table_start
                    (Z.to_nat message_count_in_segment) with
            | None => WalkUndefined
            | Some offset_table =>
                match message_loop (Z.to_nat message_count_in_segment) 0
                        offset_table message_count_in_segment w with
                | Finished (segment_error, w1) =>
                    let w2 :=
                      mkWalkState (segment_start w1) (segment_index_0_based w1)
                        (absolute_msg_idx_counter w1 + message_count_in_segment)
                        (target_found_and_processed w1) (exit_code w1)
                        (output w1) in
                    if segment_error || target_found_and_processed w2
                    then WalkBreak w2 else WalkContinue w2
                | UndefinedBehaviour => WalkUndefined
                | OutOfFuel => WalkOutOfFuel
                end
            end
    | _, _ => WalkUndefined
    end.

(** The increment of the [for] statement. *)
Definition next_segment (w : WalkState) : WalkState :=
  mkWalkState (segment_start w + ROM_SEGMENT_SIZE) (segment_index_0_based w + 1)
    (absolute_msg_idx_counter w) (target_found_and_processed w)
    (exit_code w) (output w).

Fixpoint segment_loop (fuel : nat) (w : WalkState) : result WalkState :=
  if segment_start w <? rom_size rom then
    match fuel with
    | O => OutOfFuel
    | S fuel' =>
        match segment_body w with
        | WalkContinue w' => segment_loop fuel' (next_segment w')
        | WalkBreak w' => Finished w'
        | WalkUndefined => UndefinedBehaviour
        | WalkOutOfFuel => OutOfFuel
        end
    end
  else Finished w.

(** One pass per segment start below [rom_size]. *)
Definition segment_fuel : nat := S (Z.to_nat (rom_size rom / ROM_SEGMENT_SIZE)).

(** [main], from the ROM and the mapping table as loaded: the exit code
    and the events of the run. *)
Definition main : result (Z * list event) :=
  if rom_size rom =? 0 then
    Finished (EXIT_FAILURE, [Stderr ErrInvalidRomSize])
  else
    let header :=
      if list_mode && negb quiet_mode
      then [Stdout ("# ROM: " ++ rom_basename ++ newline ++ newline)%string]
      else [] in
    match segment_loop segment_fuel (init_walk_state header) with
    | Finished w =>
        if negb list_mode && (target_message_idx >=? 0)
           && negb (target_found_and_processed w)
           && negb (exit_code w =? EXIT_FAILURE)
        then Finished (EXIT_FAILURE,
                       output w ++ [Stderr (ErrTargetNotFound target_message_idx)])
        else Finished (exit_code w, output w)
    | UndefinedBehaviour => UndefinedBehaviour
    | OutOfFuel => OutOfFuel
    end.

End Walker.

(** ** Vocabulary of the statements *)

(** The indices of the tables, and the check that every entry is there
    and within the bounds the proofs use. *)
Definition range16 : list Z := map Z.of_nat (seq 0 16).

Definition state_table_checked : bool :=
  forallb (fun nibble =>
             match state_table_at nibble with
             | Some delta => (-1 <=? delta) && (delta <=? 3)
             | None => false
             end) range16.

Definition step_table_checked : bool :=
  forallb (fun state =>
             forallb (fun nibble =>
                        match step_table_at state nibble with
                        | Some diff => (-214 <=? diff) && (diff <=? 214)
                        | None => false
                        end) range16) range16.

(** Clamping to the [int16_t] range, as the specification words it. *)
Definition clamp16 (z : Z) : Z :=
  if z >? 32767 then 32767 else if z <? -32768 then -32768 else z.

(** The range invariant of the codec state. *)
Definition adpcm_in_range (a : AdpcmState) : Prop :=
  -32768 <= current_sample a <= 32767 /\ 0 <= adpcm_state a <= 15.

(** A buffer as [add_pcm_sample] builds it: the capacity is 0 or 2048
    doubled at most fifty times. *)
Definition buffer_wf (b : PcmBuffer) : Prop :=
  count b <= capacity b /\
  (capacity b = 0 \/ exists k : Z, 0 <= k <= 50 /\ capacity b = 2048 * 2 ^ k).

(** The largest number of samples [add_pcm_sample] lets a buffer hold. *)
Definition PCM_LIMIT : Z := 2 ^ 61.

(** The two nibbles of a data byte, most significant first. *)
Definition nibbles_of_byte (data_byte : Z) : list Z :=
  [Z.land (Z.shiftr data_byte 4) 15; Z.land data_byte 15].

(** The nibbles of the [len] bytes of the ROM that start at [pos]. *)
Fixpoint rom_nibbles (rom : list byte) (pos : Z) (len : nat) : list Z :=
  match len with
  | O => []
  | S len' =>
      match rom_at rom pos with
      | Some b => nibbles_of_byte b ++ rom_nibbles rom (pos + 1) len'
      | None => []
      end
  end.

(** [decode_nibble] over a list of nibbles, while it succeeds. *)
Fixpoint decode_nibbles (nibbles : list Z) (a : AdpcmState) (b : PcmBuffer)
  : option (AdpcmState * PcmBuffer) :=
  match nibbles with
  | [] => Some (a, b)
  | nib :: rest =>
      match decode_nibble nib a b with
      | Some r => if nr_ok r then decode_nibbles rest (nr_state r) (nr_buffer r) else None
      | None => None
      end
  end.

(** [k] passes through the loop, none of which leaves it. *)
Inductive loop_steps (rom : list byte) (absolute_msg_idx : Z)
  : nat -> DecodeState -> DecodeState -> Prop :=
| loop_steps_O : forall s, loop_steps rom absolute_msg_idx O s s
| loop_steps_S : forall k s s' s'',
    loop_cond rom s = true ->
    loop_body rom absolute_msg_idx s = Continue s' ->
    loop_steps rom absolute_msg_idx k s' s'' ->
    loop_steps rom absolute_msg_idx (S k) s s''.

(** The states the loop of a message passes through. *)
Definition reachable (rom : list byte) (absolute_msg_idx pos : Z) (s : DecodeState) : Prop :=
  exists k, loop_steps rom absolute_msg_idx k (init_decode_state pos) s.

(** What holds of every state the loop passes through. *)
Definition loop_inv (rom : list byte) (s : DecodeState) : Prop :=
  0 <= current_pos s <= rom_size rom /\
  decoding_ok s = true /\
  adpcm_in_range (adpcm s) /\
  0 <= nibble_count s <= 256 /\
  0 <= repeat_count s <= 7 /\
  (repeat_count s > 0 ->
     nibble_count s > 0 /\
     0 <= current_repeat_nibble_start s <= current_pos s /\
     1 <= current_repeat_nibble_count s <= 256 /\
     2 * (current_pos s - current_repeat_nibble_start s) + nibble_count s
       = current_repeat_nibble_count s).

(** What keeps every read of the loop inside the ROM and the tables. *)
Definition safe_inv (s : DecodeState) : Prop :=
  0 <= current_pos s /\ 0 <= current_repeat_nibble_start s /\
  adpcm_in_range (adpcm s).

(** [safe_inv] after one pass, however the pass ends. *)
Definition flow_safe (f : flow) : Prop :=
  match f with
  | Continue s' => safe_inv s'
  | Break s' => safe_inv s'
  | Undefined => False
  end.

(** The number of passes the loop can still make, up to a constant. *)
Definition loop_measure (rom : list byte) (s : DecodeState) : Z :=
  if repeat_count s >? 0 then
    (nibble_count s + 1) / 2
    + (repeat_count s - 1) * ((current_repeat_nibble_count s + 1) / 2)
    + 7 * (rom_size rom - current_repeat_nibble_start s
           - (current_repeat_nibble_count s + 1) / 2)
    + 1024
  else 7 * (rom_size rom - current_pos s) + 1024.

(** The states the segment walk passes through at the head of the loop. *)
Inductive walk_reaches (rom : list byte) (mapping_table : MappingTable)
    (rom_basename : string) (list_mode quiet_mode : bool)
    (target_message_idx : Z) : WalkState -> WalkState -> Prop :=
| walk_reaches_refl : forall w,
    walk_reaches rom mapping_table rom_basename list_mode quiet_mode
      target_message_idx w w
| walk_reaches_step : forall w w1 w2,
    (segment_start w <? rom_size rom) = true ->
    segment_body rom mapping_table rom_basename list_mode quiet_mode
      target_message_idx w = WalkContinue w1 ->
    walk_reaches rom mapping_table rom_basename list_mode quiet_mode
      target_message_idx (next_segment w1) w2 ->
    walk_reaches rom mapping_table rom_basename list_mode quiet_mode
      target_message_idx w w2.

(** A segment header that is cut short or does not carry the magic. *)
Definition bad_header (rom : list byte) (segment_start : Z) : Prop :=
  segment_start + 5 > rom_size rom \/
  memcmp_differs rom (segment_start + 1) ROM_MAGIC = Some true.

(** No call of [write_wav_file] or [save_raw_pcm] among the events. *)
Definition no_output_file (evs : list event) : Prop :=
  forall e, In e evs ->
    match e with
    | WriteWavFile _ _ _ _ _ _ _ => False
    | SaveRawPcm _ _ _ => False
    | _ => True
    end.

(** What holds of the walk at the head of the segment loop. *)
Definition walk_inv (w : WalkState) : Prop :=
  exit_code w = EXIT_SUCCESS /\
  target_found_and_processed w = false /\
  0 <= segment_index_0_based w /\
  segment_start w = ROM_SEGMENT_SIZE * segment_index_0_based w.

(** The ROM of the first end-to-end scenario: the header and the offset
    table [00 03]; the record starts at byte offset 6, the low byte of the
    table word itself. *)
Definition scenario_prefix : list byte := [x00; x5a; xa5; x69; x55; x00; x03].

(** The listing line of that record as the code prints it, and as the
    scenario words it. *)
Definition scenario_line : string :=
  ("0" ++ tab ++ "0" ++ tab ++ "message_0_000" ++ tab ++ tab ++ tab ++ tab
   ++ "# " ++ newline)%string.

Definition scenario_line_bare_hash : string :=
  ("0" ++ tab ++ "0" ++ tab ++ "message_0_000" ++ tab ++ tab ++ tab ++ tab
   ++ "#" ++ newline)%string.

(** A ROM of two segments: the scenario ROM padded to the segment size,
    and five bytes FF where the header of segment 1 would be. *)
Definition two_segment_rom : list byte :=
  scenario_prefix ++ repeat x00 (Z.to_nat 131065) ++ [xff; xff; xff; xff; xff].

(** The comment of a mapping entry, empty when there is none. *)
Definition user_comment_text (mapping : option MessageMapping) : string :=
  match mapping with
  | Some m => match comment m with Some c => c | None => EmptyString end
  | None => EmptyString
  end.

(** The file name base of a record: mapped, or the default. *)
Definition output_base_of (mapping : option MessageMapping) (segment_index msg_idx : Z)
  : string :=
  match mapping with
  | Some m => output_filename_base m
  | None => default_filename_base segment_index msg_idx
  end.

From Stdlib Require DecimalPos DecimalN.

(** * Further parts of the program *)

(** ** [add_mapping]

    The scan for an entry with the same two indices, which is replaced in
    place, and the append behind the last entry otherwise.  The capacity
    of the array is not a part of the table here: [realloc] is taken not to
    fail, and then the doubling cannot be observed. *)

Fixpoint add_mapping (table : MappingTable) (entry : MessageMapping) : MappingTable :=
  match table with
  | [] => [entry]
  | m :: rest =>
      if (segment_index m =? segment_index entry)
         && (message_index_in_seg m =? message_index_in_seg entry)
      then entry :: rest
      else m :: add_mapping rest entry
  end.

(** ** Pointers into a string

    A pointer into a C string is the text from the pointer up to the
    terminator: a suffix of the string.  Of two pointers into one string
    the one with the shorter text is the greater. *)

Definition ptr_ge (p q : string) : bool := (String.length p <=? String.length q)%nat.

(** [p + 1] *)
Definition ptr_succ (p : string) : string :=
  match p with
  | EmptyString => EmptyString
  | String _ rest => rest
  end.

(** [strrchr (s, c)] for a character [c] other than the terminator. *)
Fixpoint strrchr (s : string) (c : ascii) : option string :=
  match s with
  | EmptyString => None
  | String a rest =>
      match strrchr rest c with
      | Some p => Some p
      | None => if Ascii.eqb a c then Some s else None
      end
  end.

(** [strchr (s, c)] for a character [c] other than the terminator. *)
Fixpoint strchr (s : string) (c : ascii) : option string :=
  match s with
  | EmptyString => None
  | String a rest => if Ascii.eqb a c then Some s else strchr rest c
  end.

(** ** [get_base_filename] *)

Definition get_base_filename (filepath : string) : string :=
  let last_slash := strrchr filepath "/" in
  let last_bslash := strrchr filepath "\" in
  let base := filepath in
  let base :=
    match last_slash with
    | Some p => if ptr_ge p base then ptr_succ p else base
    | None => base
    end in
  let base :=
    match last_bslash with
    | Some p => if ptr_ge p base then ptr_succ p else base
    | None => base
    end in
  base.

(** ** [clean_comment] *)

(** [isspace] in the C locale: space, and the characters 9 to 13. *)
Definition isspace (c : ascii) : bool :=
  let n := nat_of_ascii c in
  (n =? 32)%nat || ((9 <=? n)%nat && (n <=? 13)%nat).

(** The loop that steps over white space, up to the terminator. *)
Fixpoint skip_spaces (p : string) : string :=
  match p with
  | EmptyString => EmptyString
  | String a rest => if isspace a then skip_spaces rest else p
  end.

(** The text of [comment] after the call; the argument is not [NULL]. *)
Definition clean_comment (comment : string) : string :=
  match comment with
  | EmptyString => comment
  | _ =>
      let start_of_text := skip_spaces comment in
      let start_of_text :=
        match start_of_text with
        | String "#" rest => skip_spaces rest
        | _ => start_of_text
        end in
      start_of_text
  end.

(** ** Writing files

    A file that is being written is the list of the bytes written so far.
    [fwrite] is taken not to fail; what does fail leaves the file as it
    is at that point, as the [goto cleanup] of the source does. *)

Definition UINT32_MAX : Z := 2 ^ 32 - 1.
Definition ADPCM_BITS : Z := 16.
Definition ADPCM_CHANNELS : Z := 1.

Definition file_op : Type := list Z -> bool * list Z.

Definition fwrite (bytes : list Z) : file_op := fun file => (true, file ++ bytes).

(** [if (!a) goto cleanup; b] *)
Definition and_then (a b : file_op) : file_op :=
  fun file => let '(ok, file') := a file in if ok then b file' else (false, file').

Notation "a ;; b" := (and_then a b) (at level 61, right associativity).

Definition skip_op : file_op := fun file => (true, file).

(** The bytes of a C string, without the terminator. *)
Definition string_bytes (s : string) : list Z :=
  map (fun c => Z.of_nat (nat_of_ascii c)) (list_ascii_of_string s).

(** The two bytes [write_u16le] hands to [fwrite]. *)
Definition u16le_bytes (value : Z) : list Z :=
  [Z.land value 255; Z.land (Z.shiftr value 8) 255].

Definition write_u16le (value : Z) : file_op := fwrite (u16le_bytes value).

(** The four bytes [write_u32le] hands to [fwrite]. *)
Definition u32le_bytes (value : Z) : list Z :=
  [Z.land value 255; Z.land (Z.shiftr value 8) 255;
   Z.land (Z.shiftr value 16) 255; Z.land (Z.shiftr value 24) 255].

Definition write_u32le (value : Z) : file_op := fwrite (u32le_bytes value).

(** Four bytes from [id]; every caller passes four characters. *)
Definition write_chunk_id (id : string) : file_op :=
  fwrite (firstn 4 (string_bytes id)).

(** [write_info_sub_chunk]: the value returned, and the file. *)
Definition write_info_sub_chunk (id : string) (text : option string) (file : list Z)
  : Z * list Z :=
  match text with
  | None => (0, file)
  | Some text =>
      let text_len := strlen text in
      let chunk_size := to_uint32 (to_uint32 text_len + 1) in
      let needs_padding := negb (chunk_size mod 2 =? 0) in
      let total_size :=
        to_uint32 (4 + 4 + chunk_size + (if needs_padding then 1 else 0)) in
      let '(ok, file') :=
        (write_chunk_id id ;; write_u32le chunk_size ;;
         fwrite (string_bytes text ++ [0]) ;;
         (if needs_padding then fwrite [0] else skip_op)) file in
      (if ok then total_size else 0, file')
  end.

(** [if (write_info_sub_chunk (id, text, fp) == 0) goto cleanup;] *)
Definition info_sub_chunk (id : string) (text : option string) : file_op :=
  fun file =>
    let '(written, file') := write_info_sub_chunk id text file in
    (negb (written =? 0), file').

(** What one string adds to [info_chunk_data_size]. *)
Definition info_size (text : string) : Z :=
  let temp_len := to_size_t (strlen text + 1) in
  let temp_pad := negb (temp_len mod 2 =? 0) in
  4 + 4 + temp_len + (if temp_pad then 1 else 0).

(** [write_wav_file]: the value returned and the file it leaves behind.
    [date_str] is the date that [strftime] has formatted; [fopen] is taken
    to succeed, and the file starts empty. *)
Definition write_wav_file (pcm : list Z) (sample_rate : Z)
    (rom_basename track_title track_number_str : string)
    (comment : option string) (date_str : string) : bool * list Z :=
  let album := "Nortel Millennium VoiceWare"%string in
  let artist := rom_basename in
  let num_samples := to_uint32 (Z.of_nat (length pcm)) in
  let bytes_per_sample := ADPCM_BITS / 8 in
  let data_chunk_size_64 := num_samples * bytes_per_sample in
  if data_chunk_size_64 >? UINT32_MAX then (false, [])
  else
    let data_chunk_size := to_uint32 data_chunk_size_64 in
    let data_needs_padding := negb (data_chunk_size mod 2 =? 0) in
    let padded_data_chunk_size :=
      to_uint32 (data_chunk_size + (if data_needs_padding then 1 else 0)) in
    let has_comment :=
      match comment with Some c => strlen c >? 0 | None => false end in
    let info_chunk_total_size := 4 in
    let info_chunk_data_size := 4 in
    let info_chunk_data_size := to_uint32 (info_chunk_data_size + info_size album) in
    let info_chunk_data_size := to_uint32 (info_chunk_data_size + info_size artist) in
    let info_chunk_data_size :=
      to_uint32 (info_chunk_data_size + info_size track_title) in
    let info_chunk_data_size :=
      to_uint32 (info_chunk_data_size + info_size track_number_str) in
    let info_chunk_data_size := to_uint32 (info_chunk_data_size + info_size date_str) in
    let info_chunk_data_size :=
      if has_comment then
        to_uint32 (info_chunk_data_size
                   + info_size match comment with Some c => c | None => "" end)
      else info_chunk_data_size in
    let info_chunk_total_size :=
      to_uint32 (info_chunk_total_size + info_chunk_data_size) in
    let fmt_chunk_size := 16 in
    let riff_chunk_size :=
      to_uint32 (4 + (4 + 4 + fmt_chunk_size) + info_chunk_total_size
                 + (4 + 4 + padded_data_chunk_size)) in
    let bytes_per_sec := to_uint32 (sample_rate * ADPCM_CHANNELS * bytes_per_sample) in
    let block_align := to_uint16 (ADPCM_CHANNELS * bytes_per_sample) in
    (write_chunk_id "RIFF" ;; write_u32le riff_chunk_size ;; write_chunk_id "WAVE" ;;
     write_chunk_id "fmt " ;; write_u32le fmt_chunk_size ;;
     write_u16le 1 ;; write_u16le ADPCM_CHANNELS ;;
     write_u32le sample_rate ;; write_u32le bytes_per_sec ;;
     write_u16le block_align ;; write_u16le ADPCM_BITS ;;
     write_chunk_id "LIST" ;; write_u32le info_chunk_data_size ;;
     write_chunk_id "INFO" ;;
     info_sub_chunk "IALB" (Some album) ;;
     info_sub_chunk "IART" (Some artist) ;;
     info_sub_chunk "INAM" (Some track_title) ;;
     info_sub_chunk "ITRK" (Some track_number_str) ;;
     info_sub_chunk "ICRD" (Some date_str) ;;
     (if has_comment then info_sub_chunk "ICMT" comment else skip_op) ;;
     write_chunk_id "data" ;; write_u32le data_chunk_size ;;
     fold_right (fun sample rest => write_u16le (to_uint16 sample) ;; rest)
       skip_op pcm ;;
     (if data_needs_padding then fwrite [0] else skip_op)) [].

(** ** [save_raw_pcm]

    The value returned and the bytes of the file, if one is made; a read
    outside of the ROM is undefined. *)
Definition save_raw_pcm (rom : list byte)
    (message_start_offset message_end_offset : Z) : option (bool * option (list Z)) :=
  if message_end_offset <=? message_start_offset then Some (false, None)
  else
    let data_size := message_end_offset - message_start_offset in
    if (message_start_offset <? 0) || (message_end_offset >? rom_size rom) then None
    else
      Some (true,
            Some (map byte_val (firstn (Z.to_nat data_size)
                                  (skipn (Z.to_nat message_start_offset) rom)))).

(** ** [strtol]

    [strtol (nptr, &endptr, 10)] of the C library with a [long] of 64
    bits: the value and the text at [endptr].  White space is skipped, a
    sign is taken, then the digits; without a digit the value is 0 and
    [endptr] is [nptr]; a value out of range is clamped. *)

Definition LONG_MAX : Z := 2 ^ 63 - 1.
Definition LONG_MIN : Z := - 2 ^ 63.

(** The conversion of a [long] to [int]. *)
Definition to_int (z : Z) : Z := (z + 2 ^ 31) mod 2 ^ 32 - 2 ^ 31.

Definition isdigit (c : ascii) : bool :=
  let n := nat_of_ascii c in (48 <=? n)%nat && (n <=? 57)%nat.

Definition digit_value (c : ascii) : Z := Z.of_nat (nat_of_ascii c) - 48.

Fixpoint strtol_digits (p : string) (acc : Z) : Z * string :=
  match p with
  | EmptyString => (acc, p)
  | String c rest =>
      if isdigit c then strtol_digits rest (acc * 10 + digit_value c) else (acc, p)
  end.

Definition strtol (nptr : string) : Z * string :=
  let p := skip_spaces nptr in
  let '(negative, p) :=
    match p with
    | String "-" rest => (true, rest)
    | String "+" rest => (false, rest)
    | _ => (false, p)
    end in
  match p with
  | EmptyString => (0, nptr)
  | String c _ =>
      if isdigit c then
        let '(value, endptr) := strtol_digits p 0 in
        let value := if negative : bool then - value else value in
        (Z.max LONG_MIN (Z.min LONG_MAX value), endptr)
      else (0, nptr)
  end.

(** ** [load_mappings] *)

(** The text from the pointer [p] up to the pointer [q] behind it: what
    the string at [p] is once a terminator has been written at [q]. *)
Definition cut_at (p q : string) : string :=
  substring 0 (String.length p - String.length q) p.

(** The loops that write terminators over trailing white space. *)
Fixpoint rtrim (s : string) : string :=
  match s with
  | EmptyString => EmptyString
  | String c rest =>
      match rtrim rest with
      | EmptyString => if isspace c then EmptyString else String c EmptyString
      | kept => String c kept
      end
  end.

Definition tab_char : ascii := "009"%char.
Definition newline_char : ascii := "010"%char.

(** What becomes of one line of the mapping file. *)
Inductive line_result : Type :=
| LineSkipped
| LineEntry (entry : MessageMapping)
| LineMissingTabs
| LineInvalidIndex.

(** The body of the loop of [load_mappings] up to the call of
    [add_mapping], for the line that [fgets] has read. *)
Definition parse_mapping_line (line : string) : line_result :=
  let trimmed_line := skip_spaces line in
  match trimmed_line with
  | EmptyString => LineSkipped
  | String first _ =>
      if Ascii.eqb first "#" then LineSkipped
      else
        let tab1 := strchr trimmed_line tab_char in
        let tab2 :=
          match tab1 with Some t1 => strchr (ptr_succ t1) tab_char | None => None end in
        let tab3 :=
          match tab2 with Some t2 => strchr (ptr_succ t2) tab_char | None => None end in
        match tab1, tab2 with
        | Some tab1, Some tab2 =>
            let '(seg_idx_long, endptr_seg) := strtol (cut_at trimmed_line tab1) in
            let '(msg_idx_long, endptr_msg) := strtol (cut_at (ptr_succ tab1) tab2) in
            if negb (String.eqb endptr_seg "") || negb (String.eqb endptr_msg "")
               || (seg_idx_long <? 0) || (msg_idx_long <? 0)
            then LineInvalidIndex
            else
              let filename_start := ptr_succ tab2 in
              let '(filename, comment_start) :=
                match tab3 with
                | Some tab3 => (rtrim (cut_at filename_start tab3), Some (ptr_succ tab3))
                | None => (rtrim filename_start, None)
                end in
              let entry_comment :=
                match comment_start with
                | Some (String c rest) => Some (clean_comment (rtrim (String c rest)))
                | _ => None
                end in
              LineEntry (mkMessageMapping (to_int seg_idx_long) (to_int msg_idx_long)
                           filename entry_comment)
        | _, _ => LineMissingTabs
        end
  end.

(** [fgets (line, size, fp)] on the rest of the file: the characters up
    to and with the first newline, [size - 1] of them at most, and what
    stays in the file; [None] at the end of the file. *)
Fixpoint fgets_chars (room : nat) (input : string) : string * string :=
  match room, input with
  | S room', String c rest =>
      if Ascii.eqb c newline_char then (String c EmptyString, rest)
      else let '(line, rest') := fgets_chars room' rest in (String c line, rest')
  | _, _ => (EmptyString, input)
  end.

Definition fgets (size : nat) (input : string) : option (string * string) :=
  match input with
  | EmptyString => None
  | _ => Some (fgets_chars (size - 1) input)
  end.

Inductive load_diag : Type :=
| ErrCannotOpenMapping
| ErrMissingTabs (line_num : Z)
| ErrInvalidIndex (line_num : Z).

(** The loop of [load_mappings]: whether it went through, the table, and
    what went to [stderr].  A table that was not loaded to the end is
    freed. *)
Fixpoint load_lines (fuel : nat) (input : string) (line_num : Z)
    (table : MappingTable) : result (bool * MappingTable * list load_diag) :=
  match fgets 1024 input with
  | None => Finished (true, table, [])
  | Some (line, rest) =>
      match fuel with
      | O => OutOfFuel
      | S fuel' =>
          let line_num := line_num + 1 in
          match parse_mapping_line line with
          | LineSkipped => load_lines fuel' rest line_num table
          | LineEntry entry => load_lines fuel' rest line_num (add_mapping table entry)
          | LineMissingTabs => Finished (false, [], [ErrMissingTabs line_num])
          | LineInvalidIndex => Finished (false, [], [ErrInvalidIndex line_num])
          end
      end
  end.

(** [load_mappings] on the text of the file, [None] for a file that
    cannot be opened. *)
Definition load_mappings (file : option string) (table : MappingTable)
  : result (bool * MappingTable * list load_diag) :=
  match file with
  | None => Finished (false, table, [ErrCannotOpenMapping])
  | Some text => load_lines (String.length text) text 0 table
  end.

(** ** [parse_arguments] *)

Record Arguments : Type := mkArguments {
  rom_filepath : option string;
  map_filepath : option string;
  target_message_idx : Z;
  list_mode : bool;
  quiet_mode : bool;
  verbose_mode : bool
}.

Inductive usage_error : Type :=
| ErrMapNeedsPath
| ErrInvalidMessageIndex (arg : string)
| ErrIndexNeedsValue
| HelpRequested
| ErrUnknownOption (arg : string)
| ErrUnexpectedArgument (arg : string)
| ErrRomRequired.

(** The loop over [argv[1]] to [argv[argc - 1]]. *)
Fixpoint parse_loop (args : list string) (a : Arguments) : Arguments + usage_error :=
  match args with
  | [] => inl a
  | arg :: rest =>
      if String.eqb arg "-m" then
        match rest with
        | path :: rest' =>
            parse_loop rest'
              (mkArguments (rom_filepath a) (Some path) (target_message_idx a)
                 (list_mode a) (quiet_mode a) (verbose_mode a))
        | [] => inr ErrMapNeedsPath
        end
      else if String.eqb arg "-i" then
        match rest with
        | text :: rest' =>
            let '(value, endptr) := strtol text in
            if negb (String.eqb endptr "") || (value <? 0)
            then inr (ErrInvalidMessageIndex text)
            else
              parse_loop rest'
                (mkArguments (rom_filepath a) (map_filepath a) value
                   (list_mode a) (quiet_mode a) (verbose_mode a))
        | [] => inr ErrIndexNeedsValue
        end
      else if String.eqb arg "-l" || String.eqb arg "--list" then
        parse_loop rest
          (mkArguments (rom_filepath a) (map_filepath a) (target_message_idx a)
             true (quiet_mode a) (verbose_mode a))
      else if String.eqb arg "-q" || String.eqb arg "--quiet" then
        parse_loop rest
          (mkArguments (rom_filepath a) (map_filepath a) (target_message_idx a)
             (list_mode a) true (verbose_mode a))
      else if String.eqb arg "-v" || String.eqb arg "--verbose" then
        parse_loop rest
          (mkArguments (rom_filepath a) (map_filepath a) (target_message_idx a)
             (list_mode a) (quiet_mode a) true)
      else if String.eqb arg "-h" || String.eqb arg "--help" then inr HelpRequested
      else
        match arg with
        | String "-" _ => inr (ErrUnknownOption arg)
        | _ =>
            match rom_filepath a with
            | None =>
                parse_loop rest
                  (mkArguments (Some arg) (map_filepath a) (target_message_idx a)
                     (list_mode a) (quiet_mode a) (verbose_mode a))
            | Some _ => inr (ErrUnexpectedArgument arg)
            end
        end
  end.

(** [parse_arguments] on [argv] without the program name. *)
Definition parse_arguments (args : list string) : Arguments + usage_error :=
  match parse_loop args (mkArguments None None (-1) false false false) with
  | inr e => inr e
  | inl a =>
      match rom_filepath a with
      | None => inr ErrRomRequired
      | Some _ =>
          let verbose := if quiet_mode a then false else verbose_mode a in
          let target :=
            if list_mode a && (target_message_idx a >=? 0) then -1
            else target_message_idx a in
          inl (mkArguments (rom_filepath a) (map_filepath a) target
                 (list_mode a) (quiet_mode a) verbose)
      end
  end.

(** The exit code of [main] when [parse_arguments] has failed. *)
Definition usage_exit_code (args : list string) : Z :=
  match rev args with
  | last :: _ =>
      if String.eqb last "-h" || String.eqb last "--help"
      then EXIT_SUCCESS else EXIT_FAILURE
  | [] => EXIT_FAILURE
  end.

(** * Vocabulary of the further properties *)

(** The values of an [int16_t]. *)
Definition in_int16 (x : Z) : Prop := -32768 <= x <= 32767.

(** A buffer that only holds [int16_t] values in an array it does not
    overrun. *)
Definition buffer_sound (b : PcmBuffer) : Prop :=
  buffer_wf b /\ Forall in_int16 (samples b).

(** The samples of [b'] are those of [b] with more behind them. *)
Definition buffer_extends (b b' : PcmBuffer) : Prop :=
  exists new, samples b' = samples b ++ new.

(** The diagnostics that come with the exit code of a failure: the ones
    [main] prints before it sets [exit_code], and the one of
    [load_rom_data]. *)
Definition fatal_diag (d : diag) : bool :=
  match d with
  | ErrRomTooSmall | ErrInvalidMagic | ErrOffsetTable _
  | ErrTargetNotFound _ | ErrInvalidRomSize => true
  | _ => false
  end.

(** A mapping whose comment leaves room in [comment_buffer] for the hash,
    the PCM marker, the space and the terminator. *)
Definition comment_fits (m : MessageMapping) : Prop :=
  match comment m with
  | Some c => strlen c <= 247
  | None => True
  end.

(** A call of [write_wav_file] or [save_raw_pcm]. *)
Definition is_output_file (e : event) : bool :=
  match e with
  | WriteWavFile _ _ _ _ _ _ _ => true
  | SaveRawPcm _ _ _ => true
  | _ => false
  end.

(** An entry of the mapping table for this segment and index. *)
Definition mapping_matches (segment_index_0_based msg_idx : Z) (m : MessageMapping)
  : bool :=
  (segment_index m =? segment_index_0_based) && (message_index_in_seg m =? msg_idx).

(** How the segment loop can end, for a property [J] of the flag
    [target_found_and_processed] and the events so far: without an error,
    or with the exit code of a failure behind one fatal diagnostic. *)
Definition walk_end (J : bool -> list event -> Prop) (w : WalkState) : Prop :=
  (exit_code w = EXIT_SUCCESS /\ J (target_found_and_processed w) (output w)) \/
  (exit_code w = EXIT_FAILURE /\ target_found_and_processed w = false /\
   exists out d, output w = out ++ [Stderr d] /\ fatal_diag d = true /\ J false out).

(** The same for the run as a whole; [wanted] tells that one message was
    asked for, which a run without an error then has found. *)
Definition run_end (J : bool -> list event -> Prop) (wanted : bool)
    (code : Z) (evs : list event) : Prop :=
  (code = EXIT_SUCCESS /\
   exists found, J found evs /\ (wanted = true -> found = true)) \/
  (code = EXIT_FAILURE /\
   exists out d, evs = out ++ [Stderr d] /\ fatal_diag d = true /\ J false out).

(** The header line of a listing. *)
Definition list_header (rom_basename : string) : event :=
  Stdout ("# ROM: " ++ rom_basename ++ newline ++ newline)%string.

(** A ROM of one segment with one ADPCM message: the header, the offset
    table [00 04], a filler byte, and at byte offset 8 the record: mode
    00, a long block of two nibbles, the end opcode. *)
Definition one_message_rom : list byte :=
  [x00; x5a; xa5; x69; x55; x00; x04; x00; x00; x80; x01; x77; x00].

(** The table after [add_mapping] was called with these entries in turn,
    as [load_mappings] does with the lines of the file. *)
Definition add_mappings (table : MappingTable) (entries : list MessageMapping)
  : MappingTable :=
  fold_left add_mapping entries table.

(** The character occurs in the string. *)
Fixpoint occurs (c : ascii) (s : string) : bool :=
  match s with
  | EmptyString => false
  | String a rest => Ascii.eqb a c || occurs c rest
  end.

(** Nothing but white space. *)
Fixpoint all_spaces (s : string) : bool :=
  match s with
  | EmptyString => true
  | String a rest => isspace a && all_spaces rest
  end.

(** The two indices of a mapping. *)
Definition mapping_key (m : MessageMapping) : Z * Z :=
  (segment_index m, message_index_in_seg m).

(** Reading back what the writers wrote: a little-endian word of [n]
    bytes, and a list of 16-bit samples in two's complement. *)
Fixpoint le_value (bytes : list Z) : Z :=
  match bytes with
  | [] => 0
  | b :: rest => b + 256 * le_value rest
  end.

Definition le_field (file : list Z) (pos len : nat) : Z :=
  le_value (firstn len (skipn pos file)).

Fixpoint s16le_samples (bytes : list Z) : list Z :=
  match bytes with
  | lo :: hi :: rest => to_int16 (lo + 256 * hi) :: s16le_samples rest
  | _ => []
  end.

(** The bytes of one INFO sub-chunk: the id, the size of the text with
    its terminator, the text, the terminator, and a pad byte when that
    size is odd. *)
Definition info_bytes (id text : string) : list Z :=
  firstn 4 (string_bytes id) ++ u32le_bytes (strlen text + 1)
  ++ string_bytes text ++ [0]
  ++ (if Z.even (strlen text + 1) then [] else [0]).

(** The bytes of the samples as the loop of [write_wav_file] writes
    them. *)
Definition sample_bytes (pcm : list Z) : list Z :=
  flat_map (fun sample => u16le_bytes (to_uint16 sample)) pcm.

(** The bytes of the INFO list of a WAV file. *)
Definition info_list_bytes (rom_basename track_title track_number_str : string)
    (comment : option string) (date_str : string) : list Z :=
  string_bytes "INFO"
  ++ info_bytes "IALB" "Nortel Millennium VoiceWare"
  ++ info_bytes "IART" rom_basename
  ++ info_bytes "INAM" track_title
  ++ info_bytes "ITRK" track_number_str
  ++ info_bytes "ICRD" date_str
  ++ match comment with
     | Some c => if strlen c >? 0 then info_bytes "ICMT" c else []
     | None => []
     end.

(** The sixteen bytes of the format chunk for 16-bit mono PCM. *)
Definition fmt_bytes (sample_rate : Z) : list Z :=
  u16le_bytes 1 ++ u16le_bytes 1 ++ u32le_bytes sample_rate
  ++ u32le_bytes (to_uint32 (sample_rate * 2)) ++ u16le_bytes 2 ++ u16le_bytes 16.

(** A ROM of one segment with one raw PCM message of three bytes: the
    mode byte 40 at byte offset 8 and two data bytes. *)
Definition raw_message_rom : list byte :=
  [x00; x5a; xa5; x69; x55; x00; x04; x00; x40; x01; x02].

(** The value of a decimal numeral read from the left behind the value
    [acc], as [strtol_digits] computes it. *)
Fixpoint uint_value (d : Decimal.uint) (acc : Z) : Z :=
  match d with
  | Decimal.Nil => acc
  | Decimal.D0 l => uint_value l (acc * 10 + 0)
  | Decimal.D1 l => uint_value l (acc * 10 + 1)
  | Decimal.D2 l => uint_value l (acc * 10 + 2)
  | Decimal.D3 l => uint_value l (acc * 10 + 3)
  | Decimal.D4 l => uint_value l (acc * 10 + 4)
  | Decimal.D5 l => uint_value l (acc * 10 + 5)
  | Decimal.D6 l => uint_value l (acc * 10 + 6)
  | Decimal.D7 l => uint_value l (acc * 10 + 7)
  | Decimal.D8 l => uint_value l (acc * 10 + 8)
  | Decimal.D9 l => uint_value l (acc * 10 + 9)
  end.

(** The text does not go on with a digit. *)
Definition no_digit_ahead (s : string) : bool :=
  match s with
  | EmptyString => true
  | String c _ => negb (isdigit c)
  end.

(** Nothing but digits. *)
Fixpoint all_digits (s : string) : bool :=
  match s with
  | EmptyString => true
  | String c rest => isdigit c && all_digits rest
  end.

(** Nothing fatal among the diagnostics. *)
Definition no_fatal (ds : list diag) : Prop := Forall (fun d => fatal_diag d = false) ds.

(** Nothing fatal among the events. *)
Definition no_fatal_event (evs : list event) : Prop :=
  forall d, In (Stderr d) evs -> fatal_diag d = false.

(** * Properties *)

(** ** Bytes, nibbles and tables *)

Lemma byte_val_range (b : byte) : 0 <= byte_val b < 256.
Proof.
  unfold byte_val. pose proof (Byte.to_N_bounded b). lia.
Qed.

Lemma rom_at_in_bounds (rom : list byte) (pos : Z) :
  0 <= pos < rom_size rom ->
  exists b, rom_at rom pos = Some b /\ 0 <= b < 256.
Proof.
  intros Hpos. unfold rom_at, rom_size in *.
  destruct (Z.ltb_spec pos 0) as [Hneg | _]; [lia |].
  destruct (nth_error rom (Z.to_nat pos)) as [b |] eqn:Hnth.
  - exists (byte_val b). split; [reflexivity | apply byte_val_range].
  - apply nth_error_None in Hnth. exfalso. lia.
Qed.

Lemma rom_at_some_bounds (rom : list byte) (pos b : Z) :
  rom_at rom pos = Some b -> 0 <= pos < rom_size rom /\ 0 <= b < 256.
Proof.
  unfold rom_at, rom_size.
  destruct (Z.ltb_spec pos 0) as [Hneg | Hpos]; [discriminate |].
  destruct (nth_error rom (Z.to_nat pos)) as [x |] eqn:Hnth; [| discriminate].
  simpl. intros [= <-]. split; [| apply byte_val_range].
  assert (Hlt : (Z.to_nat pos < length rom)%nat)
    by (apply nth_error_Some; congruence).
  lia.
Qed.

Lemma land_15_range (x : Z) : 0 <= Z.land x 15 <= 15.
Proof.
  assert (H : Z.land x 15 = x mod 16)
    by (change 15 with (Z.ones 4); rewrite Z.land_ones by lia; reflexivity).
  rewrite H. pose proof (Z.mod_pos_bound x 16). lia.
Qed.

Lemma land_7_range (x : Z) : 0 <= Z.land x 7 <= 7.
Proof.
  assert (H : Z.land x 7 = x mod 8)
    by (change 7 with (Z.ones 3); rewrite Z.land_ones by lia; reflexivity).
  rewrite H. pose proof (Z.mod_pos_bound x 8). lia.
Qed.

Lemma in_range16 (n : Z) : 0 <= n <= 15 -> In n range16.
Proof.
  intros H. unfold range16. apply in_map_iff. exists (Z.to_nat n).
  split; [lia | apply in_seq; lia].
Qed.

Lemma state_table_at_range (nibble : Z) :
  0 <= nibble <= 15 ->
  exists delta, state_table_at nibble = Some delta /\ -1 <= delta <= 3.
Proof.
  intros H. assert (Hall : state_table_checked = true) by (vm_compute; reflexivity).
  unfold state_table_checked in Hall. rewrite forallb_forall in Hall.
  specialize (Hall nibble (in_range16 nibble H)).
  destruct (state_table_at nibble) as [delta |]; [| discriminate].
  exists delta. split; [reflexivity | lia].
Qed.

Lemma step_table_at_range (state nibble : Z) :
  0 <= state <= 15 -> 0 <= nibble <= 15 ->
  exists diff, step_table_at state nibble = Some diff /\ -214 <= diff <= 214.
Proof.
  intros Hs Hn. assert (Hall : step_table_checked = true) by (vm_compute; reflexivity).
  unfold step_table_checked in Hall. rewrite forallb_forall in Hall.
  specialize (Hall state (in_range16 state Hs)). rewrite forallb_forall in Hall.
  specialize (Hall nibble (in_range16 nibble Hn)).
  destruct (step_table_at state nibble) as [diff |]; [| discriminate].
  exists diff. split; [reflexivity | lia].
Qed.

Lemma to_int16_id (z : Z) : -32768 <= z <= 32767 -> to_int16 z = z.
Proof.
  intros H. unfold to_int16. rewrite Z.mod_small by lia. lia.
Qed.

Lemma to_int8_id (z : Z) : -128 <= z <= 127 -> to_int8 z = z.
Proof.
  intros H. unfold to_int8. rewrite Z.mod_small by lia. lia.
Qed.

Lemma to_uint32_id (z : Z) : 0 <= z < 2 ^ 32 -> to_uint32 z = z.
Proof.
  intros H. unfold to_uint32. apply Z.mod_small. exact H.
Qed.

(** ** The PCM buffer *)

Lemma count_app (l : list Z) (x : Z) (c : Z) :
  count (mkPcmBuffer (l ++ [x]) c) = Z.of_nat (length l) + 1.
Proof.
  unfold count. simpl. rewrite length_app. simpl. lia.
Qed.

Lemma buffer_wf_init : buffer_wf init_pcm_buffer.
Proof.
  split; [unfold count; simpl; lia | left; reflexivity].
Qed.

Lemma pow2_le_50 (k : Z) : 0 <= k <= 50 -> 1 <= 2 ^ k <= 2 ^ 50.
Proof.
  intros H. split.
  - pose proof (Z.pow_pos_nonneg 2 k). lia.
  - apply Z.pow_le_mono_r; lia.
Qed.

Lemma pow2_lt_50 (k : Z) : 0 <= k < 50 -> 2 * 2 ^ k <= 2 ^ 50.
Proof.
  intros H. replace (2 * 2 ^ k) with (2 ^ (k + 1))
    by (rewrite Z.pow_add_r by lia; change (2 ^ 1) with 2; lia).
  apply Z.pow_le_mono_r; lia.
Qed.

(** A well-formed buffer below the limit takes one more sample. *)
Lemma add_pcm_sample_ok (b : PcmBuffer) (x : Z) :
  buffer_wf b -> count b < PCM_LIMIT ->
  exists b', add_pcm_sample b x = (true, b', []) /\
             samples b' = samples b ++ [x] /\ buffer_wf b'.
Proof.
  intros [Hle Hcap] Hroom. unfold add_pcm_sample.
  destruct b as [l c]. unfold count in Hle, Hroom |- *.
  cbn [samples capacity] in *.
  destruct (Z.of_nat (length l) >=? c) eqn:Hfull.
  - destruct Hcap as [Hz | [k [Hk Hc]]].
    + subst c. simpl. eexists. split; [reflexivity |]. split; [reflexivity |].
      split; [rewrite count_app; simpl; lia |].
      right. exists 0. simpl. lia.
    + assert (Hk50 : k < 50).
      { destruct (Z.eq_dec k 50) as [-> | Hne]; [| lia].
        unfold PCM_LIMIT in Hroom. change (2 ^ 50) with 1125899906842624 in Hc.
        change (2 ^ 61) with 2305843009213693952 in Hroom. lia. }
      pose proof (pow2_le_50 k Hk) as Hp.
      pose proof (pow2_lt_50 k (conj (proj1 Hk) Hk50)) as Hp'.
      change (2 ^ 50) with 1125899906842624 in Hp, Hp'.
      assert (Hne : (c =? 0) = false) by lia. rewrite Hne.
      assert (Hsz : to_size_t (c * 2) = c * 2).
      { unfold to_size_t. apply Z.mod_small.
        change (2 ^ 64) with 18446744073709551616. lia. }
      rewrite Hsz.
      assert (Hok : (c * 2 >? SIZE_MAX / 2 / 2) = false).
      { change (SIZE_MAX / 2 / 2) with 4611686018427387903. lia. }
      rewrite Hok. eexists. split; [reflexivity |]. split; [reflexivity |].
      split; [rewrite count_app; simpl; lia |].
      right. exists (k + 1). split; [lia |].
      cbn [capacity]. rewrite Z.pow_add_r by lia. change (2 ^ 1) with 2. lia.
  - eexists. split; [reflexivity |]. split; [reflexivity |].
    split; [rewrite count_app; simpl; lia | exact Hcap].
Qed.

Lemma add_pcm_sample_samples (b b' : PcmBuffer) (x : Z) (ok : bool) (d : list diag) :
  add_pcm_sample b x = (ok, b', d) ->
  (ok = true /\ samples b' = samples b ++ [x] /\ d = []) \/
  (ok = false /\ b' = b /\ d = [ErrPcmCapacity]).
Proof.
  unfold add_pcm_sample.
  destruct (count b >=? capacity b);
    [destruct (_ >? _) |]; intros [= <- <- <-]; simpl; auto.
Qed.

(** The silence loop on a buffer with room for [n] samples. *)
Lemma add_silence_ok (n : nat) (b : PcmBuffer) :
  buffer_wf b -> count b + Z.of_nat n <= PCM_LIMIT ->
  exists b', add_silence n b = (true, b', []) /\
             samples b' = samples b ++ repeat 0 n /\ buffer_wf b'.
Proof.
  revert b. induction n as [| n IH]; intros b Hwf Hroom.
  - exists b. simpl. rewrite app_nil_r. auto.
  - destruct (add_pcm_sample_ok b 0 Hwf) as [b1 [Hadd [Hs1 Hwf1]]]; [lia |].
    destruct (IH b1 Hwf1) as [b2 [Hsil [Hs2 Hwf2]]].
    { unfold count in *. rewrite Hs1, length_app. simpl. lia. }
    exists b2. simpl. rewrite Hadd, Hsil. split; [reflexivity |].
    split; [| exact Hwf2].
    rewrite Hs2, Hs1, <- app_assoc. reflexivity.
Qed.

(** ** One nibble *)

(** Whatever the state, a nibble in range finds its table entries, and the
    state that results is in range. *)
Lemma decode_nibble_total (nibble : Z) (a : AdpcmState) (b : PcmBuffer) :
  0 <= nibble <= 15 ->
  exists r, decode_nibble nibble a b = Some r /\ adpcm_in_range (nr_state r).
Proof.
  intros Hn. unfold decode_nibble.
  set (invalid := (adpcm_state a <? 0) || (adpcm_state a >? 15)).
  set (idx := if invalid then 0 else adpcm_state a).
  assert (Hidx : 0 <= idx <= 15) by (subst idx invalid; destruct (_ || _) eqn:E; lia).
  clearbody idx. clearbody invalid.
  destruct (step_table_at_range idx nibble Hidx Hn) as [diff [-> Hdiff]].
  destruct (state_table_at_range nibble Hn) as [delta [-> Hdelta]].
  destruct (add_pcm_sample b _) as [[ok b'] d1].
  eexists. split; [reflexivity |]. unfold adpcm_in_range.
  cbn [nr_state current_sample adpcm_state].
  split.
  - destruct (_ >? 32767) eqn:E1; [| destruct (_ <? -32768) eqn:E2];
      cbv iota; rewrite to_int16_id by lia; lia.
  - destruct (_ <? 0) eqn:E1; [| destruct (_ >? 15) eqn:E2];
      cbv iota; rewrite to_int8_id by lia; lia.
Qed.

(** On a state in range and a buffer with room, [decode_nibble] succeeds,
    appends one sample and is silent on [stderr]. *)
Lemma decode_nibble_ok (nibble : Z) (a : AdpcmState) (b : PcmBuffer) :
  0 <= nibble <= 15 -> adpcm_in_range a -> buffer_wf b -> count b < PCM_LIMIT ->
  exists r, decode_nibble nibble a b = Some r /\ nr_ok r = true /\
            nr_diags r = [] /\ adpcm_in_range (nr_state r) /\
            buffer_wf (nr_buffer r) /\
            count (nr_buffer r) = count b + 1.
Proof.
  intros Hn Ha Hwf Hroom.
  destruct (decode_nibble_total nibble a b Hn) as [r [Hr Hin]].
  exists r. split; [exact Hr |].
  unfold decode_nibble in Hr.
  destruct Ha as [_ Hst].
  assert (Hv : (adpcm_state a <? 0) || (adpcm_state a >? 15) = false) by lia.
  rewrite Hv in Hr.
  destruct (step_table_at _ _) as [diff |]; [| discriminate].
  destruct (state_table_at _) as [delta |]; [| discriminate].
  match type of Hr with context [add_pcm_sample b ?x] =>
    destruct (add_pcm_sample_ok b x Hwf Hroom) as [b' [Hadd [Hs Hwf']]] end.
  rewrite Hadd in Hr. injection Hr as <-.
  cbn [nr_ok nr_state nr_buffer nr_diags app] in *.
  split; [reflexivity |]. split; [reflexivity |]. split; [exact Hin |].
  split; [exact Hwf' |].
  unfold count. rewrite Hs, length_app. cbn [length]. lia.
Qed.

(** ** One pass through the loop *)

Ltac fields :=
  cbn [current_pos adpcm pcm_buffer decoding_ok end_of_message nibble_count
       repeat_count current_repeat_nibble_start current_repeat_nibble_count
       stderr nr_ok nr_state nr_buffer nr_diags] in *.

(** Linear arithmetic with division by a numeral. *)
Ltac div_lia := Z.to_euclidean_division_equations; lia.

Section LoopInvariant.

Variable rom : list byte.
Variable absolute_msg_idx : Z.

Lemma loop_inv_init (pos : Z) :
  0 <= pos <= rom_size rom -> loop_inv rom (init_decode_state pos).
Proof.
  intros Hpos. unfold loop_inv, init_decode_state, adpcm_in_range. fields. simpl.
  repeat split; try lia.
Qed.

(** The repeat logic keeps the invariant and lowers the measure. *)
Lemma handle_repeat_inv (s t : DecodeState) :
  loop_inv rom s -> current_pos s < rom_size rom -> nibble_count s > 0 ->
  current_pos t = current_pos s + 1 ->
  (nibble_count t = nibble_count s - 2 /\ nibble_count t >= 0 \/
   nibble_count t = 0 /\ nibble_count s = 1) ->
  repeat_count t = repeat_count s ->
  current_repeat_nibble_start t = current_repeat_nibble_start s ->
  current_repeat_nibble_count t = current_repeat_nibble_count s ->
  decoding_ok t = true -> adpcm_in_range (adpcm t) ->
  loop_inv rom (handle_repeat t) /\
  loop_measure rom (handle_repeat t) < loop_measure rom s /\
  end_of_message (handle_repeat t) = end_of_message t.
Proof.
  intros (Hpos & Hok & Ha & Hnc & Hrc & Hrep) Hlt Hpend Hp Hn Hr Hst Hcnt Hok' Ha'.
  unfold handle_repeat, loop_inv, loop_measure. unfold adpcm_in_range in *.
  destruct ((repeat_count t >? 0) && (nibble_count t =? 0)) eqn:Hfin.
  - assert (Hrc0 : repeat_count s > 0) by lia.
    destruct (Hrep Hrc0) as (_ & Hs0 & Hc & Heq).
    destruct (repeat_count t - 1 >? 0) eqn:Hmore; fields.
    + assert (Hgt : (repeat_count t - 1 >? 0) = true) by exact Hmore.
      rewrite Hgt.
      assert (Hgs : (repeat_count s >? 0) = true) by lia. rewrite Hgs.
      rewrite Hst, Hcnt, Hr.
      set (h := (current_repeat_nibble_count s + 1) / 2).
      assert (Hh : 0 <= h) by (subst h; apply Z.div_pos; lia).
      assert (Hone : (nibble_count s + 1) / 2 = 1).
      { assert (nibble_count s = 1 \/ nibble_count s = 2) as [-> | ->] by lia;
          reflexivity. }
      rewrite Hone.
      split; [| split; [| reflexivity]].
      * repeat split; try assumption; try lia.
      * fold h. nia.
    + assert (Hgt : (repeat_count t - 1 >? 0) = false) by exact Hmore.
      rewrite Hgt.
      assert (Hgs : (repeat_count s >? 0) = true) by lia. rewrite Hgs.
      split; [| split; [| reflexivity]].
      * repeat split; try assumption; try lia.
      * assert (Hrs : repeat_count s = 1) by lia. rewrite Hrs, Hp.
        assert (Hcase : nibble_count s = 1 \/ nibble_count s = 2) by lia.
        destruct Hcase as [H1 | H2].
        -- rewrite H1 in *. change ((1 + 1) / 2) with 1. div_lia.
        -- rewrite H2 in *. change ((2 + 1) / 2) with 1. div_lia.
  - split; [| split; [| reflexivity]].
    + rewrite Hr, Hst, Hcnt, Hp. repeat split; try assumption; try lia.
      all: intros Hrc0; destruct (Hrep Hrc0) as (_ & Hs0 & Hc & Heq); lia.
    + rewrite Hr, Hst, Hcnt, Hp.
      destruct (repeat_count s >? 0) eqn:Hgs.
      * assert (Hrc0 : repeat_count s > 0) by lia.
        destruct (Hrep Hrc0) as (_ & Hs0 & Hc & Heq).
        assert (Hn2 : nibble_count t = nibble_count s - 2) by lia.
        rewrite Hn2. div_lia.
      * lia.
Qed.


Lemma handle_repeat_safe (t : DecodeState) :
  safe_inv t -> safe_inv (handle_repeat t).
Proof.
  intros (Hp & Hs & Ha). unfold handle_repeat, safe_inv.
  destruct (_ && _); [destruct (_ >? 0) |]; fields; repeat split;
    try apply Ha; lia.
Qed.

(** A pass of the nibble phase reads inside the ROM and the tables. *)
Lemma nibble_phase_safe (s : DecodeState) :
  safe_inv s -> loop_cond rom s = true ->
  flow_safe (nibble_phase rom absolute_msg_idx s).
Proof.
  intros (Hp & Hs & Ha) Hc. unfold loop_cond in Hc.
  assert (Hlt : current_pos s < rom_size rom) by lia.
  unfold nibble_phase.
  assert (Hge : (current_pos s >=? rom_size rom) = false) by lia.
  rewrite Hge.
  destruct (rom_at_in_bounds rom (current_pos s)) as [b [-> Hb]]; [lia |].
  destruct (decode_nibble_total (Z.land (Z.shiftr b 4) 15) (adpcm s) (pcm_buffer s)
              (land_15_range _)) as [r1 [-> Hr1]].
  destruct (nr_ok r1); cbn [negb].
  - destruct (nibble_count s - 1 >? 0).
    + destruct (decode_nibble_total (Z.land b 15) (nr_state r1) (nr_buffer r1)
                  (land_15_range _)) as [r2 [-> Hr2]].
      destruct (nr_ok r2); cbn [negb flow_safe].
      * apply handle_repeat_safe. unfold safe_inv. fields.
        repeat split; try apply Hr2; lia.
      * unfold safe_inv. fields. repeat split; try apply Hr2; lia.
    + cbn [flow_safe]. apply handle_repeat_safe. unfold safe_inv. fields.
      repeat split; try apply Hr1; lia.
  - cbn [flow_safe]. unfold safe_inv. fields. repeat split; try apply Hr1; lia.
Qed.

(** A pass of the command phase reads inside the ROM. *)
Lemma command_phase_safe (s : DecodeState) :
  safe_inv s -> loop_cond rom s = true ->
  flow_safe (command_phase rom absolute_msg_idx s).
Proof.
  intros (Hp & Hs & Ha) Hc. unfold loop_cond in Hc.
  assert (Hlt : current_pos s < rom_size rom) by lia.
  unfold command_phase.
  assert (Hge : (current_pos s >=? rom_size rom) = false) by lia.
  rewrite Hge.
  destruct (rom_at_in_bounds rom (current_pos s)) as [c [-> Hb]]; [lia |].
  destruct (c =? 0).
  { fields. destruct (decoding_ok s); cbn [flow_safe]; unfold safe_inv; fields;
      repeat split; try apply Ha; lia. }
  destruct ((c >=? 1) && (c <=? 63)).
  { destruct (add_silence _ _) as [[ok b'] d]. fields.
    destruct (if ok then decoding_ok s else false); cbn [flow_safe];
      unfold safe_inv; fields; repeat split; try apply Ha; lia. }
  destruct ((c >=? 64) && (c <=? 127)).
  { fields. destruct (decoding_ok s); cbn [flow_safe]; unfold safe_inv; fields;
      repeat split; try apply Ha; lia. }
  destruct ((c >=? 128) && (c <=? 191)).
  { destruct (current_pos s + 1 >=? rom_size rom) eqn:Hn.
    - cbn [flow_safe]. unfold safe_inv. fields. repeat split; try apply Ha; lia.
    - destruct (rom_at_in_bounds rom (current_pos s + 1)) as [n [-> Hnb]]; [lia |].
      fields. destruct (decoding_ok s); cbn [flow_safe]; unfold safe_inv; fields;
        repeat split; try apply Ha; lia. }
  destruct ((c >=? 192) && (c <=? 255)).
  { destruct (current_pos s + 1 >=? rom_size rom) eqn:Hn.
    - cbn [flow_safe]. unfold safe_inv. fields. repeat split; try apply Ha; lia.
    - destruct (rom_at_in_bounds rom (current_pos s + 1)) as [n [-> Hnb]]; [lia |].
      fields.
      assert (0 <= to_uint32 (current_pos s + 1 + 1))
        by (unfold to_uint32; apply Z.mod_pos_bound; lia).
      destruct (decoding_ok s); cbn [flow_safe]; unfold safe_inv; fields;
        repeat split; try apply Ha; lia. }
  cbn [flow_safe]. unfold safe_inv. fields. repeat split; try apply Ha; lia.
Qed.

Lemma loop_body_safe (s : DecodeState) :
  safe_inv s -> loop_cond rom s = true ->
  flow_safe (loop_body rom absolute_msg_idx s).
Proof.
  intros Hs Hc. unfold loop_body.
  destruct (nibble_count s >? 0);
    [apply nibble_phase_safe | apply command_phase_safe]; assumption.
Qed.

End LoopInvariant.

(** ** Termination of the loop on a ROM of less than 4 GiB *)

Section Termination.

Variable rom : list byte.
Variable absolute_msg_idx : Z.
Hypothesis rom_small : rom_size rom < 2 ^ 32.

Lemma nibble_phase_inv (s s' : DecodeState) :
  loop_inv rom s -> loop_cond rom s = true -> nibble_count s > 0 ->
  nibble_phase rom absolute_msg_idx s = Continue s' ->
  loop_inv rom s' /\ loop_measure rom s' < loop_measure rom s /\
  end_of_message s' = end_of_message s.
Proof.
  intros Hinv Hc Hpend. pose proof Hinv as (Hp & Hok & Ha & Hnc & Hrc & Hrep).
  unfold loop_cond in Hc.
  assert (Hlt : current_pos s < rom_size rom) by lia.
  unfold nibble_phase.
  assert (Hge : (current_pos s >=? rom_size rom) = false) by lia.
  rewrite Hge.
  destruct (rom_at_in_bounds rom (current_pos s)) as [b [-> Hb]]; [lia |].
  destruct (decode_nibble_total (Z.land (Z.shiftr b 4) 15) (adpcm s) (pcm_buffer s)
              (land_15_range _)) as [r1 [-> Hr1]].
  destruct (nr_ok r1); cbn [negb]; [| discriminate].
  destruct (nibble_count s - 1 >? 0) eqn:Hsecond.
  - destruct (decode_nibble_total (Z.land b 15) (nr_state r1) (nr_buffer r1)
                (land_15_range _)) as [r2 [-> Hr2]].
    destruct (nr_ok r2); cbn [negb]; [| discriminate].
    intros [= <-].
    match goal with |- context [handle_repeat ?t] =>
      destruct (handle_repeat_inv rom s t) as (H1 & H2 & H3); fields;
        try assumption; try reflexivity; try lia end.
    auto.
  - intros [= <-].
    match goal with |- context [handle_repeat ?t] =>
      destruct (handle_repeat_inv rom s t) as (H1 & H2 & H3); fields;
        try assumption; try reflexivity; try lia end.
    auto.
Qed.

Lemma command_phase_inv (s s' : DecodeState) :
  loop_inv rom s -> loop_cond rom s = true -> nibble_count s = 0 ->
  command_phase rom absolute_msg_idx s = Continue s' ->
  loop_inv rom s' /\ loop_measure rom s' < loop_measure rom s.
Proof.
  intros (Hp & Hok & Ha & Hnc & Hrc & Hrep) Hc Hcmd. unfold loop_cond in Hc.
  unfold adpcm_in_range in Ha.
  assert (Hlt : current_pos s < rom_size rom) by lia.
  assert (Hrc0 : repeat_count s = 0).
  { destruct (Z.eq_dec (repeat_count s) 0) as [E | E]; [exact E |].
    assert (Hpos : repeat_count s > 0) by lia. destruct (Hrep Hpos). lia. }
  assert (Hm : loop_measure rom s = 7 * (rom_size rom - current_pos s) + 1024).
  { unfold loop_measure. rewrite Hrc0. reflexivity. }
  rewrite Hm. clear Hm.
  unfold command_phase.
  assert (Hge : (current_pos s >=? rom_size rom) = false) by lia.
  rewrite Hge.
  destruct (rom_at_in_bounds rom (current_pos s)) as [c [-> Hb]]; [lia |].
  rewrite Hok.
  destruct (c =? 0).
  { fields. intros [= <-]. unfold loop_inv, loop_measure. fields.
    rewrite Hrc0. cbn [Z.gtb Z.compare]. repeat split; try assumption; lia. }
  destruct ((c >=? 1) && (c <=? 63)).
  { destruct (add_silence _ _) as [[ok b'] d]. fields.
    destruct ok; [| discriminate].
    intros [= <-]. unfold loop_inv, loop_measure. fields.
    rewrite Hrc0. cbn [Z.gtb Z.compare]. repeat split; try assumption; lia. }
  destruct ((c >=? 64) && (c <=? 127)).
  { fields. intros [= <-]. unfold loop_inv, loop_measure. fields.
    cbn [Z.gtb Z.compare]. repeat split; try assumption; lia. }
  destruct ((c >=? 128) && (c <=? 191)).
  { destruct (current_pos s + 1 >=? rom_size rom) eqn:Hn; [discriminate |].
    destruct (rom_at_in_bounds rom (current_pos s + 1)) as [n [-> Hnb]]; [lia |].
    fields. intros [= <-]. unfold loop_inv, loop_measure. fields.
    rewrite (to_uint32_id (n + 1)) by lia.
    cbn [Z.gtb Z.compare]. repeat split; try assumption; lia. }
  destruct ((c >=? 192) && (c <=? 255)); [| discriminate].
  destruct (current_pos s + 1 >=? rom_size rom) eqn:Hn; [discriminate |].
  destruct (rom_at_in_bounds rom (current_pos s + 1)) as [n [-> Hnb]]; [lia |].
  fields. intros [= <-]. unfold loop_inv, loop_measure. fields.
  rewrite (to_uint32_id (n + 1)) by lia.
  rewrite (to_uint32_id (current_pos s + 1 + 1)) by lia.
  pose proof (land_7_range (Z.shiftr c 3)) as Hr.
  set (r := Z.land (Z.shiftr c 3) 7) in *.
  split.
  - repeat split; try assumption; try lia.
  - destruct (r >? 0) eqn:Hr0; [| lia].
    assert (Hh : 1 <= (n + 1 + 1) / 2) by div_lia.
    set (h := (n + 1 + 1) / 2) in *. nia.
Qed.

Lemma loop_body_inv (s s' : DecodeState) :
  loop_inv rom s -> loop_cond rom s = true ->
  loop_body rom absolute_msg_idx s = Continue s' ->
  loop_inv rom s' /\ loop_measure rom s' < loop_measure rom s.
Proof.
  intros Hinv Hc. unfold loop_body.
  destruct (nibble_count s >? 0) eqn:Hn; intros Hb.
  - destruct (nibble_phase_inv s s' Hinv Hc) as (H1 & H2 & _);
      [lia | exact Hb | auto].
  - apply command_phase_inv; try assumption.
    destruct Hinv as (_ & _ & _ & Hnc & _). lia.
Qed.

(** While the loop runs, the measure is positive. *)
Lemma loop_measure_pos (s : DecodeState) :
  loop_inv rom s -> loop_cond rom s = true -> 0 < loop_measure rom s.
Proof.
  intros (Hp & Hok & Ha & Hnc & Hrc & Hrep) Hc. unfold loop_cond in Hc.
  unfold loop_measure. destruct (repeat_count s >? 0) eqn:Hr; [| lia].
  assert (Hpos : repeat_count s > 0) by lia.
  destruct (Hrep Hpos) as (Hn & Hs & Hcnt & Heq).
  assert (Hh : 0 <= (current_repeat_nibble_count s + 1) / 2 <= 128) by div_lia.
  assert (Hn2 : 0 <= (nibble_count s + 1) / 2) by div_lia.
  set (h := (current_repeat_nibble_count s + 1) / 2) in *.
  set (m := (nibble_count s + 1) / 2) in *. nia.
Qed.

(** With fuel above the measure the loop comes to an end. *)
Lemma decode_loop_fuel (fuel : nat) (s : DecodeState) :
  loop_inv rom s -> safe_inv s -> loop_measure rom s <= Z.of_nat fuel ->
  exists s', decode_loop rom absolute_msg_idx fuel s = Finished s'.
Proof.
  revert s. induction fuel as [| fuel IH]; intros s Hinv Hsafe Hm.
  - cbn [decode_loop]. destruct (loop_cond rom s) eqn:Hc.
    + pose proof (loop_measure_pos s Hinv Hc). lia.
    + eauto.
  - cbn [decode_loop]. destruct (loop_cond rom s) eqn:Hc; [| eauto].
    pose proof (loop_body_safe rom absolute_msg_idx s Hsafe Hc) as Hflow.
    destruct (loop_body rom absolute_msg_idx s) as [s1 | s1 |] eqn:Hb.
    + destruct (loop_body_inv s s1 Hinv Hc Hb) as [Hinv1 Hlt].
      apply IH; [exact Hinv1 | exact Hflow | lia].
    + eauto.
    + destruct Hflow.
Qed.

(** The fuel [process_message] hands to the loop is enough. *)
Lemma decode_fuel_enough (pos : Z) :
  0 <= pos <= rom_size rom ->
  exists s', decode_loop rom absolute_msg_idx (decode_fuel rom)
               (init_decode_state pos) = Finished s'.
Proof.
  intros Hpos. apply decode_loop_fuel.
  - apply loop_inv_init. exact Hpos.
  - unfold safe_inv, init_decode_state, adpcm_in_range. fields. simpl. lia.
  - unfold loop_measure, init_decode_state, decode_fuel, rom_size in *. fields.
    cbn [Z.gtb Z.compare]. lia.
Qed.

End Termination.

(** ** Runs of the loop *)

Section Runs.

Variable rom : list byte.
Variable absolute_msg_idx : Z.

Lemma loop_steps_app (j k : nat) (s s' s'' : DecodeState) :
  loop_steps rom absolute_msg_idx j s s' ->
  loop_steps rom absolute_msg_idx k s' s'' ->
  loop_steps rom absolute_msg_idx (j + k) s s''.
Proof.
  induction 1 as [s | j s s1 s2 Hc Hb _ IH]; intros Hk.
  - exact Hk.
  - cbn [Nat.add]. eapply loop_steps_S; eauto.
Qed.

(** The loop passes through every state [loop_steps] relates to its
    start. *)
Lemma decode_loop_steps (k : nat) (s s' : DecodeState) :
  loop_steps rom absolute_msg_idx k s s' ->
  forall fuel,
    decode_loop rom absolute_msg_idx (k + fuel) s
    = decode_loop rom absolute_msg_idx fuel s'.
Proof.
  induction 1 as [s | k s s1 s2 Hc Hb _ IH]; intros fuel.
  - reflexivity.
  - cbn [Nat.add decode_loop]. rewrite Hc, Hb. apply IH.
Qed.

Lemma decode_loop_through (k : nat) (s s' : DecodeState) :
  loop_steps rom absolute_msg_idx k s s' ->
  forall fuel r,
    decode_loop rom absolute_msg_idx fuel s = Finished r ->
    exists fuel', decode_loop rom absolute_msg_idx fuel' s' = Finished r.
Proof.
  induction 1 as [s | k s s1 s2 Hc Hb _ IH]; intros fuel r Hrun.
  - eauto.
  - destruct fuel as [| fuel]; cbn [decode_loop] in Hrun; rewrite Hc in Hrun;
      [discriminate |].
    rewrite Hb in Hrun. eapply IH; eauto.
Qed.

Lemma loop_steps_safe (k : nat) (s s' : DecodeState) :
  loop_steps rom absolute_msg_idx k s s' -> safe_inv s -> safe_inv s'.
Proof.
  induction 1 as [s | k s s1 s2 Hc Hb _ IH]; intros Hs; [exact Hs |].
  apply IH. pose proof (loop_body_safe rom absolute_msg_idx s Hs Hc) as Hf.
  rewrite Hb in Hf. exact Hf.
Qed.

Lemma loop_steps_inv (k : nat) (s s' : DecodeState) :
  rom_size rom < 2 ^ 32 ->
  loop_steps rom absolute_msg_idx k s s' -> loop_inv rom s -> loop_inv rom s'.
Proof.
  intros Hsmall. induction 1 as [s | k s s1 s2 Hc Hb _ IH]; intros Hs; [exact Hs |].
  apply IH. eapply loop_body_inv; eauto.
Qed.

Lemma safe_inv_init (pos : Z) : 0 <= pos -> safe_inv (init_decode_state pos).
Proof.
  intros Hpos. unfold safe_inv, init_decode_state, adpcm_in_range. fields.
  simpl. lia.
Qed.

(** The loop never reads outside of the ROM or of the tables. *)
Lemma decode_loop_safe (fuel : nat) (s : DecodeState) :
  safe_inv s ->
  match decode_loop rom absolute_msg_idx fuel s with
  | Finished s' => safe_inv s'
  | UndefinedBehaviour => False
  | OutOfFuel => True
  end.
Proof.
  revert s. induction fuel as [| fuel IH]; intros s Hs; cbn [decode_loop];
    destruct (loop_cond rom s) eqn:Hc; try exact Hs; try exact I.
  pose proof (loop_body_safe rom absolute_msg_idx s Hs Hc) as Hf.
  destruct (loop_body rom absolute_msg_idx s) as [s1 | s1 |]; cbn [flow_safe] in Hf.
  - apply IH. exact Hf.
  - exact Hf.
  - exact Hf.
Qed.

End Runs.

(** ** The range invariant of the codec *)

(** C4: for every ROM, the codec state of every state the loop passes
    through or ends in has [current_sample] in [-32768, 32767] and the step
    index in [0, 15]; the loop never ends in undefined behaviour, which is
    where an access to [step_table] or [state_table] outside of
    [0,15]x[0,15] would lead; and every single [decode_nibble] call on a
    nibble finds its table entries and leaves the state in range. *)
Theorem adpcm_state_stays_in_range (rom : list byte) (absolute_msg_idx pos : Z) :
  0 <= pos ->
  (forall k s,
      loop_steps rom absolute_msg_idx k (init_decode_state pos) s ->
      adpcm_in_range (adpcm s)) /\
  (forall fuel,
      match decode_loop rom absolute_msg_idx fuel (init_decode_state pos) with
      | Finished s => adpcm_in_range (adpcm s)
      | UndefinedBehaviour => False
      | OutOfFuel => True
      end) /\
  (forall data_byte a b,
      (exists r, decode_nibble (Z.land (Z.shiftr data_byte 4) 15) a b = Some r /\
                 adpcm_in_range (nr_state r)) /\
      (exists r, decode_nibble (Z.land data_byte 15) a b = Some r /\
                 adpcm_in_range (nr_state r))).
Proof.
  intros Hpos. pose proof (safe_inv_init pos Hpos) as Hinit.
  split; [| split].
  - intros k s Hsteps.
    apply (loop_steps_safe rom absolute_msg_idx k _ s Hsteps Hinit).
  - intros fuel.
    pose proof (decode_loop_safe rom absolute_msg_idx fuel _ Hinit) as H.
    destruct (decode_loop rom absolute_msg_idx fuel (init_decode_state pos));
      [apply H | exact H | exact I].
  - intros data_byte a b. split; apply decode_nibble_total; apply land_15_range.
Qed.

Lemma adpcm_state_stays_in_range_witness :
  match decode_loop [x80; x06; x77; x77; x77; x80; x00] 0 100 (init_decode_state 0) with
  | Finished s => adpcm_in_range (adpcm s)
  | UndefinedBehaviour => False
  | OutOfFuel => True
  end.
Proof.
  assert (Hpos : 0 <= 0) by lia.
  exact (proj1 (proj2 (adpcm_state_stays_in_range
                         [x80; x06; x77; x77; x77; x80; x00] 0 0 Hpos)) 100%nat).
Defined.

(** ** Silence *)

(** C7: a silence command [c] in 0x01..0x3F appends exactly [8 * c] samples
    of value 0 and leaves [current_sample] and the step index as they
    were; the pass ends in the command state, one byte further. *)
Theorem silence_appends_zero_samples
    (rom : list byte) (absolute_msg_idx : Z) (s : DecodeState) (c : Z) :
  nibble_count s = 0 -> decoding_ok s = true ->
  rom_at rom (current_pos s) = Some c -> 1 <= c <= 63 ->
  buffer_wf (pcm_buffer s) -> count (pcm_buffer s) + 8 * c <= PCM_LIMIT ->
  exists s',
    loop_body rom absolute_msg_idx s = Continue s' /\
    samples (pcm_buffer s') = samples (pcm_buffer s) ++ repeat 0 (Z.to_nat (8 * c)) /\
    count (pcm_buffer s') = count (pcm_buffer s) + 8 * c /\
    adpcm s' = adpcm s /\
    current_pos s' = current_pos s + 1 /\
    nibble_count s' = 0.
Proof.
  intros Hn Hok Hrom Hc Hwf Hroom.
  destruct (rom_at_some_bounds rom _ _ Hrom) as [Hpos _].
  unfold loop_body. rewrite Hn. cbn [Z.gtb Z.compare].
  unfold command_phase. rewrite Hrom.
  assert (Hge : (current_pos s >=? rom_size rom) = false) by lia. rewrite Hge.
  assert (H0 : (c =? 0) = false) by lia. rewrite H0.
  assert (H1 : (c >=? 1) && (c <=? 63) = true) by lia. rewrite H1.
  assert (Hu : to_uint32 (c * 8) = 8 * c)
    by (rewrite to_uint32_id; [lia | change (2 ^ 32) with 4294967296; lia]).
  rewrite Hu.
  destruct (add_silence_ok (Z.to_nat (8 * c)) (pcm_buffer s) Hwf)
    as [b' [Hsil [Hs' Hwf']]]; [lia |].
  rewrite Hsil. fields. rewrite Hok.
  eexists. split; [reflexivity |]. fields.
  repeat split; try assumption; try reflexivity.
  unfold count. rewrite Hs', length_app, repeat_length. lia.
Qed.

Lemma silence_appends_zero_samples_witness :
  exists s',
    loop_body [x02; x00] 0 (init_decode_state 0) = Continue s' /\
    samples (pcm_buffer s') = [] ++ repeat 0 (Z.to_nat (8 * 2)) /\
    count (pcm_buffer s') = 0 + 8 * 2 /\
    adpcm s' = mkAdpcmState 0 0 /\
    current_pos s' = 0 + 1 /\
    nibble_count s' = 0.
Proof.
  apply (silence_appends_zero_samples [x02; x00] 0 (init_decode_state 0) 2).
  - reflexivity.
  - reflexivity.
  - reflexivity.
  - lia.
  - apply buffer_wf_init.
  - vm_compute. discriminate.
Defined.

(** ** Data blocks *)

Section Blocks.

Variable rom : list byte.
Variable absolute_msg_idx : Z.

(** One pass of the nibble phase on a state in range and a buffer with
    room, at least two nibbles pending: both nibbles of the byte are
    decoded. *)
Lemma nibble_phase_two (s : DecodeState) (b : Z) :
  rom_at rom (current_pos s) = Some b -> nibble_count s >= 2 ->
  decoding_ok s = true ->
  adpcm_in_range (adpcm s) -> buffer_wf (pcm_buffer s) ->
  count (pcm_buffer s) + 2 <= PCM_LIMIT ->
  exists a' b',
    decode_nibbles (nibbles_of_byte b) (adpcm s) (pcm_buffer s) = Some (a', b') /\
    adpcm_in_range a' /\ buffer_wf b' /\ count b' = count (pcm_buffer s) + 2 /\
    nibble_phase rom absolute_msg_idx s =
      Continue (handle_repeat
        (mkDecodeState (current_pos s + 1) a' b' true (end_of_message s)
           (nibble_count s - 2) (repeat_count s)
           (current_repeat_nibble_start s) (current_repeat_nibble_count s)
           (stderr s))).
Proof.
  intros Hrom Hn Hok Ha Hwf Hroom.
  destruct (rom_at_some_bounds rom _ _ Hrom) as [Hpos _].
  destruct (decode_nibble_ok (Z.land (Z.shiftr b 4) 15) (adpcm s) (pcm_buffer s)
              (land_15_range _) Ha Hwf) as (r1 & Hd1 & Hok1 & Hdg1 & Ha1 & Hwf1 & Hc1);
    [lia |].
  destruct (decode_nibble_ok (Z.land b 15) (nr_state r1) (nr_buffer r1)
              (land_15_range _) Ha1 Hwf1) as (r2 & Hd2 & Hok2 & Hdg2 & Ha2 & Hwf2 & Hc2);
    [lia |].
  exists (nr_state r2), (nr_buffer r2).
  split; [| split; [exact Ha2 | split; [exact Hwf2 | split; [lia |]]]].
  - unfold nibbles_of_byte. cbn [decode_nibbles].
    rewrite Hd1, Hok1, Hd2, Hok2. reflexivity.
  - unfold nibble_phase. rewrite Hrom.
    assert (Hge : (current_pos s >=? rom_size rom) = false) by lia. rewrite Hge.
    rewrite Hd1, Hok1. cbn [negb].
    assert (Hsec : (nibble_count s - 1 >? 0) = true) by lia. rewrite Hsec.
    rewrite Hd2, Hok2. cbn [negb]. rewrite Hdg1, Hdg2, Hok.
    cbn [app]. rewrite app_nil_r.
    replace (nibble_count s - 1 - 1) with (nibble_count s - 2) by lia.
    reflexivity.
Qed.

(** The same with one nibble pending: only the high nibble is decoded. *)
Lemma nibble_phase_one (s : DecodeState) (b : Z) :
  rom_at rom (current_pos s) = Some b -> nibble_count s = 1 ->
  decoding_ok s = true ->
  adpcm_in_range (adpcm s) -> buffer_wf (pcm_buffer s) ->
  count (pcm_buffer s) + 1 <= PCM_LIMIT ->
  exists a' b',
    decode_nibbles [Z.land (Z.shiftr b 4) 15] (adpcm s) (pcm_buffer s)
      = Some (a', b') /\
    adpcm_in_range a' /\ buffer_wf b' /\ count b' = count (pcm_buffer s) + 1 /\
    nibble_phase rom absolute_msg_idx s =
      Continue (handle_repeat
        (mkDecodeState (current_pos s + 1) a' b' true (end_of_message s)
           0 (repeat_count s)
           (current_repeat_nibble_start s) (current_repeat_nibble_count s)
           (stderr s))).
Proof.
  intros Hrom Hn Hok Ha Hwf Hroom.
  destruct (rom_at_some_bounds rom _ _ Hrom) as [Hpos _].
  destruct (decode_nibble_ok (Z.land (Z.shiftr b 4) 15) (adpcm s) (pcm_buffer s)
              (land_15_range _) Ha Hwf) as (r1 & Hd1 & Hok1 & Hdg1 & Ha1 & Hwf1 & Hc1);
    [lia |].
  exists (nr_state r1), (nr_buffer r1).
  split; [| split; [exact Ha1 | split; [exact Hwf1 | split; [lia |]]]].
  - cbn [decode_nibbles]. rewrite Hd1, Hok1. reflexivity.
  - unfold nibble_phase. rewrite Hrom.
    assert (Hge : (current_pos s >=? rom_size rom) = false) by lia. rewrite Hge.
    rewrite Hd1, Hok1. cbn [negb]. rewrite Hn. cbn [Z.sub Z.add Z.opp Z.pos_sub Z.gtb Z.compare].
    rewrite Hdg1, Hok, app_nil_r. reflexivity.
Qed.

Lemma decode_nibbles_app (l1 l2 : list Z) (a a1 : AdpcmState) (b b1 : PcmBuffer) :
  decode_nibbles l1 a b = Some (a1, b1) ->
  decode_nibbles (l1 ++ l2) a b = decode_nibbles l2 a1 b1.
Proof.
  revert a b. induction l1 as [| x l1 IH]; intros a b H; cbn [decode_nibbles app] in *.
  - injection H as <- <-. reflexivity.
  - destruct (decode_nibble x a b) as [r |]; [| discriminate].
    destruct (nr_ok r); [| discriminate]. apply IH. exact H.
Qed.

(** One play of a pending block of [nibble_count s] nibbles, stored in
    [k] bytes that lie inside the ROM: [k] passes decode exactly these
    nibbles, and the repeat logic runs at the end of the last pass. *)
Lemma play_block (k : nat) :
  forall s : DecodeState,
    nibble_count s > 0 -> Z.of_nat k = (nibble_count s + 1) / 2 ->
    end_of_message s = false -> decoding_ok s = true ->
    0 <= current_pos s -> current_pos s + Z.of_nat k <= rom_size rom ->
    adpcm_in_range (adpcm s) -> buffer_wf (pcm_buffer s) ->
    count (pcm_buffer s) + nibble_count s <= PCM_LIMIT ->
    exists a' b',
      decode_nibbles
        (firstn (Z.to_nat (nibble_count s)) (rom_nibbles rom (current_pos s) k))
        (adpcm s) (pcm_buffer s) = Some (a', b') /\
      adpcm_in_range a' /\ buffer_wf b' /\
      count b' = count (pcm_buffer s) + nibble_count s /\
      loop_steps rom absolute_msg_idx k s
        (handle_repeat
           (mkDecodeState (current_pos s + Z.of_nat k) a' b' true false
              0 (repeat_count s)
              (current_repeat_nibble_start s) (current_repeat_nibble_count s)
              (stderr s))).
Proof.
  induction k as [| k IH]; intros s Hn Hk Heom Hok Hpos Hend Ha Hwf Hroom.
  - exfalso. revert Hk. div_lia.
  - destruct (rom_at_in_bounds rom (current_pos s)) as [b [Hrom _]]; [lia |].
    assert (Hcond : loop_cond rom s = true) by (unfold loop_cond; rewrite Heom; lia).
    assert (Hbody : loop_body rom absolute_msg_idx s = nibble_phase rom absolute_msg_idx s).
    { unfold loop_body. assert (H : (nibble_count s >? 0) = true) by lia.
      rewrite H. reflexivity. }
    cbn [rom_nibbles]. rewrite Hrom.
    destruct (Z.eq_dec (nibble_count s) 1) as [H1 | H1].
    + (* the last byte carries one nibble *)
      assert (k = O) by (revert Hk; rewrite H1; div_lia). subst k.
      destruct (nibble_phase_one s b Hrom H1 Hok Ha Hwf) as (a' & b' & Hd & Ha' & Hwf' & Hc & Hstep);
        [lia |].
      exists a', b'. rewrite H1. cbn [Z.to_nat Pos.to_nat Pos.iter_op Nat.add].
      unfold nibbles_of_byte. cbn [rom_nibbles app firstn].
      split; [exact Hd |]. split; [exact Ha' |]. split; [exact Hwf' |].
      split; [lia |].
      eapply loop_steps_S; [exact Hcond | rewrite Hbody, Hstep, Heom; reflexivity |].
      replace (current_pos s + Z.of_nat 1) with (current_pos s + 1) by lia.
      apply loop_steps_O.
    + destruct (nibble_phase_two s b Hrom) as (a1 & b1 & Hd & Ha1 & Hwf1 & Hc1 & Hstep);
        try assumption; try lia.
      replace (Z.to_nat (nibble_count s))
        with (S (S (Z.to_nat (nibble_count s - 2)))) by lia.
      unfold nibbles_of_byte in *. cbn [app firstn].
      change (?x :: ?y :: ?l) with ([x; y] ++ l).
      rewrite (decode_nibbles_app _ _ _ _ _ _ Hd).
      set (t := mkDecodeState (current_pos s + 1) a1 b1 true (end_of_message s)
                  (nibble_count s - 2) (repeat_count s)
                  (current_repeat_nibble_start s) (current_repeat_nibble_count s)
                  (stderr s)) in *.
      destruct (Z.eq_dec (nibble_count s) 2) as [H2 | H2].
      * (* the last byte carries two nibbles *)
        assert (k = O) by (revert Hk; rewrite H2; div_lia). subst k.
        exists a1, b1. rewrite H2. cbn [Z.sub Z.add Z.opp Z.pos_sub Z.to_nat firstn decode_nibbles].
        split; [reflexivity |]. split; [exact Ha1 |]. split; [exact Hwf1 |].
        split; [lia |].
        eapply loop_steps_S; [exact Hcond | rewrite Hbody; exact Hstep |].
        subst t. rewrite H2, Heom.
        replace (current_pos s + Z.of_nat 1) with (current_pos s + 1) by lia.
        apply loop_steps_O.
      * (* more bytes follow: the repeat logic does not fire *)
        assert (Hrep : handle_repeat t = t).
        { unfold handle_repeat. subst t. fields.
          assert (H : (repeat_count s >? 0) && (nibble_count s - 2 =? 0) = false) by lia.
          rewrite H. reflexivity. }
        rewrite Hrep in Hstep.
        destruct (IH t) as (a' & b' & Hd' & Ha' & Hwf' & Hc' & Hsteps);
          subst t; fields; try assumption; try lia.
        { revert Hk. div_lia. }
        exists a', b'.
        split; [exact Hd' |]. split; [exact Ha' |]. split; [exact Hwf' |].
        split; [lia |].
        eapply loop_steps_S; [exact Hcond | rewrite Hbody; exact Hstep |].
        replace (current_pos s + Z.of_nat (S k)) with (current_pos s + 1 + Z.of_nat k) by lia.
        exact Hsteps.
Qed.

End Blocks.

Lemma rom_nibbles_length (rom : list byte) (k : nat) (pos : Z) :
  0 <= pos -> pos + Z.of_nat k <= rom_size rom ->
  length (rom_nibbles rom pos k) = (2 * k)%nat.
Proof.
  revert pos. induction k as [| k IH]; intros pos Hpos Hend; [reflexivity |].
  cbn [rom_nibbles].
  destruct (rom_at_in_bounds rom pos) as [b [-> _]]; [lia |].
  unfold nibbles_of_byte. cbn [app length]. rewrite IH by lia. lia.
Qed.

(** The nibbles of [k + 1] bytes end with the two nibbles of the last
    byte. *)
Lemma rom_nibbles_last (rom : list byte) (k : nat) (pos : Z) :
  0 <= pos -> pos + Z.of_nat (S k) <= rom_size rom ->
  exists last,
    rom_at rom (pos + Z.of_nat k) = Some last /\
    rom_nibbles rom pos (S k) = rom_nibbles rom pos k ++ nibbles_of_byte last.
Proof.
  revert pos. induction k as [| k IH]; intros pos Hpos Hend.
  - destruct (rom_at_in_bounds rom pos) as [b [Hb _]]; [lia |].
    exists b. replace (pos + Z.of_nat 0) with pos by lia.
    cbn [rom_nibbles]. rewrite Hb, app_nil_r. auto.
  - destruct (rom_at_in_bounds rom pos) as [b [Hb _]]; [lia |].
    destruct (IH (pos + 1)) as [last [Hlast Heq]]; [lia | lia |].
    exists last. split.
    + replace (pos + Z.of_nat (S k)) with (pos + 1 + Z.of_nat k) by lia. exact Hlast.
    + change (rom_nibbles rom pos (S (S k)))
        with (match rom_at rom pos with
              | Some b => nibbles_of_byte b ++ rom_nibbles rom (pos + 1) (S k)
              | None => []
              end).
      rewrite Hb, Heq. cbn [rom_nibbles]. rewrite Hb, app_assoc. reflexivity.
Qed.

Lemma decode_nibbles_samples (l : list Z) :
  forall a b a' b',
    decode_nibbles l a b = Some (a', b') ->
    exists new, samples b' = samples b ++ new /\ length new = length l.
Proof.
  induction l as [| x l IH]; intros a b a' b' H; cbn [decode_nibbles] in H.
  - injection H as <- <-. exists []. rewrite app_nil_r. auto.
  - destruct (decode_nibble x a b) as [r |] eqn:Hd; [| discriminate].
    destruct (nr_ok r) eqn:Hok; [| discriminate].
    destruct (IH _ _ _ _ H) as [new [Hs Hl]].
    unfold decode_nibble in Hd.
    destruct (step_table_at _ _); [| discriminate].
    destruct (state_table_at _); [| discriminate].
    destruct (add_pcm_sample b _) as [[ok b1] d1] eqn:Hadd.
    injection Hd as <-. fields.
    destruct (add_pcm_sample_samples _ _ _ _ _ Hadd) as [(_ & Hs1 & _) | (Hf & _)];
      [| congruence].
    eexists (_ :: new). rewrite Hs, Hs1, <- app_assoc. cbn [app length].
    split; [reflexivity | lia].
Qed.

(** ** Long blocks *)

(** C6: a long-block command [c] in 0x80..0xBF followed by the length byte
    [n] and by [(n + 2) / 2] data bytes, that is the ceiling of
    [(n + 1) / 2]: after the command pass and one pass per data byte the
    loop is back in the command state just behind the data, it has
    decoded exactly the first [n + 1] nibbles of these bytes and appended
    exactly [n + 1] samples; when [n + 1] is odd the one nibble that is
    not decoded is the low nibble of the last data byte. *)
Theorem long_block_decodes_n_plus_1
    (rom : list byte) (absolute_msg_idx : Z) (s : DecodeState) (c n : Z) :
  let data_bytes := Z.to_nat ((n + 2) / 2) in
  let data_start := current_pos s + 2 in
  nibble_count s = 0 -> end_of_message s = false -> decoding_ok s = true ->
  rom_at rom (current_pos s) = Some c -> 128 <= c <= 191 ->
  rom_at rom (current_pos s + 1) = Some n ->
  data_start + Z.of_nat data_bytes <= rom_size rom ->
  adpcm_in_range (adpcm s) -> buffer_wf (pcm_buffer s) ->
  count (pcm_buffer s) + (n + 1) <= PCM_LIMIT ->
  exists s' new,
    loop_steps rom absolute_msg_idx (S data_bytes) s s' /\
    current_pos s' = data_start + Z.of_nat data_bytes /\
    nibble_count s' = 0 /\ end_of_message s' = false /\ decoding_ok s' = true /\
    decode_nibbles
      (firstn (Z.to_nat (n + 1)) (rom_nibbles rom data_start data_bytes))
      (adpcm s) (pcm_buffer s) = Some (adpcm s', pcm_buffer s') /\
    samples (pcm_buffer s') = samples (pcm_buffer s) ++ new /\
    Z.of_nat (length new) = n + 1 /\
    (Z.odd (n + 1) = true ->
     exists last,
       rom_at rom (data_start + Z.of_nat data_bytes - 1) = Some last /\
       rom_nibbles rom data_start data_bytes
       = firstn (Z.to_nat (n + 1)) (rom_nibbles rom data_start data_bytes)
         ++ [Z.land last 15]).
Proof.
  intros data_bytes data_start Hn Heom Hok Hc Hrange Hnb Hend Ha Hwf Hroom.
  destruct (rom_at_some_bounds rom _ _ Hc) as [Hpos _].
  destruct (rom_at_some_bounds rom _ _ Hnb) as [Hpos1 Hnr].
  assert (Hk : Z.of_nat data_bytes = (n + 1 + 1) / 2)
    by (subst data_bytes; replace (n + 1 + 1) with (n + 2) by lia; div_lia).
  (* the command pass *)
  set (t := mkDecodeState (current_pos s + 1 + 1) (adpcm s) (pcm_buffer s)
              true false (n + 1) 0
              (current_repeat_nibble_start s) (current_repeat_nibble_count s)
              (stderr s)).
  assert (Hcmd : loop_body rom absolute_msg_idx s = Continue t).
  { unfold loop_body. rewrite Hn. cbn [Z.gtb Z.compare].
    unfold command_phase. rewrite Hc.
    assert (Hge : (current_pos s >=? rom_size rom) = false) by lia. rewrite Hge.
    assert (H0 : (c =? 0) = false) by lia. rewrite H0.
    assert (H1 : (c >=? 1) && (c <=? 63) = false) by lia. rewrite H1.
    assert (H2 : (c >=? 64) && (c <=? 127) = false) by lia. rewrite H2.
    assert (H3 : (c >=? 128) && (c <=? 191) = true) by lia. rewrite H3.
    assert (Hge1 : (current_pos s + 1 >=? rom_size rom) = false) by lia. rewrite Hge1.
    rewrite Hnb. fields. rewrite Hok, Heom.
    rewrite to_uint32_id by (change (2 ^ 32) with 4294967296; lia).
    reflexivity. }
  assert (Hcond : loop_cond rom s = true) by (unfold loop_cond; rewrite Heom; lia).
  (* the data passes *)
  destruct (play_block rom absolute_msg_idx data_bytes t)
    as (a' & b' & Hd & Ha' & Hwf' & Hcnt & Hsteps);
    subst t; fields; try assumption; try reflexivity; try lia.
  replace (current_pos s + 1 + 1) with data_start in * by (subst data_start; lia).
  match type of Hsteps with loop_steps _ _ _ _ (handle_repeat ?u) =>
    assert (Hrep : handle_repeat u = u) by reflexivity; rewrite Hrep in Hsteps end.
  destruct (decode_nibbles_samples _ _ _ _ _ Hd) as [new [Hnew Hlen]].
  eexists. exists new.
  split; [eapply loop_steps_S; [exact Hcond | exact Hcmd | exact Hsteps] |].
  fields.
  split; [reflexivity |]. split; [reflexivity |]. split; [reflexivity |].
  split; [reflexivity |]. split; [exact Hd |]. split; [exact Hnew |].
  split.
  - unfold count in Hcnt. rewrite Hnew, length_app in Hcnt. lia.
  - intros Hodd.
    assert (Hn2 : n + 1 = 2 * (Z.of_nat data_bytes - 1) + 1).
    { rewrite Z.odd_spec in Hodd. destruct Hodd as [m Hm]. revert Hk. rewrite Hm. div_lia. }
    destruct data_bytes as [| k]; [lia |].
    destruct (rom_nibbles_last rom k data_start) as [last [Hlast Heq]];
      [subst data_start; lia | lia |].
    exists last. split.
    + replace (data_start + Z.of_nat (S k) - 1) with (data_start + Z.of_nat k) by lia.
      exact Hlast.
    + rewrite Heq. unfold nibbles_of_byte.
      assert (Hl : length (rom_nibbles rom data_start k) = (2 * k)%nat)
        by (apply rom_nibbles_length; subst data_start; lia).
      replace (Z.to_nat (n + 1)) with (length (rom_nibbles rom data_start k) + 1)%nat by lia.
      rewrite firstn_app_2. cbn [firstn]. rewrite <- app_assoc. reflexivity.
Qed.

Lemma long_block_decodes_n_plus_1_witness :
  exists s' new,
    loop_steps [x80; x02; x77; x70; x00] 0 3 (init_decode_state 0) s' /\
    current_pos s' = 4 /\
    samples (pcm_buffer s') = [] ++ new /\
    Z.of_nat (length new) = 3.
Proof.
  destruct (long_block_decodes_n_plus_1 [x80; x02; x77; x70; x00] 0
              (init_decode_state 0) 128 2)
    as (s' & new & H1 & H2 & _ & _ & _ & _ & H3 & H4 & _).
  - reflexivity.
  - reflexivity.
  - reflexivity.
  - reflexivity.
  - lia.
  - reflexivity.
  - vm_compute. discriminate.
  - unfold adpcm_in_range. simpl. lia.
  - apply buffer_wf_init.
  - vm_compute. discriminate.
  - exists s', new. auto.
Defined.

(** ** The diagnostics of the loop *)

Lemma add_silence_diags (n : nat) :
  forall b ok b' d,
    add_silence n b = (ok, b', d) -> forall x, In x d -> x = ErrPcmCapacity.
Proof.
  induction n as [| n IH]; intros b ok b' d H x Hx; cbn [add_silence] in H.
  - injection H as <- <- <-. destruct Hx.
  - destruct (add_pcm_sample b 0) as [[ok1 b1] d1] eqn:Hadd.
    destruct (add_pcm_sample_samples _ _ _ _ _ Hadd) as [(-> & _ & ->) | (-> & _ & ->)].
    + destruct (add_silence n b1) as [[ok2 b2] d2] eqn:Hsil.
      injection H as <- <- <-. cbn [app] in Hx. eapply IH; eauto.
    + injection H as <- <- <-. destruct Hx as [<- | []]. reflexivity.
Qed.

Lemma decode_nibble_diags (nibble : Z) (a : AdpcmState) (b : PcmBuffer) (r : nibble_result) :
  decode_nibble nibble a b = Some r ->
  forall x, In x (nr_diags r) ->
    x = ErrPcmCapacity \/ exists i, x = ErrInvalidAdpcmState i.
Proof.
  unfold decode_nibble. intros H x Hx.
  destruct (step_table_at _ _); [| discriminate].
  destruct (state_table_at _); [| discriminate].
  destruct (add_pcm_sample b _) as [[ok b1] d1] eqn:Hadd.
  injection H as <-. fields. apply in_app_iff in Hx. destruct Hx as [Hx | Hx].
  - destruct (_ || _); [| destruct Hx]. destruct Hx as [<- | []]. eauto.
  - destruct (add_pcm_sample_samples _ _ _ _ _ Hadd) as [(_ & _ & ->) | (_ & _ & ->)].
    + destruct Hx.
    + destruct Hx as [<- | []]. auto.
Qed.

Section NibbleWarning.

Variable rom : list byte.
Variable absolute_msg_idx : Z.
Variable m : Z.

Let quiet (s : DecodeState) : Prop := ~ In (WarnEndOfRomNibble m) (stderr s).

Lemma nibble_diags_quiet (nibble : Z) (a : AdpcmState) (b : PcmBuffer) (r : nibble_result) :
  decode_nibble nibble a b = Some r -> ~ In (WarnEndOfRomNibble m) (nr_diags r).
Proof.
  intros H Hin. destruct (decode_nibble_diags _ _ _ _ H _ Hin) as [E | [i E]];
    discriminate.
Qed.

(** Under the loop condition a pass does not report the end of the ROM
    in the nibble phase. *)
Lemma loop_body_quiet (s : DecodeState) :
  loop_cond rom s = true -> quiet s ->
  match loop_body rom absolute_msg_idx s with
  | Continue s' => quiet s'
  | Break s' => quiet s'
  | Undefined => True
  end.
Proof.
  intros Hc Hq. unfold loop_cond in Hc. unfold quiet in *.
  assert (Hge : (current_pos s >=? rom_size rom) = false) by lia.
  assert (Hrep : forall t, stderr (handle_repeat t) = stderr t).
  { intros t. unfold handle_repeat.
    destruct ((repeat_count t >? 0) && (nibble_count t =? 0));
      [destruct (repeat_count t - 1 >? 0) |]; reflexivity. }
  unfold loop_body. destruct (nibble_count s >? 0).
  - unfold nibble_phase. rewrite Hge.
    destruct (rom_at rom (current_pos s)) as [b |]; [| exact I].
    destruct (decode_nibble _ (adpcm s) (pcm_buffer s)) as [r1 |] eqn:Hd1; [| exact I].
    pose proof (nibble_diags_quiet _ _ _ _ Hd1) as Hq1.
    destruct (nr_ok r1); cbn [negb].
    + destruct (nibble_count s - 1 >? 0).
      * destruct (decode_nibble _ (nr_state r1) (nr_buffer r1)) as [r2 |] eqn:Hd2;
          [| exact I].
        pose proof (nibble_diags_quiet _ _ _ _ Hd2) as Hq2.
        destruct (nr_ok r2); cbn [negb]; rewrite ?Hrep; fields;
          rewrite !in_app_iff; tauto.
      * rewrite Hrep. fields. rewrite in_app_iff. tauto.
    + fields. rewrite in_app_iff. tauto.
  - unfold command_phase. rewrite Hge.
    destruct (rom_at rom (current_pos s)) as [c |]; [| exact I].
    destruct (c =? 0); [fields; destruct (decoding_ok s); exact Hq |].
    destruct ((c >=? 1) && (c <=? 63)).
    { destruct (add_silence (Z.to_nat (to_uint32 (c * 8))) (pcm_buffer s))
        as [[ok b'] d] eqn:Hsil.
      assert (Hd : ~ In (WarnEndOfRomNibble m) d).
      { intros Hin. pose proof (add_silence_diags _ _ _ _ _ Hsil _ Hin). discriminate. }
      fields. destruct (if ok then decoding_ok s else false); fields;
        rewrite in_app_iff; tauto. }
    destruct ((c >=? 64) && (c <=? 127));
      [fields; destruct (decoding_ok s); exact Hq |].
    destruct ((c >=? 128) && (c <=? 191)).
    { destruct (current_pos s + 1 >=? rom_size rom).
      - fields. rewrite in_app_iff. cbn [In]. intros [H | [H | []]];
          [tauto | discriminate].
      - destruct (rom_at rom (current_pos s + 1)); [| exact I].
        fields. destruct (decoding_ok s); exact Hq. }
    destruct ((c >=? 192) && (c <=? 255)).
    { destruct (current_pos s + 1 >=? rom_size rom).
      - fields. rewrite in_app_iff. cbn [In]. intros [H | [H | []]];
          [tauto | discriminate].
      - destruct (rom_at rom (current_pos s + 1)); [| exact I].
        fields. destruct (decoding_ok s); exact Hq. }
    fields. rewrite in_app_iff. cbn [In]. intros [H | [H | []]];
      [tauto | discriminate].
Qed.

Lemma decode_loop_quiet (fuel : nat) (s s' : DecodeState) :
  quiet s -> decode_loop rom absolute_msg_idx fuel s = Finished s' -> quiet s'.
Proof.
  revert s. induction fuel as [| fuel IH]; intros s Hq; cbn [decode_loop];
    destruct (loop_cond rom s) eqn:Hc; try discriminate;
    try (intros [= <-]; exact Hq).
  pose proof (loop_body_quiet s Hc Hq) as Hb.
  destruct (loop_body rom absolute_msg_idx s) as [s1 | s1 |]; try discriminate.
  - apply IH. exact Hb.
  - intros [= <-]. exact Hb.
Qed.

End NibbleWarning.

(** C9: the end-of-ROM check of the nibble decoding branch cannot fire.
    Whenever the body of the loop is entered with a nibble pending, the loop
    condition has already made [current_pos < rom_size], so the guard of
    the check is false; and no run of the loop, on any ROM and from any
    start, puts the warning of that branch on [stderr]. *)
Theorem nibble_truncation_check_unreachable (rom : list byte) (absolute_msg_idx : Z) :
  (forall s,
      loop_cond rom s = true -> nibble_count s > 0 ->
      (current_pos s >=? rom_size rom) = false) /\
  (forall fuel pos s m,
      decode_loop rom absolute_msg_idx fuel (init_decode_state pos) = Finished s ->
      ~ In (WarnEndOfRomNibble m) (stderr s)).
Proof.
  split.
  - intros s Hc _. unfold loop_cond in Hc. lia.
  - intros fuel pos s m Hrun.
    apply (decode_loop_quiet rom absolute_msg_idx m fuel (init_decode_state pos) s);
      [| exact Hrun].
    intros [].
Qed.

Lemma nibble_truncation_check_unreachable_witness :
  loop_cond [x40; x77]
    (mkDecodeState 1 (mkAdpcmState 0 0) init_pcm_buffer true false 256 0 0 0 []) = true /\
  (1 >=? rom_size [x40; x77]) = false /\
  ~ In (WarnEndOfRomNibble 0)
      (stderr (mkDecodeState 2 (mkAdpcmState 29 6)
                 (mkPcmBuffer [1280; 3712] 2048) true false 254 0 0 0 [])).
Proof.
  split; [reflexivity |]. split.
  - apply (proj1 (nibble_truncation_check_unreachable [x40; x77] 0)
             (mkDecodeState 1 (mkAdpcmState 0 0) init_pcm_buffer true false 256 0 0 0 []));
      [reflexivity | reflexivity].
  - apply (proj2 (nibble_truncation_check_unreachable [x40; x77] 0)
             10%nat 0 _ 0).
    reflexivity.
Defined.

(** ** The output scale *)

(** Where [decode_nibble] does hand [clamp16 (current_sample << 7)] to the
    buffer: inside the band that needs no clamping, and outside of it when
    the table difference of the nibble points away from zero. *)
Lemma scale_sample_clamps (cur diff : Z) :
  -32768 <= cur <= 32767 ->
  -256 <= cur <= 255 \/ (cur > 255 /\ diff > 0) \/ (cur < -256 /\ diff < 0) ->
  scale_sample cur diff = clamp16 (Z.shiftl cur 7).
Proof.
  intros Hr Hcase. unfold scale_sample, clamp16.
  rewrite Z.shiftl_mul_pow2 by lia. change (2 ^ 7) with 128.
  change (Z.shiftr 32767 7) with 255. change (Z.shiftr (-32768) 7) with (-256).
  destruct Hcase as [Hband | [[Hhi Hd] | [Hlo Hd]]].
  - assert (H1 : (cur >? 255) && (diff >? 0) = false) by lia.
    assert (H2 : (cur <? -256) && (diff <? 0) = false) by lia.
    rewrite H1, H2. rewrite to_int16_id by lia.
    assert (H3 : (cur * 128 >? 32767) = false) by lia.
    assert (H4 : (cur * 128 <? -32768) = false) by lia.
    rewrite H3, H4. reflexivity.
  - assert (H1 : (cur >? 255) && (diff >? 0) = true) by lia.
    assert (H2 : (cur <? -256) && (diff <? 0) = false) by lia.
    assert (H3 : (cur * 128 >? 32767) = true) by lia.
    rewrite H1, H2, H3. reflexivity.
  - assert (H2 : (cur <? -256) && (diff <? 0) = true) by lia.
    assert (H3 : (cur * 128 >? 32767) = false) by lia.
    assert (H4 : (cur * 128 <? -32768) = true) by lia.
    rewrite H2, H3, H4. reflexivity.
Qed.

(** C3 fails on the code.  The stream 80 06 77 77 77 80 00 drives the
    predictor to 457 and then, with nibble 8 (table difference -6), down to
    451: the sample appended for that nibble is -7808, the 16-bit wrap of
    [451 << 7 = 57728], where the clamp the claim states gives 32767.  The
    re-clamp of [decode_nibble] only fires when the difference has the sign
    of the overflow. *)
Theorem scaled_sample_wraps_instead_of_clamping :
  decode_nibble 8 (mkAdpcmState 457 15) (mkPcmBuffer [] 2048)
  = Some (mkNibbleResult true (mkAdpcmState 451 14) (mkPcmBuffer [-7808] 2048) []) /\
  clamp16 (Z.shiftl 451 7) = 32767 /\
  process_message [x00; x80; x06; x77; x77; x77; x80; x00] 0 0 0 0 0 ROM_SEGMENT_SIZE
    None "rom.bin"
  = Finished (true,
      [WriteWavFile "message_0_000.wav"
         [1280; 3712; 7936; 16128; 31104; 32767; -7808]
         8000 "rom.bin" "message_0_000" "0" None]).
Proof.
  split; [| split]; vm_compute; reflexivity.
Qed.

(** ** Repeat blocks in general *)

Section RepeatBlocks.

Variable rom : list byte.
Variable absolute_msg_idx : Z.

(** The state at the start of a play of the repeat block that begins at
    [start] and holds [cnt] nibbles, with repeat counter [rc]. *)
Let at_block_start (start cnt : Z) (errs : list diag)
    (a : AdpcmState) (b : PcmBuffer) (rc : Z) : DecodeState :=
  mkDecodeState start a b true false cnt rc start cnt errs.

(** With the repeat counter at [p >= 1] the block is played [p] times in
    all: each play decodes the same nibbles against the codec state the
    play before it left, and the loop ends in the command state behind the
    block. *)
Lemma repeat_counter_plays (start cnt : Z) (k : nat) (errs : list diag) (p : nat) :
  forall (a : AdpcmState) (b : PcmBuffer),
    0 < cnt -> Z.of_nat k = (cnt + 1) / 2 ->
    0 <= start -> start + Z.of_nat k <= rom_size rom ->
    adpcm_in_range a -> buffer_wf b ->
    count b + Z.of_nat (S p) * cnt <= PCM_LIMIT ->
    exists a' b',
      decode_nibbles
        (concat (repeat (firstn (Z.to_nat cnt) (rom_nibbles rom start k)) (S p))) a b
      = Some (a', b') /\
      adpcm_in_range a' /\ buffer_wf b' /\
      count b' = count b + Z.of_nat (S p) * cnt /\
      loop_steps rom absolute_msg_idx (S p * k)
        (at_block_start start cnt errs a b (Z.of_nat (S p)))
        (mkDecodeState (start + Z.of_nat k) a' b' true false 0 0 0 0 errs).
Proof.
  induction p as [| p IH]; intros a b Hcnt Hk Hstart Hend Ha Hwf Hroom.
  - destruct (play_block rom absolute_msg_idx k (at_block_start start cnt errs a b 1))
      as (a' & b' & Hd & Ha' & Hwf' & Hc & Hsteps);
      unfold at_block_start in *; fields; try assumption; try reflexivity; try lia.
    exists a', b'. cbn [repeat concat]. rewrite app_nil_r.
    split; [exact Hd |]. split; [exact Ha' |]. split; [exact Hwf' |].
    split; [lia |].
    replace (1 * k)%nat with k by lia. exact Hsteps.
  - destruct (play_block rom absolute_msg_idx k
                (at_block_start start cnt errs a b (Z.of_nat (S (S p)))))
      as (a1 & b1 & Hd1 & Ha1 & Hwf1 & Hc1 & Hsteps1);
      unfold at_block_start in *; fields; try assumption; try reflexivity; try lia.
    assert (Hrewind :
      handle_repeat
        (mkDecodeState (start + Z.of_nat k) a1 b1 true false 0
           (Z.of_nat (S (S p))) start cnt errs)
      = at_block_start start cnt errs a1 b1 (Z.of_nat (S p))).
    { unfold handle_repeat, at_block_start. fields.
      assert (H1 : (Z.of_nat (S (S p)) >? 0) && (0 =? 0) = true) by lia.
      assert (H2 : (Z.of_nat (S (S p)) - 1 >? 0) = true) by lia.
      rewrite H1, H2.
      replace (Z.of_nat (S (S p)) - 1) with (Z.of_nat (S p)) by lia. reflexivity. }
    unfold at_block_start in Hrewind. rewrite Hrewind in Hsteps1.
    destruct (IH a1 b1) as (a' & b' & Hd & Ha' & Hwf' & Hc & Hsteps);
      try assumption; try lia.
    exists a', b'.
    split.
    { change (repeat ?x (S (S p))) with (x :: repeat x (S p)). cbn [concat].
      rewrite (decode_nibbles_app _ _ _ _ _ _ Hd1). exact Hd. }
    split; [exact Ha' |]. split; [exact Hwf' |]. split; [lia |].
    replace (S (S p) * k)%nat with (k + S p * k)%nat by lia.
    eapply loop_steps_app; [exact Hsteps1 | exact Hsteps].
Qed.

(** What the code does with a repeat command: with repeat field [r] the
    block is played [max r 1] times. *)
Lemma repeat_block_plays (s : DecodeState) (c n : Z) :
  let r := Z.land (Z.shiftr c 3) 7 in
  let plays := Z.to_nat (Z.max r 1) in
  let data_bytes := Z.to_nat ((n + 2) / 2) in
  let data_start := current_pos s + 2 in
  let block := firstn (Z.to_nat (n + 1)) (rom_nibbles rom data_start data_bytes) in
  rom_size rom < 2 ^ 32 ->
  nibble_count s = 0 -> end_of_message s = false -> decoding_ok s = true ->
  rom_at rom (current_pos s) = Some c -> 192 <= c <= 255 ->
  rom_at rom (current_pos s + 1) = Some n ->
  data_start + Z.of_nat data_bytes <= rom_size rom ->
  adpcm_in_range (adpcm s) -> buffer_wf (pcm_buffer s) ->
  count (pcm_buffer s) + Z.of_nat plays * (n + 1) <= PCM_LIMIT ->
  exists s',
    loop_steps rom absolute_msg_idx (S (plays * data_bytes)) s s' /\
    current_pos s' = data_start + Z.of_nat data_bytes /\
    nibble_count s' = 0 /\ repeat_count s' = 0 /\
    end_of_message s' = false /\ decoding_ok s' = true /\
    decode_nibbles (concat (repeat block plays)) (adpcm s) (pcm_buffer s)
    = Some (adpcm s', pcm_buffer s') /\
    count (pcm_buffer s') = count (pcm_buffer s) + Z.of_nat plays * (n + 1).
Proof.
  intros r plays data_bytes data_start block Hsmall Hn Heom Hok Hc Hrange Hnb Hend
    Ha Hwf Hroom.
  destruct (rom_at_some_bounds rom _ _ Hc) as [Hpos _].
  destruct (rom_at_some_bounds rom _ _ Hnb) as [Hpos1 Hnr].
  pose proof (land_7_range (Z.shiftr c 3)) as Hr. fold r in Hr.
  assert (Hk : Z.of_nat data_bytes = (n + 1 + 1) / 2)
    by (subst data_bytes; replace (n + 1 + 1) with (n + 2) by lia; div_lia).
  set (t := mkDecodeState data_start (adpcm s) (pcm_buffer s) true false (n + 1) r
              data_start (n + 1) (stderr s)).
  assert (Hcmd : loop_body rom absolute_msg_idx s = Continue t).
  { unfold loop_body. rewrite Hn. cbn [Z.gtb Z.compare].
    unfold command_phase. rewrite Hc.
    assert (Hge : (current_pos s >=? rom_size rom) = false) by lia. rewrite Hge.
    assert (H0 : (c =? 0) = false) by lia. rewrite H0.
    assert (H1 : (c >=? 1) && (c <=? 63) = false) by lia. rewrite H1.
    assert (H2 : (c >=? 64) && (c <=? 127) = false) by lia. rewrite H2.
    assert (H3 : (c >=? 128) && (c <=? 191) = false) by lia. rewrite H3.
    assert (H4 : (c >=? 192) && (c <=? 255) = true) by lia. rewrite H4.
    assert (Hge1 : (current_pos s + 1 >=? rom_size rom) = false) by lia. rewrite Hge1.
    rewrite Hnb. fields. rewrite Hok, Heom.
    rewrite (to_uint32_id (n + 1)) by (change (2 ^ 32) with 4294967296; lia).
    rewrite (to_uint32_id (current_pos s + 1 + 1)) by lia.
    subst t data_start. fold r.
    replace (current_pos s + 1 + 1) with (current_pos s + 2) by lia. reflexivity. }
  assert (Hcond : loop_cond rom s = true) by (unfold loop_cond; rewrite Heom; lia).
  destruct (Z.eq_dec r 0) as [Hr0 | Hr0].
  - (* r = 0: one play, as for a long block *)
    assert (Hplays : plays = 1%nat) by (subst plays; rewrite Hr0; reflexivity).
    rewrite Hplays in *.
    destruct (play_block rom absolute_msg_idx data_bytes t)
      as (a' & b' & Hd & Ha' & Hwf' & Hcnt & Hsteps);
      subst t; fields; try assumption; try reflexivity; try lia.
    rewrite Hr0 in Hsteps.
    match type of Hsteps with loop_steps _ _ _ _ (handle_repeat ?u) =>
      assert (Hrep : handle_repeat u = u) by reflexivity; rewrite Hrep in Hsteps end.
    eexists. split.
    { replace (1 * data_bytes)%nat with data_bytes by lia.
      eapply loop_steps_S; [exact Hcond | exact Hcmd | rewrite Hr0; exact Hsteps]. }
    fields. cbn [repeat concat]. rewrite app_nil_r.
    repeat split; try reflexivity; try assumption; lia.
  - (* r >= 1: r plays *)
    assert (Hplays : plays = S (Z.to_nat (r - 1))) by (subst plays; lia).
    rewrite Hplays in *.
    destruct (repeat_counter_plays data_start (n + 1) data_bytes (stderr s)
                (Z.to_nat (r - 1)) (adpcm s) (pcm_buffer s))
      as (a' & b' & Hd & Ha' & Hwf' & Hcnt & Hsteps);
      try assumption; try lia.
    unfold at_block_start in Hsteps.
    replace (Z.of_nat (S (Z.to_nat (r - 1)))) with r in Hsteps by lia.
    eexists. split.
    { eapply loop_steps_S; [exact Hcond | exact Hcmd | exact Hsteps]. }
    fields. repeat split; try reflexivity; try assumption.
Qed.

End RepeatBlocks.

(** ** Repeat blocks on concrete streams *)

(** C1 fails on the code.  The message C8 01 11 00 of the specification
    (repeat field 1, two nibbles) yields two samples, not four, and with
    the data byte 77 the two samples are those of a single play; with
    repeat field 2 (D0) the block is played twice, not three times.  The
    repeat logic decrements [repeat_count] before it tests it, so a
    repeat field [r >= 1] gives [r] plays. *)
Theorem repeat_block_plays_one_time_less :
  process_message [x00; xc8; x01; x11; x00] 0 0 0 0 0 ROM_SEGMENT_SIZE None "rom.bin"
  = Finished (true,
      [WriteWavFile "message_0_000.wav" [0; 0]
         8000 "rom.bin" "message_0_000" "0" None]) /\
  process_message [x00; xc8; x01; x77; x00] 0 0 0 0 0 ROM_SEGMENT_SIZE None "rom.bin"
  = Finished (true,
      [WriteWavFile "message_0_000.wav" [1280; 3712]
         8000 "rom.bin" "message_0_000" "0" None]) /\
  process_message [x00; xd0; x01; x77; x00] 0 0 0 0 0 ROM_SEGMENT_SIZE None "rom.bin"
  = Finished (true,
      [WriteWavFile "message_0_000.wav" [1280; 3712; 7936; 16128]
         8000 "rom.bin" "message_0_000" "0" None]).
Proof.
  split; [| split]; vm_compute; reflexivity.
Qed.

(** ** Streams that end before the end-of-message opcode *)

Lemma no_output_file_stderr (l : list diag) (tail : list event) :
  no_output_file tail -> no_output_file (map Stderr l ++ tail).
Proof.
  intros Ht e Hin. apply in_app_iff in Hin. destruct Hin as [Hin | Hin].
  - apply in_map_iff in Hin. destruct Hin as [d [<- _]]. exact I.
  - apply Ht. exact Hin.
Qed.

(** C2 fails on the code as it is stated.  In the message 00 01 the ROM
    ends where the next command byte would be read, after a silence of
    eight samples; in 00 40 77 it ends with 254 nibbles of a short block
    still pending.  Neither is an error: the loop condition ends the
    decoding with [decoding_ok] still set and the samples are written. *)
Lemma truncated_stream_is_written :
  process_message [x00; x01] 0 0 0 0 0 ROM_SEGMENT_SIZE None "rom.bin"
  = Finished (true,
      [WriteWavFile "message_0_000.wav" [0; 0; 0; 0; 0; 0; 0; 0]
         8000 "rom.bin" "message_0_000" "0" None]) /\
  process_message [x00; x40; x77] 0 0 0 0 0 ROM_SEGMENT_SIZE None "rom.bin"
  = Finished (true,
      [WriteWavFile "message_0_000.wav" [1280; 3712]
         8000 "rom.bin" "message_0_000" "0" None]).
Proof.
  split; vm_compute; reflexivity.
Qed.

(** C2 as amended: on a ROM of less than 4 GiB, take any state [s] the
    loop of an ADPCM message passes through in the command state.  If the
    ROM ends right behind a command byte [c >= 0x80], where the length
    byte should be, the decoding fails: [process_message] reports the error
    and makes no call to [write_wav_file], whatever samples [s] holds.  If
    the ROM ends at [s] itself, where a command byte should be, the
    decoding ends without an error, and the samples of [s] are written when
    there is at least one. *)
Theorem truncation_outcomes
    (rom : list byte)
    (segment_start_offset segment_index_0_based msg_idx_in_segment
     absolute_msg_idx message_offset_in_segment next_message_offset_in_segment : Z)
    (mapping : option MessageMapping) (rom_basename : string) (s : DecodeState) :
  let start_address := segment_start_offset + message_offset_in_segment in
  let result :=
    process_message rom segment_start_offset segment_index_0_based
      msg_idx_in_segment absolute_msg_idx message_offset_in_segment
      next_message_offset_in_segment mapping rom_basename in
  let output_base :=
    match mapping with
    | Some m => output_filename_base m
    | None => default_filename_base segment_index_0_based msg_idx_in_segment
    end in
  rom_size rom < 2 ^ 32 ->
  rom_at rom start_address = Some MODE_ADPCM ->
  reachable rom absolute_msg_idx (start_address + 1) s ->
  nibble_count s = 0 -> end_of_message s = false ->
  (forall c,
      rom_at rom (current_pos s) = Some c -> 128 <= c ->
      current_pos s + 1 >= rom_size rom ->
      exists w,
        (w = WarnEndOfRomLongN c absolute_msg_idx \/
         w = WarnEndOfRomRepeatN c absolute_msg_idx) /\
        result = Finished (true,
                   map Stderr (stderr s)
                   ++ [Stderr w; Stderr (ErrDecodingFailed absolute_msg_idx)]) /\
        no_output_file
          (map Stderr (stderr s)
           ++ [Stderr w; Stderr (ErrDecodingFailed absolute_msg_idx)])) /\
  (current_pos s >= rom_size rom ->
   result = Finished (true,
              map Stderr (stderr s)
              ++ [if count (pcm_buffer s) >? 0
                  then WriteWavFile (snprintf FILENAME_MAX (output_base ++ ".wav"))
                         (samples (pcm_buffer s)) DEFAULT_SAMPLE_RATE rom_basename
                         output_base (snprintf 12 (fmt_d absolute_msg_idx))
                         (match mapping with Some m => comment m | None => None end)
                  else StatusNoSamples absolute_msg_idx])).
Proof.
  intros start_address result output_base Hsmall Hmode [k Hsteps] Hn Heom.
  destruct (rom_at_some_bounds rom _ _ Hmode) as [Hstart _].
  destruct (decode_fuel_enough rom absolute_msg_idx Hsmall (start_address + 1))
    as [r Hrun]; [lia |].
  destruct (decode_loop_through rom absolute_msg_idx k _ s Hsteps _ r Hrun)
    as [fuel' Hrun'].
  assert (Hinv : loop_inv rom s).
  { apply (loop_steps_inv rom absolute_msg_idx k _ s Hsmall Hsteps).
    apply loop_inv_init. lia. }
  destruct Hinv as (Hpos & Hok & _).
  assert (Hres : result =
    if decoding_ok r && (count (pcm_buffer r) >? 0) then
      Finished (true,
        map Stderr (stderr r)
        ++ [WriteWavFile (snprintf FILENAME_MAX (output_base ++ ".wav"))
              (samples (pcm_buffer r)) DEFAULT_SAMPLE_RATE rom_basename
              output_base (snprintf 12 (fmt_d absolute_msg_idx))
              (match mapping with Some m => comment m | None => None end)])
    else if decoding_ok r && (count (pcm_buffer r) =? 0) then
      Finished (true, map Stderr (stderr r) ++ [StatusNoSamples absolute_msg_idx])
    else
      Finished (true, map Stderr (stderr r)
                      ++ [Stderr (ErrDecodingFailed absolute_msg_idx)])).
  { subst result. unfold process_message. fold start_address.
    assert (Hge : (start_address >=? rom_size rom) = false) by lia.
    rewrite Hge, Hmode. cbn [Z.eqb MODE_ADPCM]. rewrite Hrun. reflexivity. }
  split.
  - intros c Hc Hc128 Hend.
    destruct (rom_at_some_bounds rom _ _ Hc) as [Hcpos Hcr].
    assert (Hcond : loop_cond rom s = true) by (unfold loop_cond; rewrite Heom; lia).
    destruct fuel' as [| fuel']; cbn [decode_loop] in Hrun'; rewrite Hcond in Hrun';
      [discriminate |].
    unfold loop_body in Hrun'. rewrite Hn in Hrun'. cbn [Z.gtb Z.compare] in Hrun'.
    unfold command_phase in Hrun'. rewrite Hc in Hrun'.
    assert (Hge : (current_pos s >=? rom_size rom) = false) by lia.
    assert (H0 : (c =? 0) = false) by lia.
    assert (H1 : (c >=? 1) && (c <=? 63) = false) by lia.
    assert (H2 : (c >=? 64) && (c <=? 127) = false) by lia.
    assert (Hge1 : (current_pos s + 1 >=? rom_size rom) = true) by lia.
    rewrite Hge, H0, H1, H2, Hge1 in Hrun'.
    destruct ((c >=? 128) && (c <=? 191)) eqn:H3.
    + injection Hrun' as <-. exists (WarnEndOfRomLongN c absolute_msg_idx).
      split; [auto |]. rewrite Hres. fields. cbn [andb].
      rewrite map_app, <- app_assoc. cbn [map app].
      split; [reflexivity |].
      apply no_output_file_stderr. intros e [<- | [<- | []]]; exact I.
    + assert (H4 : (c >=? 192) && (c <=? 255) = true) by lia. rewrite H4 in Hrun'.
      injection Hrun' as <-. exists (WarnEndOfRomRepeatN c absolute_msg_idx).
      split; [auto |]. rewrite Hres. fields. cbn [andb].
      rewrite map_app, <- app_assoc. cbn [map app].
      split; [reflexivity |].
      apply no_output_file_stderr. intros e [<- | [<- | []]]; exact I.
  - intros Hend.
    assert (Hcond : loop_cond rom s = false) by (unfold loop_cond; lia).
    assert (Hr : r = s).
    { destruct fuel'; cbn [decode_loop] in Hrun'; rewrite Hcond in Hrun';
        injection Hrun' as <-; reflexivity. }
    subst r. rewrite Hres, Hok. cbn [andb].
    destruct (count (pcm_buffer s) >? 0) eqn:Hcnt; [reflexivity |].
    assert (Hz : (count (pcm_buffer s) =? 0) = true) by (unfold count in *; lia).
    rewrite Hz. reflexivity.
Qed.

Lemma truncation_outcomes_witness :
  (exists w,
     (w = WarnEndOfRomLongN 128 0 \/ w = WarnEndOfRomRepeatN 128 0) /\
     process_message [x00; x01; x80] 0 0 0 0 0 ROM_SEGMENT_SIZE None "rom.bin"
     = Finished (true, map Stderr [] ++ [Stderr w; Stderr (ErrDecodingFailed 0)]) /\
     no_output_file (map Stderr [] ++ [Stderr w; Stderr (ErrDecodingFailed 0)])) /\
  process_message [x00; x01] 0 0 0 0 0 ROM_SEGMENT_SIZE None "rom.bin"
  = Finished (true,
      map Stderr []
      ++ [WriteWavFile "message_0_000.wav" [0; 0; 0; 0; 0; 0; 0; 0]
            8000 "rom.bin" "message_0_000" "0" None]).
Proof.
  pose (s := mkDecodeState 2 (mkAdpcmState 0 0)
               (mkPcmBuffer [0; 0; 0; 0; 0; 0; 0; 0] 2048) true false 0 0 0 0 []).
  assert (Hreach1 : reachable [x00; x01; x80] 0 (0 + 0 + 1) s).
  { exists 1%nat. eapply loop_steps_S; [reflexivity | reflexivity | apply loop_steps_O]. }
  assert (Hreach2 : reachable [x00; x01] 0 (0 + 0 + 1) s).
  { exists 1%nat. eapply loop_steps_S; [reflexivity | reflexivity | apply loop_steps_O]. }
  assert (Hs1 : rom_size [x00; x01; x80] < 2 ^ 32) by reflexivity.
  assert (Hs2 : rom_size [x00; x01] < 2 ^ 32) by reflexivity.
  assert (Hge1 : 2 + 1 >= rom_size [x00; x01; x80]) by (vm_compute; discriminate).
  assert (Hge2 : 2 >= rom_size [x00; x01]) by (vm_compute; discriminate).
  assert (H128 : 128 <= 128) by lia.
  split.
  - exact (proj1 (truncation_outcomes [x00; x01; x80] 0 0 0 0 0 ROM_SEGMENT_SIZE
                    None "rom.bin" s Hs1 eq_refl Hreach1 eq_refl eq_refl)
             128 eq_refl H128 Hge1).
  - exact (proj2 (truncation_outcomes [x00; x01] 0 0 0 0 0 ROM_SEGMENT_SIZE
                    None "rom.bin" s Hs2 eq_refl Hreach2 eq_refl eq_refl)
             Hge2).
Defined.

(** ** The listing of the first scenario *)

Lemma rom_at_app_l (pre rest : list byte) (pos : Z) :
  0 <= pos < rom_size pre -> rom_at (pre ++ rest) pos = rom_at pre pos.
Proof.
  intros H. unfold rom_at, rom_size in *.
  destruct (pos <? 0); [reflexivity |].
  rewrite nth_error_app1 by lia. reflexivity.
Qed.

Section Scenario.

Variable rest : list byte.
Let rom := scenario_prefix ++ rest.
Hypothesis rom_one_segment : rom_size rom <= ROM_SEGMENT_SIZE.

Lemma scenario_size : 7 <= rom_size rom <= 131072.
Proof.
  unfold ROM_SEGMENT_SIZE in rom_one_segment. unfold rom, rom_size in *.
  rewrite length_app in *. cbn [length scenario_prefix] in *. lia.
Qed.

Lemma scenario_at (i : Z) :
  0 <= i < 7 -> rom_at rom i = rom_at scenario_prefix i.
Proof.
  intros Hi. apply rom_at_app_l. unfold rom_size. cbn [length scenario_prefix]. lia.
Qed.

Lemma scenario_magic : memcmp_differs rom (0 + 1) ROM_MAGIC = Some false.
Proof.
  unfold ROM_MAGIC. cbn [memcmp_differs].
  rewrite !scenario_at by lia. reflexivity.
Qed.

Lemma scenario_table : read_offset_table rom (0 + 5) 1 = Some [3].
Proof.
  cbn [read_offset_table]. unfold read_u16be.
  rewrite !scenario_at by lia. reflexivity.
Qed.

Lemma scenario_record (basename : string) (target : Z) :
  handle_message_iteration rom 0 0 0 (0 + 0) [3] 1 [] basename true false target
  = Finished (MSG_HANDLED_CONTINUE, [Stdout scenario_line]).
Proof.
  pose proof scenario_size as Hs.
  unfold handle_message_iteration. cbn [find_mapping].
  change (index [3] 0) with (Some 3). cbn [negb].
  change (to_uint32 (3 * 2)) with 6. change (0 + 6) with 6.
  unfold list_message.
  assert (H4 : (6 <? rom_size rom) = true) by lia. rewrite H4.
  rewrite scenario_at by lia.
  change (rom_at scenario_prefix 6) with (Some 3).
  reflexivity.
Qed.

Lemma scenario_segment (basename : string) (target : Z) (hdr : list event) :
  segment_body rom [] basename true false target (init_walk_state hdr)
  = WalkContinue
      (mkWalkState 0 0 1 false EXIT_SUCCESS (hdr ++ [Stdout scenario_line])).
Proof.
  pose proof scenario_size as Hs.
  unfold segment_body, init_walk_state.
  cbn [segment_start segment_index_0_based].
  assert (H2 : (0 + 5 >? rom_size rom) = false) by lia. rewrite H2.
  rewrite scenario_magic, scenario_at by lia.
  change (rom_at scenario_prefix 0) with (Some 0).
  cbv beta iota. change (to_uint32 (0 + 1)) with 1.
  assert (H3 : (0 + 5 + 1 * 2 >? rom_size rom)
               || (0 + 5 + 1 * 2 >? 0 + ROM_SEGMENT_SIZE) = false)
    by (unfold ROM_SEGMENT_SIZE; lia).
  rewrite H3. change (Z.to_nat 1) with 1%nat. rewrite scenario_table.
  cbn [message_loop segment_start segment_index_0_based absolute_msg_idx_counter].
  rewrite scenario_record.
  reflexivity.
Qed.

End Scenario.

(** C8 fails on the code as it is stated: in list mode the ROM of the
    scenario, with or without a payload byte 00 behind the offset table,
    gives a line that ends in a hash, a space and the newline, which is not
    the line with nothing between the hash and the newline. *)
Lemma listing_line_has_trailing_space :
  main scenario_prefix [] "rom.bin" true false (-1)
  = Finished (EXIT_SUCCESS,
      [Stdout ("# ROM: rom.bin" ++ newline ++ newline); Stdout scenario_line]) /\
  main (scenario_prefix ++ [x00]) [] "rom.bin" true false (-1)
  = Finished (EXIT_SUCCESS,
      [Stdout ("# ROM: rom.bin" ++ newline ++ newline); Stdout scenario_line]) /\
  scenario_line <> scenario_line_bare_hash.
Proof.
  split; [| split].
  - vm_compute. reflexivity.
  - vm_compute. reflexivity.
  - vm_compute. discriminate.
Qed.

(** C8 as amended: for every ROM of at most one segment that begins with
    the header 00 5A A5 69 55 and the offset table 00 03, list mode (not
    silenced by the quiet flag, no mapping loaded) prints the preamble and
    then exactly the record line [0<TAB>0<TAB>message_0_000], four padding
    tabs, a hash, one space and the newline, and the run succeeds. *)
Theorem listing_of_single_message_rom
    (rest : list byte) (rom_basename : string) (target_message_idx : Z) :
  rom_size (scenario_prefix ++ rest) <= ROM_SEGMENT_SIZE ->
  tabs_to_print "message_0_000" = Z.max (5 - 13 / 8) 1 /\
  main (scenario_prefix ++ rest) [] rom_basename true false target_message_idx
  = Finished (EXIT_SUCCESS,
      [Stdout ("# ROM: " ++ rom_basename ++ newline ++ newline);
       Stdout scenario_line]).
Proof.
  intros Hsize. split; [reflexivity |].
  pose proof (scenario_size rest Hsize) as Hs.
  unfold main.
  assert (H0 : (rom_size (scenario_prefix ++ rest) =? 0) = false) by lia.
  rewrite H0. cbn [andb negb].
  unfold segment_fuel. cbn [segment_loop]. unfold init_walk_state at 1.
  cbn [segment_start].
  assert (H1 : (0 <? rom_size (scenario_prefix ++ rest)) = true) by lia.
  rewrite H1, (scenario_segment rest Hsize).
  unfold next_segment.
  cbn [segment_start segment_index_0_based absolute_msg_idx_counter
       target_found_and_processed exit_code output].
  assert (H2 : (0 + ROM_SEGMENT_SIZE <? rom_size (scenario_prefix ++ rest)) = false)
    by (unfold ROM_SEGMENT_SIZE; lia).
  destruct (Z.to_nat (rom_size (scenario_prefix ++ rest) / ROM_SEGMENT_SIZE));
    cbn [segment_loop segment_start]; rewrite H2; reflexivity.
Qed.

Lemma listing_of_single_message_rom_witness :
  tabs_to_print "message_0_000" = Z.max (5 - 13 / 8) 1 /\
  main (scenario_prefix ++ [x00]) [] "rom.bin" true false (-1)
  = Finished (EXIT_SUCCESS,
      [Stdout ("# ROM: " ++ "rom.bin" ++ newline ++ newline);
       Stdout scenario_line]).
Proof.
  assert (Hsize : rom_size (scenario_prefix ++ [x00]) <= ROM_SEGMENT_SIZE)
    by (vm_compute; discriminate).
  exact (listing_of_single_message_rom [x00] "rom.bin" (-1) Hsize).
Defined.

(** ** Records that start outside of the ROM *)

Lemma strlen_zero (c : string) : (strlen c >? 0) = false -> c = EmptyString.
Proof.
  unfold strlen. destruct c as [| a c]; [reflexivity |].
  cbn [String.length]. lia.
Qed.

(** Without a mode byte to read, the comment field is the hash, a space
    and the comment of the mapping: no PCM marker is added. *)
Lemma build_comment_unread (message_mode : Z) (mapping : option MessageMapping) :
  build_comment false message_mode
    (match mapping with Some m => comment m | None => None end)
  = ("# " ++ user_comment_text mapping)%string.
Proof.
  unfold build_comment, user_comment_text. cbn [andb negb orb].
  destruct mapping as [m |]; [| reflexivity].
  destruct (comment m) as [c |]; [| reflexivity].
  destruct (strlen c >? 0) eqn:Hlen; [reflexivity |].
  rewrite (strlen_zero c Hlen). reflexivity.
Qed.

Section OutOfBounds.

Variable rom : list byte.
Variable mapping_table : MappingTable.
Variable rom_basename : string.
Variable offset_table : list Z.
Variable message_count_in_segment : Z.
Variable st : WalkState.
Variables msg_idx_in_seg words : Z.

Let mapping := find_mapping mapping_table (segment_index_0_based st) msg_idx_in_seg.
Let output_base := output_base_of mapping (segment_index_0_based st) msg_idx_in_seg.

Hypothesis table_entry : index offset_table msg_idx_in_seg = Some words.
Hypothesis out_of_bounds :
  segment_start st + to_uint32 (words * 2) >= rom_size rom.

Lemma list_out_of_bounds (target_message_idx : Z) :
  strlen (user_comment_text mapping) < 254 ->
  handle_message_iteration rom (segment_start st) (segment_index_0_based st)
    msg_idx_in_seg (absolute_msg_idx_counter st + msg_idx_in_seg)
    offset_table message_count_in_segment mapping_table rom_basename
    true false target_message_idx
  = Finished (MSG_HANDLED_CONTINUE,
      [Stderr (WarnListModeByte (segment_index_0_based st) msg_idx_in_seg);
       Stdout (fmt_d (segment_index_0_based st) ++ tab ++ fmt_u msg_idx_in_seg
               ++ tab ++ output_base
               ++ replicate (Z.to_nat (tabs_to_print output_base)) tab
               ++ "# " ++ user_comment_text mapping ++ newline)]).
Proof.
  intros Hfit. unfold handle_message_iteration. rewrite table_entry. cbn [negb].
  unfold list_message. fold mapping.
  assert (Hread : (segment_start st + to_uint32 (words * 2) <? rom_size rom) = false)
    by lia.
  rewrite Hread, build_comment_unread.
  assert (Hlen : (strlen ("# " ++ user_comment_text mapping) >=? 256) = false).
  { unfold strlen in *. cbn [String.append String.length]. lia. }
  rewrite Hlen. cbn [app]. unfold output_base, output_base_of.
  cbn [String.append]. reflexivity.
Qed.

Lemma decode_out_of_bounds (quiet_mode : bool) (target_message_idx : Z) :
  target_message_idx < 0 ->
  (msg_idx_in_seg + 1 < message_count_in_segment ->
   index offset_table (msg_idx_in_seg + 1) <> None) ->
  handle_message_iteration rom (segment_start st) (segment_index_0_based st)
    msg_idx_in_seg (absolute_msg_idx_counter st + msg_idx_in_seg)
    offset_table message_count_in_segment mapping_table rom_basename
    false quiet_mode target_message_idx
  = Finished (MSG_HANDLED_CONTINUE,
      [Stderr (WarnStartOutOfBounds (absolute_msg_idx_counter st + msg_idx_in_seg)
                 (segment_index_0_based st) msg_idx_in_seg)]).
Proof.
  intros Hall Hnext. unfold handle_message_iteration. rewrite table_entry.
  assert (Hsel : (target_message_idx <? 0)
                 || (absolute_msg_idx_counter st + msg_idx_in_seg =? target_message_idx)
                 = true) by lia.
  rewrite Hsel.
  assert (Hproc : forall next,
    process_message rom (segment_start st) (segment_index_0_based st) msg_idx_in_seg
      (absolute_msg_idx_counter st + msg_idx_in_seg) (to_uint32 (words * 2)) next
      mapping rom_basename
    = Finished (true,
        [Stderr (WarnStartOutOfBounds (absolute_msg_idx_counter st + msg_idx_in_seg)
                   (segment_index_0_based st) msg_idx_in_seg)])).
  { intros next. unfold process_message.
    assert (Hge : (segment_start st + to_uint32 (words * 2) >=? rom_size rom) = true)
      by lia.
    rewrite Hge. reflexivity. }
  assert (Htgt : (target_message_idx >=? 0)
                 && (absolute_msg_idx_counter st + msg_idx_in_seg =? target_message_idx)
                 = false) by lia.
  destruct (msg_idx_in_seg + 1 <? message_count_in_segment) eqn:Hlast.
  - destruct (index offset_table (msg_idx_in_seg + 1)) as [w' |] eqn:Hw.
    + cbn [option_map]. fold mapping. rewrite Hproc. cbn [negb]. rewrite Htgt.
      reflexivity.
    + exfalso. apply Hnext; [lia | reflexivity].
  - fold mapping. rewrite Hproc. cbn [negb]. rewrite Htgt. reflexivity.
Qed.

(** The two flags that silence these paths: the quiet flag in list mode,
    and in decode mode the selection of another message. *)
Lemma out_of_bounds_unselected (quiet_mode : bool) (target_message_idx : Z) :
  handle_message_iteration rom (segment_start st) (segment_index_0_based st)
    msg_idx_in_seg (absolute_msg_idx_counter st + msg_idx_in_seg)
    offset_table message_count_in_segment mapping_table rom_basename
    true true target_message_idx
  = Finished (MSG_HANDLED_CONTINUE, []) /\
  (0 <= target_message_idx ->
   absolute_msg_idx_counter st + msg_idx_in_seg <> target_message_idx ->
   handle_message_iteration rom (segment_start st) (segment_index_0_based st)
     msg_idx_in_seg (absolute_msg_idx_counter st + msg_idx_in_seg)
     offset_table message_count_in_segment mapping_table rom_basename
     false quiet_mode target_message_idx
   = Finished (MSG_HANDLED_CONTINUE, [])).
Proof.
  unfold handle_message_iteration. rewrite table_entry. split; [reflexivity |].
  intros Hsel Hother.
  assert (H : (target_message_idx <? 0)
              || (absolute_msg_idx_counter st + msg_idx_in_seg =? target_message_idx)
              = false) by lia.
  rewrite H. reflexivity.
Qed.

End OutOfBounds.

(** C10: take a record whose start address, the segment start plus twice
    its table word, is at or beyond the ROM size.  In list mode (not
    silenced by the quiet flag, the comment of the mapping short enough for
    the comment buffer) the record still gets its complete line: segment,
    index, the mapped or default file name base, the padding tabs and a
    comment field made of the hash, a space and the comment of the mapping,
    with no PCM marker added; a warning goes to [stderr].  In decode mode
    (every message selected) [process_message] only warns: there is no
    call to [write_wav_file] or [save_raw_pcm], and the message loop goes
    on with the next record. *)
Theorem out_of_bounds_record_is_listed_but_not_decoded
    (rom : list byte) (mapping_table : MappingTable) (rom_basename : string)
    (offset_table : list Z) (message_count_in_segment : Z) (st : WalkState)
    (msg_idx_in_seg words : Z) (quiet_mode : bool) (target_message_idx : Z)
    (remaining : nat) :
  let mapping :=
    find_mapping mapping_table (segment_index_0_based st) msg_idx_in_seg in
  let output_base :=
    output_base_of mapping (segment_index_0_based st) msg_idx_in_seg in
  let warning :=
    Stderr (WarnStartOutOfBounds (absolute_msg_idx_counter st + msg_idx_in_seg)
              (segment_index_0_based st) msg_idx_in_seg) in
  index offset_table msg_idx_in_seg = Some words ->
  segment_start st + to_uint32 (words * 2) >= rom_size rom ->
  (strlen (user_comment_text mapping) < 254 ->
   handle_message_iteration rom (segment_start st) (segment_index_0_based st)
     msg_idx_in_seg (absolute_msg_idx_counter st + msg_idx_in_seg)
     offset_table message_count_in_segment mapping_table rom_basename
     true false target_message_idx
   = Finished (MSG_HANDLED_CONTINUE,
       [Stderr (WarnListModeByte (segment_index_0_based st) msg_idx_in_seg);
        Stdout (fmt_d (segment_index_0_based st) ++ tab ++ fmt_u msg_idx_in_seg
                ++ tab ++ output_base
                ++ replicate (Z.to_nat (tabs_to_print output_base)) tab
                ++ "# " ++ user_comment_text mapping ++ newline)])) /\
  (target_message_idx < 0 ->
   (msg_idx_in_seg + 1 < message_count_in_segment ->
    index offset_table (msg_idx_in_seg + 1) <> None) ->
   handle_message_iteration rom (segment_start st) (segment_index_0_based st)
     msg_idx_in_seg (absolute_msg_idx_counter st + msg_idx_in_seg)
     offset_table message_count_in_segment mapping_table rom_basename
     false quiet_mode target_message_idx
   = Finished (MSG_HANDLED_CONTINUE, [warning]) /\
   no_output_file [warning] /\
   message_loop rom mapping_table rom_basename false quiet_mode target_message_idx
     (S remaining) msg_idx_in_seg offset_table message_count_in_segment st
   = message_loop rom mapping_table rom_basename false quiet_mode target_message_idx
       remaining (msg_idx_in_seg + 1) offset_table message_count_in_segment
       (mkWalkState (segment_start st) (segment_index_0_based st)
          (absolute_msg_idx_counter st) (target_found_and_processed st)
          (exit_code st) (output st ++ [warning]))).
Proof.
  intros mapping output_base warning Hentry Hout. split.
  - intros Hfit. apply (list_out_of_bounds rom mapping_table rom_basename offset_table
                          message_count_in_segment st msg_idx_in_seg words Hentry Hout
                          target_message_idx Hfit).
  - intros Hall Hnext.
    pose proof (decode_out_of_bounds rom mapping_table rom_basename offset_table
                  message_count_in_segment st msg_idx_in_seg words Hentry Hout
                  quiet_mode target_message_idx Hall Hnext) as Hdec.
    split; [exact Hdec |]. split.
    + intros e [<- | []]. exact I.
    + cbn [message_loop]. rewrite Hdec. reflexivity.
Qed.

Lemma out_of_bounds_record_is_listed_but_not_decoded_witness :
  handle_message_iteration [x00; x5a; xa5; x69; x55; xff; xff] 0 0 0 (0 + 0)
    [65535] 1 [mkMessageMapping 0 0 "greeting" (Some "hello"%string)] "rom.bin"
    true false (-1)
  = Finished (MSG_HANDLED_CONTINUE,
      [Stderr (WarnListModeByte 0 0);
       Stdout ("0" ++ tab ++ "0" ++ tab ++ "greeting" ++ tab ++ tab ++ tab ++ tab
               ++ "# hello" ++ newline)]) /\
  handle_message_iteration [x00; x5a; xa5; x69; x55; xff; xff] 0 0 0 (0 + 0)
    [65535] 1 [mkMessageMapping 0 0 "greeting" (Some "hello"%string)] "rom.bin"
    false false (-1)
  = Finished (MSG_HANDLED_CONTINUE, [Stderr (WarnStartOutOfBounds (0 + 0) 0 0)]).
Proof.
  assert (Hout : 0 + to_uint32 (65535 * 2) >= rom_size [x00; x5a; xa5; x69; x55; xff; xff])
    by (vm_compute; discriminate).
  assert (Hfit : strlen "hello" < 254) by reflexivity.
  assert (Hall : -1 < 0) by lia.
  assert (Hnext : 0 + 1 < 1 -> index [65535] (0 + 1) <> None) by lia.
  pose proof (out_of_bounds_record_is_listed_but_not_decoded
                [x00; x5a; xa5; x69; x55; xff; xff]
                [mkMessageMapping 0 0 "greeting" (Some "hello"%string)] "rom.bin"
                [65535] 1 (init_walk_state []) 0 65535 false (-1) 0%nat
                eq_refl Hout) as [Hlist Hdecode].
  split.
  - exact (Hlist Hfit).
  - exact (proj1 (Hdecode Hall Hnext)).
Defined.

(** ** The segment walk *)

Section Walk.

Variable rom : list byte.
Variable mapping_table : MappingTable.
Variable rom_basename : string.
Variables list_mode quiet_mode : bool.
Variable target_message_idx : Z.

Let reaches := walk_reaches rom mapping_table rom_basename list_mode quiet_mode
                 target_message_idx.
Let body := segment_body rom mapping_table rom_basename list_mode quiet_mode
              target_message_idx.
Let loop := segment_loop rom mapping_table rom_basename list_mode quiet_mode
              target_message_idx.

(** The message loop leaves the segment variables alone, and the exit code
    too unless it reports an error. *)
Lemma message_loop_frame (remaining : nat) :
  forall idx offset_table message_count w err w1,
    message_loop rom mapping_table rom_basename list_mode quiet_mode
      target_message_idx remaining idx offset_table message_count w
    = Finished (err, w1) ->
    segment_start w1 = segment_start w /\
    segment_index_0_based w1 = segment_index_0_based w /\
    (err = false -> exit_code w1 = exit_code w) /\
    (err = false -> target_found_and_processed w1 = false ->
     target_found_and_processed w = false).
Proof.
  induction remaining as [| remaining IH]; intros idx tbl cnt w err w1 H;
    cbn [message_loop] in H.
  - injection H as <- <-. auto.
  - destruct (handle_message_iteration _ _ _ _ _ _ _ _ _ _ _ _) as [[r ev] | |];
      try discriminate.
    destruct r.
    + apply IH in H. cbn [segment_start segment_index_0_based exit_code
                          target_found_and_processed] in H. exact H.
    + injection H as <- <-.
      cbn [segment_start segment_index_0_based exit_code target_found_and_processed].
      repeat split; auto; discriminate.
    + injection H as <- <-.
      cbn [segment_start segment_index_0_based exit_code target_found_and_processed].
      repeat split; auto; discriminate.
Qed.

(** A pass that lets the walk go on has found no target and no error. *)
Lemma segment_body_continue (w w2 : WalkState) :
  body w = WalkContinue w2 ->
  segment_start w2 = segment_start w /\
  segment_index_0_based w2 = segment_index_0_based w /\
  exit_code w2 = exit_code w /\
  target_found_and_processed w2 = false.
Proof.
  unfold body, segment_body.
  destruct (segment_start w + 5 >? rom_size rom);
    [destruct (segment_index_0_based w >? 0); discriminate |].
  destruct (rom_at rom (segment_start w)) as [last |]; [| discriminate].
  destruct (memcmp_differs rom (segment_start w + 1) ROM_MAGIC) as [[|] |];
    [destruct (segment_index_0_based w =? 0); discriminate | | discriminate].
  destruct (_ || _); [discriminate |].
  destruct (read_offset_table _ _ _) as [tbl |]; [| discriminate].
  destruct (message_loop _ _ _ _ _ _ _ _ _ _ _) as [[err w1] | |] eqn:Hloop;
    try discriminate.
  cbn [target_found_and_processed].
  destruct (err || target_found_and_processed w1) eqn:Hstop; [discriminate |].
  intros [= <-].
  cbn [segment_start segment_index_0_based exit_code target_found_and_processed].
  destruct (message_loop_frame _ _ _ _ _ _ _ Hloop) as (H1 & H2 & H3 & _).
  destruct err; [discriminate |]. cbn [orb] in Hstop. auto.
Qed.

Lemma walk_inv_init (out : list event) : walk_inv (init_walk_state out).
Proof.
  unfold walk_inv, init_walk_state.
  cbn [exit_code target_found_and_processed segment_index_0_based segment_start].
  unfold ROM_SEGMENT_SIZE. lia.
Qed.

Lemma walk_reaches_inv (w w' : WalkState) :
  reaches w w' -> walk_inv w -> walk_inv w'.
Proof.
  induction 1 as [w | w w1 w2 Hc Hb _ IH]; intros Hinv; [exact Hinv |].
  apply IH. destruct Hinv as (He & Hf & Hi & Hs).
  destruct (segment_body_continue w w1 Hb) as (H1 & H2 & H3 & H4).
  unfold walk_inv, next_segment.
  cbn [exit_code target_found_and_processed segment_index_0_based segment_start].
  rewrite H1, H2, H3, Hs. repeat split; auto; lia.
Qed.

(** The segment loop passes through every state [walk_reaches] relates to
    its start, one pass per segment. *)
Lemma walk_reaches_loop (w w' : WalkState) :
  reaches w w' ->
  exists k : nat,
    segment_index_0_based w' = segment_index_0_based w + Z.of_nat k /\
    forall fuel, loop (k + fuel)%nat w = loop fuel w'.
Proof.
  induction 1 as [w | w w1 w2 Hc Hb _ [k [Hk IH]]].
  - exists 0%nat. split; [lia | reflexivity].
  - exists (S k). destruct (segment_body_continue w w1 Hb) as (_ & H2 & _).
    split.
    + rewrite Hk. unfold next_segment. cbn [segment_index_0_based]. lia.
    + intros fuel. unfold loop in *. cbn [Nat.add segment_loop].
      rewrite Hc, Hb. apply IH.
Qed.

(** Behind segment 0 a bad header ends the walk and changes nothing. *)
Lemma segment_body_soft_end (w : WalkState) :
  segment_index_0_based w > 0 -> 0 <= segment_start w < rom_size rom ->
  bad_header rom (segment_start w) ->
  body w = WalkBreak w.
Proof.
  intros Hi Hs Hbad. unfold body, segment_body.
  destruct (segment_start w + 5 >? rom_size rom) eqn:Hshort.
  - assert (H : (segment_index_0_based w >? 0) = true) by lia. rewrite H. reflexivity.
  - destruct Hbad as [Hlt | Hmagic]; [lia |].
    destruct (rom_at_in_bounds rom (segment_start w) Hs) as [last [-> _]].
    rewrite Hmagic.
    assert (H : (segment_index_0_based w =? 0) = false) by lia. rewrite H. reflexivity.
Qed.

(** In segment 0 a bad header ends the walk with the exit code of a
    failure and one more line on [stderr]. *)
Lemma segment_body_fatal (out : list event) :
  0 < rom_size rom -> bad_header rom 0 ->
  exists d, body (init_walk_state out)
            = WalkBreak (fail_walk (init_walk_state out) d).
Proof.
  intros Hs Hbad. unfold body, segment_body, init_walk_state.
  cbn [segment_start segment_index_0_based].
  destruct (0 + 5 >? rom_size rom) eqn:Hshort.
  - exists ErrRomTooSmall. reflexivity.
  - destruct Hbad as [Hlt | Hmagic]; [lia |].
    destruct (rom_at_in_bounds rom 0) as [last [-> _]]; [lia |].
    rewrite Hmagic. exists ErrInvalidMagic. reflexivity.
Qed.

(** The walk that reaches, behind segment 0, a segment with a bad header
    ends there, in that state, with no error and no target found. *)
Lemma soft_end_walk (header : list event) (w : WalkState) :
  reaches (init_walk_state header) w ->
  segment_index_0_based w > 0 -> segment_start w < rom_size rom ->
  bad_header rom (segment_start w) ->
  loop (segment_fuel rom) (init_walk_state header) = Finished w /\
  exit_code w = EXIT_SUCCESS /\ target_found_and_processed w = false /\
  0 < rom_size rom.
Proof.
  intros Hreach Hidx Hstart Hbad.
  pose proof (walk_reaches_inv _ _ Hreach (walk_inv_init header))
    as (He & Hf & Hi & Hs).
  destruct (walk_reaches_loop _ _ Hreach) as [k [Hk Hloop]].
  unfold init_walk_state in Hk. cbn [segment_index_0_based] in Hk.
  assert (Hpos : 0 <= segment_start w) by (unfold ROM_SEGMENT_SIZE in Hs; lia).
  assert (Hsoft := segment_body_soft_end w Hidx (conj Hpos Hstart) Hbad).
  assert (Hk' : Z.of_nat k <= rom_size rom / ROM_SEGMENT_SIZE).
  { apply Z.div_le_lower_bound; unfold ROM_SEGMENT_SIZE in *; lia. }
  split; [| split; [assumption | split; [assumption | lia]]].
  unfold segment_fuel.
  replace (S (Z.to_nat (rom_size rom / ROM_SEGMENT_SIZE)))
    with (k + S (Z.to_nat (rom_size rom / ROM_SEGMENT_SIZE) - k))%nat by lia.
  rewrite Hloop. unfold loop. cbn [segment_loop].
  assert (Hc : (segment_start w <? rom_size rom) = true) by lia.
  rewrite Hc. fold (body w). rewrite Hsoft. reflexivity.
Qed.

(** When a single message was asked for in decode mode, the walk that
    ends this way has not found it, and the run reports that. *)
Lemma soft_end_with_missing_target (w : WalkState) :
  list_mode = false -> 0 <= target_message_idx ->
  reaches (init_walk_state []) w ->
  segment_index_0_based w > 0 -> segment_start w < rom_size rom ->
  bad_header rom (segment_start w) ->
  main rom mapping_table rom_basename list_mode quiet_mode target_message_idx
  = Finished (EXIT_FAILURE,
              output w ++ [Stderr (ErrTargetNotFound target_message_idx)]).
Proof.
  intros Hmode Htarget Hreach Hidx Hstart Hbad.
  destruct (soft_end_walk [] w Hreach Hidx Hstart Hbad) as (Hwalk & He & Hf & Hsize).
  unfold main.
  assert (Hne : (rom_size rom =? 0) = false) by lia. rewrite Hne.
  assert (Hhdr : (if list_mode && negb quiet_mode
                  then [Stdout ("# ROM: " ++ rom_basename ++ newline ++ newline)%string]
                  else []) = []) by (rewrite Hmode; reflexivity).
  rewrite Hhdr. unfold loop in Hwalk. rewrite Hwalk, He, Hf, Hmode.
  assert (Hge : (target_message_idx >=? 0) = true) by lia. rewrite Hge.
  reflexivity.
Qed.

End Walk.

(** C5: a header that is cut short or that does not carry the magic
    5A A5 69 55 is fatal in segment 0: the run ends with the exit code of
    a failure, before any message is written.  At the head of a later
    segment, reached after the earlier segments were walked, the same
    condition ends the walk as it stands: the exit code is the one of
    success and the output is what the earlier segments produced; the run
    then succeeds with that output, in list mode and when no single
    message was asked for. *)
Theorem bad_header_fatal_in_first_segment_soft_in_later
    (rom : list byte) (mapping_table : MappingTable) (rom_basename : string)
    (list_mode quiet_mode : bool) (target_message_idx : Z) :
  let header :=
    if list_mode && negb quiet_mode
    then [Stdout ("# ROM: " ++ rom_basename ++ newline ++ newline)%string]
    else [] in
  let run :=
    main rom mapping_table rom_basename list_mode quiet_mode target_message_idx in
  (bad_header rom 0 ->
   exists evs,
     run = Finished (EXIT_FAILURE, evs) /\ EXIT_FAILURE <> 0 /\ no_output_file evs) /\
  (forall w,
      walk_reaches rom mapping_table rom_basename list_mode quiet_mode
        target_message_idx (init_walk_state header) w ->
      segment_index_0_based w > 0 ->
      segment_start w < rom_size rom ->
      bad_header rom (segment_start w) ->
      segment_loop rom mapping_table rom_basename list_mode quiet_mode
        target_message_idx (segment_fuel rom) (init_walk_state header)
      = Finished w /\
      exit_code w = EXIT_SUCCESS /\
      (list_mode = true \/ target_message_idx < 0 ->
       run = Finished (EXIT_SUCCESS, output w))).
Proof.
  intros header run. split.
  - intros Hbad. subst run. unfold main.
    destruct (rom_size rom =? 0) eqn:Hempty.
    + eexists. split; [reflexivity |]. split; [discriminate |].
      intros e [<- | []]. exact I.
    + fold header. unfold segment_fuel. cbn [segment_loop].
      unfold init_walk_state at 1. cbn [segment_start].
      assert (Hsize : 0 < rom_size rom) by (unfold rom_size in *; lia).
      assert (H0 : (0 <? rom_size rom) = true) by lia. rewrite H0.
      destruct (segment_body_fatal rom mapping_table rom_basename list_mode
                  quiet_mode target_message_idx header Hsize Hbad) as [d ->].
      unfold fail_walk, init_walk_state.
      cbn [exit_code target_found_and_processed output].
      change (EXIT_FAILURE =? EXIT_FAILURE) with true. cbn [negb].
      rewrite andb_false_r.
      eexists. split; [reflexivity |]. split; [discriminate |].
      intros e Hin. apply in_app_iff in Hin. destruct Hin as [Hin | [<- | []]];
        [| exact I].
      subst header. destruct (list_mode && negb quiet_mode);
        [destruct Hin as [<- | []]; exact I | destruct Hin].
  - intros w Hreach Hidx Hstart Hbad.
    destruct (soft_end_walk rom mapping_table rom_basename list_mode quiet_mode
                target_message_idx header w Hreach Hidx Hstart Hbad)
      as (Hwalk & He & Hf & Hsize).
    split; [exact Hwalk |]. split; [exact He |].
    intros Hmode. subst run. unfold main.
    assert (Hne : (rom_size rom =? 0) = false) by lia. rewrite Hne.
    fold header. rewrite Hwalk, He, Hf.
    assert (Hsel : negb list_mode && (target_message_idx >=? 0) = false).
    { destruct Hmode as [-> | Hall]; [reflexivity |].
      assert (Hge : (target_message_idx >=? 0) = false) by lia.
      rewrite Hge. apply andb_false_r. }
    rewrite Hsel. reflexivity.
Qed.

Lemma bad_header_fatal_in_first_segment_soft_in_later_witness :
  (exists evs,
     main [x00; x5a] [] "rom.bin" false false (-1) = Finished (EXIT_FAILURE, evs) /\
     EXIT_FAILURE <> 0 /\ no_output_file evs) /\
  main two_segment_rom [] "rom.bin" true false (-1)
  = Finished (EXIT_SUCCESS,
      [Stdout ("# ROM: " ++ "rom.bin" ++ newline ++ newline); Stdout scenario_line]).
Proof.
  split.
  - assert (Hbad : bad_header [x00; x5a] 0) by (left; vm_compute; reflexivity).
    exact (proj1 (bad_header_fatal_in_first_segment_soft_in_later
                    [x00; x5a] [] "rom.bin" false false (-1)) Hbad).
  - pose (hdr := [Stdout ("# ROM: " ++ "rom.bin" ++ newline ++ newline)%string]).
    pose (w1 := mkWalkState 0 0 1 false EXIT_SUCCESS (hdr ++ [Stdout scenario_line])).
    assert (Hreach : walk_reaches two_segment_rom [] "rom.bin" true false (-1)
                       (init_walk_state hdr) (next_segment w1)).
    { eapply walk_reaches_step with (w1 := w1).
      - vm_compute. reflexivity.
      - vm_compute. reflexivity.
      - apply walk_reaches_refl. }
    assert (Hidx : segment_index_0_based (next_segment w1) > 0) by reflexivity.
    assert (Hstart : segment_start (next_segment w1) < rom_size two_segment_rom)
      by (vm_compute; reflexivity).
    assert (Hbad : bad_header two_segment_rom (segment_start (next_segment w1)))
      by (right; vm_compute; reflexivity).
    assert (Hmode : true = true \/ -1 < 0) by (left; reflexivity).
    exact (proj2 (proj2 (proj2 (bad_header_fatal_in_first_segment_soft_in_later
                                  two_segment_rom [] "rom.bin" true false (-1))
                           (next_segment w1) Hreach Hidx Hstart Hbad)) Hmode).
Defined.

(** * Further properties of the decoder *)

(** ** What the loop does to the PCM buffer *)

Lemma to_int16_range (z : Z) : in_int16 (to_int16 z).
Proof.
  unfold in_int16, to_int16. pose proof (Z.mod_pos_bound (z + 32768) 65536). lia.
Qed.

Lemma scale_sample_range (cur diff : Z) : in_int16 (scale_sample cur diff).
Proof.
  unfold scale_sample.
  destruct ((cur <? Z.shiftr (-32768) 7) && (diff <? 0)); [unfold in_int16; lia |].
  destruct ((cur >? Z.shiftr 32767 7) && (diff >? 0)); [unfold in_int16; lia |].
  apply to_int16_range.
Qed.

Section BufferRelation.

Variable R : PcmBuffer -> PcmBuffer -> Prop.
Hypothesis R_refl : forall b, R b b.
Hypothesis R_trans : forall b1 b2 b3, R b1 b2 -> R b2 b3 -> R b1 b3.
Hypothesis R_add :
  forall b x ok b' d, in_int16 x -> add_pcm_sample b x = (ok, b', d) -> R b b'.

Lemma rel_add_silence (n : nat) :
  forall b ok b' d, add_silence n b = (ok, b', d) -> R b b'.
Proof.
  induction n as [| n IH]; intros b ok b' d H; cbn [add_silence] in H.
  - injection H as <- <- <-. apply R_refl.
  - destruct (add_pcm_sample b 0) as [[ok1 b1] d1] eqn:Hadd.
    assert (H1 : R b b1) by (eapply R_add; [| exact Hadd]; unfold in_int16; lia).
    destruct ok1.
    + destruct (add_silence n b1) as [[ok2 b2] d2] eqn:Hsil.
      injection H as <- <- <-. eapply R_trans; [exact H1 | eapply IH; exact Hsil].
    + injection H as <- <- <-. exact H1.
Qed.

Lemma rel_decode_nibble (nibble : Z) (a : AdpcmState) (b : PcmBuffer) (r : nibble_result) :
  decode_nibble nibble a b = Some r -> R b (nr_buffer r).
Proof.
  unfold decode_nibble. intros H.
  destruct (step_table_at _ nibble) as [diff |]; [| discriminate].
  destruct (state_table_at nibble) as [delta |]; [| discriminate].
  destruct (add_pcm_sample b _) as [[ok b1] d1] eqn:Hadd.
  injection H as <-. cbn [nr_buffer].
  eapply R_add; [| exact Hadd]. apply scale_sample_range.
Qed.

Lemma handle_repeat_buffer (t : DecodeState) :
  pcm_buffer (handle_repeat t) = pcm_buffer t.
Proof.
  unfold handle_repeat.
  destruct ((repeat_count t >? 0) && (nibble_count t =? 0));
    [destruct (repeat_count t - 1 >? 0) |]; reflexivity.
Qed.

(** However a pass ends, its buffer is related to the one it began with. *)
Lemma rel_loop_body (rom : list byte) (absolute_msg_idx : Z) (s : DecodeState) :
  match loop_body rom absolute_msg_idx s with
  | Continue s' => R (pcm_buffer s) (pcm_buffer s')
  | Break s' => R (pcm_buffer s) (pcm_buffer s')
  | Undefined => True
  end.
Proof.
  unfold loop_body. destruct (nibble_count s >? 0).
  - unfold nibble_phase.
    destruct (current_pos s >=? rom_size rom); [apply R_refl |].
    destruct (rom_at rom (current_pos s)) as [b |]; [| exact I].
    destruct (decode_nibble (Z.land (Z.shiftr b 4) 15) (adpcm s) (pcm_buffer s))
      as [r1 |] eqn:Hd1; [| exact I].
    pose proof (rel_decode_nibble _ _ _ _ Hd1) as H1.
    destruct (nr_ok r1); cbn [negb]; [| exact H1].
    destruct (nibble_count s - 1 >? 0).
    + destruct (decode_nibble (Z.land b 15) (nr_state r1) (nr_buffer r1))
        as [r2 |] eqn:Hd2; [| exact I].
      pose proof (rel_decode_nibble _ _ _ _ Hd2) as H2.
      destruct (nr_ok r2); cbn [negb]; rewrite ?handle_repeat_buffer;
        cbn [pcm_buffer]; eapply R_trans; eassumption.
    + rewrite handle_repeat_buffer. exact H1.
  - unfold command_phase.
    destruct (current_pos s >=? rom_size rom); [apply R_refl |].
    destruct (rom_at rom (current_pos s)) as [c |]; [| exact I].
    destruct (c =? 0); [fields; destruct (decoding_ok s); apply R_refl |].
    destruct ((c >=? 1) && (c <=? 63)).
    { destruct (add_silence (Z.to_nat (to_uint32 (c * 8))) (pcm_buffer s))
        as [[ok b'] d] eqn:Hsil.
      pose proof (rel_add_silence _ _ _ _ _ Hsil) as H1.
      fields. destruct (if ok then decoding_ok s else false); exact H1. }
    destruct ((c >=? 64) && (c <=? 127));
      [fields; destruct (decoding_ok s); apply R_refl |].
    destruct ((c >=? 128) && (c <=? 191)).
    { destruct (current_pos s + 1 >=? rom_size rom); [apply R_refl |].
      destruct (rom_at rom (current_pos s + 1)); [| exact I].
      fields. destruct (decoding_ok s); apply R_refl. }
    destruct ((c >=? 192) && (c <=? 255)); [| apply R_refl].
    destruct (current_pos s + 1 >=? rom_size rom); [apply R_refl |].
    destruct (rom_at rom (current_pos s + 1)); [| exact I].
    fields. destruct (decoding_ok s); apply R_refl.
Qed.

Lemma rel_decode_loop (rom : list byte) (absolute_msg_idx : Z) (fuel : nat) :
  forall s s',
    decode_loop rom absolute_msg_idx fuel s = Finished s' ->
    R (pcm_buffer s) (pcm_buffer s').
Proof.
  induction fuel as [| fuel IH]; intros s s'; cbn [decode_loop];
    destruct (loop_cond rom s); try discriminate;
    try (intros [= <-]; apply R_refl).
  pose proof (rel_loop_body rom absolute_msg_idx s) as Hb.
  destruct (loop_body rom absolute_msg_idx s) as [s1 | s1 |]; try discriminate.
  - intros H. eapply R_trans; [exact Hb | apply IH; exact H].
  - intros [= <-]. exact Hb.
Qed.

End BufferRelation.

(** [add_pcm_sample] keeps a buffer sound, whether it takes the sample or
    refuses it. *)
Lemma add_pcm_sample_sound (b : PcmBuffer) (x : Z) (ok : bool) (b' : PcmBuffer)
    (d : list diag) :
  in_int16 x -> add_pcm_sample b x = (ok, b', d) ->
  buffer_sound b -> buffer_sound b'.
Proof.
  intros Hx Hadd [[Hle Hcap] Hall]. unfold add_pcm_sample in Hadd.
  destruct b as [l c]. unfold count in *. cbn [samples capacity] in *.
  assert (Hall' : Forall in_int16 (l ++ [x]))
    by (apply Forall_app; split; [exact Hall | constructor; [exact Hx | constructor]]).
  destruct (Z.of_nat (length l) >=? c) eqn:Hfull.
  - destruct Hcap as [Hz | [k [Hk Hc]]].
    + subst c. cbn [Z.eqb] in Hadd.
      change (2048 >? SIZE_MAX / 2 / 2) with false in Hadd.
      injection Hadd as <- <- <-. split; [split |]; cbn [samples capacity].
      * rewrite count_app. cbn [length]. lia.
      * right. exists 0. cbn. lia.
      * exact Hall'.
    + pose proof (pow2_le_50 k Hk) as Hp.
      change (2 ^ 50) with 1125899906842624 in Hp.
      assert (Hne : (c =? 0) = false) by lia. rewrite Hne in Hadd.
      assert (Hsz : to_size_t (c * 2) = c * 2).
      { unfold to_size_t. apply Z.mod_small.
        change (2 ^ 64) with 18446744073709551616. lia. }
      rewrite Hsz in Hadd.
      change (SIZE_MAX / 2 / 2) with 4611686018427387903 in Hadd.
      destruct (c * 2 >? 4611686018427387903) eqn:Hbig.
      * injection Hadd as <- <- <-. split; [split |]; cbn [samples capacity].
        -- unfold count. cbn [samples]. exact Hle.
        -- right. exists k. auto.
        -- exact Hall.
      * assert (Hk50 : k < 50).
        { destruct (Z.eq_dec k 50) as [-> | Hne50]; [| lia].
          change (2 ^ 50) with 1125899906842624 in Hc. lia. }
        injection Hadd as <- <- <-. split; [split |]; cbn [samples capacity].
        -- rewrite count_app. cbn [length]. lia.
        -- right. exists (k + 1). split; [lia |].
           rewrite Z.pow_add_r by lia. change (2 ^ 1) with 2. lia.
        -- exact Hall'.
  - injection Hadd as <- <- <-. split; [split |]; cbn [samples capacity].
    + rewrite count_app. cbn [length]. lia.
    + exact Hcap.
    + exact Hall'.
Qed.

Lemma buffer_sound_init : buffer_sound init_pcm_buffer.
Proof.
  split; [apply buffer_wf_init | constructor].
Qed.

Lemma buffer_wf_capacity (b : PcmBuffer) : buffer_wf b -> capacity b <= PCM_LIMIT.
Proof.
  intros [_ [Hz | [k [Hk Hc]]]]; unfold PCM_LIMIT;
    change (2 ^ 61) with 2305843009213693952; [lia |].
  pose proof (pow2_le_50 k Hk) as Hp. change (2 ^ 50) with 1125899906842624 in Hp.
  lia.
Qed.

(** X1: whatever the ROM holds, the buffer a message is decoded into stays
    an array that is not overrun: at the end of the loop the number of
    samples is at most the capacity, and the capacity at most 2^61
    entries. *)
Theorem pcm_buffer_never_overrun
    (rom : list byte) (absolute_msg_idx pos : Z) (fuel : nat) (s : DecodeState) :
  decode_loop rom absolute_msg_idx fuel (init_decode_state pos) = Finished s ->
  count (pcm_buffer s) <= capacity (pcm_buffer s) /\
  capacity (pcm_buffer s) <= PCM_LIMIT.
Proof.
  intros Hrun.
  assert (Hsound : buffer_sound (pcm_buffer s)).
  { apply (rel_decode_loop (fun b b' => buffer_sound b -> buffer_sound b')
             (fun b H => H) (fun b1 b2 b3 H12 H23 H => H23 (H12 H))
             (fun b x ok b' d Hx Hadd => add_pcm_sample_sound b x ok b' d Hx Hadd)
             rom absolute_msg_idx fuel _ _ Hrun).
    apply buffer_sound_init. }
  destruct Hsound as [Hwf _]. split; [apply Hwf | apply buffer_wf_capacity; exact Hwf].
Qed.

Lemma pcm_buffer_never_overrun_witness :
  count (mkPcmBuffer [1280; 3712] 2048) <= capacity (mkPcmBuffer [1280; 3712] 2048) /\
  capacity (mkPcmBuffer [1280; 3712] 2048) <= PCM_LIMIT.
Proof.
  assert (Hrun : decode_loop [x40; x77] 0 10 (init_decode_state 0)
                 = Finished (mkDecodeState 2 (mkAdpcmState 29 6)
                               (mkPcmBuffer [1280; 3712] 2048)
                               true false 254 0 0 0 []))
    by (vm_compute; reflexivity).
  exact (pcm_buffer_never_overrun [x40; x77] 0 0 10 _ Hrun).
Defined.

(** X2: every WAV file a message gives rise to holds at least one sample,
    and all of its samples are values of an [int16_t]. *)
Theorem wav_samples_are_int16
    (rom : list byte)
    (segment_start_offset segment_index_0_based msg_idx_in_segment
     absolute_msg_idx message_offset_in_segment next_message_offset_in_segment : Z)
    (mapping : option MessageMapping) (rom_basename : string)
    (continue : bool) (evs : list event)
    (wav_filename : string) (pcm : list Z) (sample_rate : Z)
    (artist title track : string) (cmt : option string) :
  process_message rom segment_start_offset segment_index_0_based
    msg_idx_in_segment absolute_msg_idx message_offset_in_segment
    next_message_offset_in_segment mapping rom_basename
  = Finished (continue, evs) ->
  In (WriteWavFile wav_filename pcm sample_rate artist title track cmt) evs ->
  pcm <> [] /\ Forall in_int16 pcm.
Proof.
  unfold process_message.
  destruct (_ >=? rom_size rom).
  { intros [= <- <-] [H | []]. discriminate. }
  destruct (rom_at rom _) as [mode |]; [| discriminate].
  destruct (mode =? MODE_ADPCM).
  - destruct (decode_loop rom absolute_msg_idx (decode_fuel rom) _) as [s | |] eqn:Hrun;
      try discriminate.
    assert (Hsound : buffer_sound (pcm_buffer s)).
    { apply (rel_decode_loop (fun b b' => buffer_sound b -> buffer_sound b')
               (fun b H => H) (fun b1 b2 b3 H12 H23 H => H23 (H12 H))
               (fun b x ok b' d Hx Hadd => add_pcm_sample_sound b x ok b' d Hx Hadd)
               rom absolute_msg_idx _ _ _ Hrun).
      apply buffer_sound_init. }
    assert (Hnot : forall l tail,
               (forall e, In e tail -> e = WriteWavFile wav_filename pcm sample_rate
                                            artist title track cmt ->
                          pcm <> [] /\ Forall in_int16 pcm) ->
               In (WriteWavFile wav_filename pcm sample_rate artist title track cmt)
                  (map Stderr l ++ tail) ->
               pcm <> [] /\ Forall in_int16 pcm).
    { intros l tail Htail Hin. apply in_app_iff in Hin. destruct Hin as [Hin | Hin].
      - apply in_map_iff in Hin. destruct Hin as [x [Hx _]]. discriminate.
      - eapply Htail; [exact Hin | reflexivity]. }
    destruct (decoding_ok s && (count (pcm_buffer s) >? 0)) eqn:Hwav.
    + intros [= <- <-]. apply Hnot. intros e [<- | []] [= <- <- <- <- <- <- <-].
      split; [| apply Hsound].
      unfold count in Hwav. destruct (samples (pcm_buffer s)); [| discriminate].
      cbn [length] in Hwav. lia.
    + destruct (decoding_ok s && (count (pcm_buffer s) =? 0)); intros [= <- <-];
        apply Hnot; intros e [<- | []]; discriminate.
  - destruct (mode =? MODE_PCM).
    + destruct (_ <=? _); intros [= <- <-] [H | []]; discriminate.
    + intros [= <- <-] [H | []]. discriminate.
Qed.

Lemma wav_samples_are_int16_witness :
  [1280; 3712] <> [] /\ Forall in_int16 [1280; 3712].
Proof.
  assert (Hrun : process_message [x00; xc8; x01; x77; x00] 0 0 0 0 0 ROM_SEGMENT_SIZE
                   None "rom.bin"
                 = Finished (true,
                     [WriteWavFile "message_0_000.wav" [1280; 3712]
                        8000 "rom.bin" "message_0_000" "0" None]))
    by (vm_compute; reflexivity).
  exact (wav_samples_are_int16 _ _ _ _ _ _ _ _ _ _ _ _ _ _ _ _ _ _ Hrun
           (or_introl eq_refl)).
Defined.

(** X3: the loop only appends: the samples a run ends with begin with the
    samples it started from, also when the run ends in an error. *)
Theorem decode_loop_only_appends
    (rom : list byte) (absolute_msg_idx : Z) (fuel : nat) (s s' : DecodeState) :
  decode_loop rom absolute_msg_idx fuel s = Finished s' ->
  buffer_extends (pcm_buffer s) (pcm_buffer s').
Proof.
  apply (rel_decode_loop buffer_extends).
  - intros b. exists []. rewrite app_nil_r. reflexivity.
  - intros b1 b2 b3 [l1 H1] [l2 H2]. exists (l1 ++ l2).
    rewrite H2, H1, app_assoc. reflexivity.
  - intros b x ok b' d _ Hadd.
    destruct (add_pcm_sample_samples _ _ _ _ _ Hadd) as [(_ & Hs & _) | (_ & -> & _)].
    + exists [x]. exact Hs.
    + exists []. rewrite app_nil_r. reflexivity.
Qed.

Lemma decode_loop_only_appends_witness :
  buffer_extends (mkPcmBuffer [5] 2048) (mkPcmBuffer [5; 1280; 3712] 2048).
Proof.
  assert (Hrun : decode_loop [x80; x01; x77; x00] 0 10
                   (mkDecodeState 0 (mkAdpcmState 0 0) (mkPcmBuffer [5] 2048)
                      true false 0 0 0 0 [])
                 = Finished (mkDecodeState 4 (mkAdpcmState 29 6)
                               (mkPcmBuffer [5; 1280; 3712] 2048)
                               true true 0 0 0 0 []))
    by (vm_compute; reflexivity).
  exact (decode_loop_only_appends _ _ _ _ _ Hrun).
Defined.

(** ** Short blocks *)

(** X4: a short-block command [c] in 0x40..0x7F followed by 128 data bytes
    inside the ROM: after the command pass and one pass per data byte the
    loop is back in the command state behind the data, the repeat counter
    is clear, and it has decoded all 256 nibbles of these bytes, high
    nibble first, into 256 new samples; the rate bits of [c] play no
    part. *)
Theorem short_block_decodes_256
    (rom : list byte) (absolute_msg_idx : Z) (s : DecodeState) (c : Z) :
  let data_start := current_pos s + 1 in
  nibble_count s = 0 -> end_of_message s = false -> decoding_ok s = true ->
  rom_at rom (current_pos s) = Some c -> 64 <= c <= 127 ->
  data_start + 128 <= rom_size rom ->
  adpcm_in_range (adpcm s) -> buffer_wf (pcm_buffer s) ->
  count (pcm_buffer s) + 256 <= PCM_LIMIT ->
  exists s' new,
    loop_steps rom absolute_msg_idx 129 s s' /\
    current_pos s' = data_start + 128 /\
    nibble_count s' = 0 /\ repeat_count s' = 0 /\
    end_of_message s' = false /\ decoding_ok s' = true /\
    decode_nibbles (rom_nibbles rom data_start 128) (adpcm s) (pcm_buffer s)
    = Some (adpcm s', pcm_buffer s') /\
    samples (pcm_buffer s') = samples (pcm_buffer s) ++ new /\
    length new = 256%nat.
Proof.
  intros data_start Hn Heom Hok Hc Hrange Hend Ha Hwf Hroom.
  destruct (rom_at_some_bounds rom _ _ Hc) as [Hpos _].
  set (t := mkDecodeState data_start (adpcm s) (pcm_buffer s) true false 256 0
              (current_repeat_nibble_start s) (current_repeat_nibble_count s)
              (stderr s)).
  assert (Hcmd : loop_body rom absolute_msg_idx s = Continue t).
  { unfold loop_body. rewrite Hn. cbn [Z.gtb Z.compare].
    unfold command_phase. rewrite Hc.
    assert (Hge : (current_pos s >=? rom_size rom) = false) by (subst data_start; lia).
    rewrite Hge.
    assert (H0 : (c =? 0) = false) by lia. rewrite H0.
    assert (H1 : (c >=? 1) && (c <=? 63) = false) by lia. rewrite H1.
    assert (H2 : (c >=? 64) && (c <=? 127) = true) by lia. rewrite H2.
    fields. rewrite Hok, Heom. reflexivity. }
  assert (Hcond : loop_cond rom s = true)
    by (unfold loop_cond; rewrite Heom; subst data_start; lia).
  destruct (play_block rom absolute_msg_idx 128 t)
    as (a' & b' & Hd & Ha' & Hwf' & Hcnt & Hsteps);
    subst t; fields; try assumption; try reflexivity; try (subst data_start; lia).
  match type of Hsteps with loop_steps _ _ _ _ (handle_repeat ?u) =>
    assert (Hrep : handle_repeat u = u) by reflexivity; rewrite Hrep in Hsteps end.
  assert (Hall : firstn (Z.to_nat 256) (rom_nibbles rom data_start 128)
                 = rom_nibbles rom data_start 128).
  { apply firstn_all2. rewrite rom_nibbles_length by (subst data_start; lia).
    change (Z.to_nat 256) with 256%nat. lia. }
  rewrite Hall in Hd.
  destruct (decode_nibbles_samples _ _ _ _ _ Hd) as [new [Hnew Hlen]].
  eexists. exists new.
  split; [eapply loop_steps_S; [exact Hcond | exact Hcmd | exact Hsteps] |].
  fields.
  split; [reflexivity |]. split; [reflexivity |]. split; [reflexivity |].
  split; [reflexivity |]. split; [reflexivity |].
  split; [exact Hd |]. split; [exact Hnew |].
  rewrite Hlen. apply rom_nibbles_length; subst data_start; lia.
Qed.

Lemma short_block_decodes_256_witness :
  exists s' new,
    loop_steps (x40 :: repeat x77 128) 0 129 (init_decode_state 0) s' /\
    current_pos s' = 129 /\
    samples (pcm_buffer s') = [] ++ new /\
    length new = 256%nat.
Proof.
  assert (H1 : rom_at (x40 :: repeat x77 128) (current_pos (init_decode_state 0))
               = Some 64) by reflexivity.
  assert (H2 : current_pos (init_decode_state 0) + 1 + 128
               <= rom_size (x40 :: repeat x77 128)) by (vm_compute; discriminate).
  assert (H3 : adpcm_in_range (adpcm (init_decode_state 0)))
    by (unfold adpcm_in_range; simpl; lia).
  assert (H4 : count (pcm_buffer (init_decode_state 0)) + 256 <= PCM_LIMIT)
    by (vm_compute; discriminate).
  assert (H5 : 64 <= 64 <= 127) by lia.
  destruct (short_block_decodes_256 (x40 :: repeat x77 128) 0 (init_decode_state 0) 64
              eq_refl eq_refl eq_refl H1 H5 H2 H3
              buffer_wf_init H4)
    as (s' & new & Hs & Hp & _ & _ & _ & _ & _ & Hn & Hl).
  exists s', new. split; [exact Hs |]. split; [exact Hp |]. split; [exact Hn | exact Hl].
Defined.

(** ** [process_message] as a whole *)

(** [process_message] has one answer. *)
Lemma process_message_true
    (rom : list byte)
    (segment_start_offset segment_index_0_based msg_idx_in_segment
     absolute_msg_idx message_offset_in_segment next_message_offset_in_segment : Z)
    (mapping : option MessageMapping) (rom_basename : string)
    (continue : bool) (evs : list event) :
  process_message rom segment_start_offset segment_index_0_based
    msg_idx_in_segment absolute_msg_idx message_offset_in_segment
    next_message_offset_in_segment mapping rom_basename
  = Finished (continue, evs) ->
  continue = true.
Proof.
  unfold process_message.
  destruct (_ >=? rom_size rom); [intros [= <- _]; reflexivity |].
  destruct (rom_at rom _) as [mode |]; [| discriminate].
  destruct (mode =? MODE_ADPCM).
  - destruct (decode_loop rom absolute_msg_idx (decode_fuel rom) _) as [s | |];
      try discriminate.
    destruct (decoding_ok s && (count (pcm_buffer s) >? 0));
      [intros [= <- _]; reflexivity |].
    destruct (decoding_ok s && (count (pcm_buffer s) =? 0));
      intros [= <- _]; reflexivity.
  - destruct (mode =? MODE_PCM); [| intros [= <- _]; reflexivity].
    destruct (_ <=? _); intros [= <- _]; reflexivity.
Qed.

(** On a ROM below 4 GiB it comes to an end, with every read inside the
    ROM. *)
Lemma process_message_total
    (rom : list byte)
    (segment_start_offset segment_index_0_based msg_idx_in_segment
     absolute_msg_idx message_offset_in_segment next_message_offset_in_segment : Z)
    (mapping : option MessageMapping) (rom_basename : string) :
  rom_size rom < 2 ^ 32 ->
  0 <= segment_start_offset + message_offset_in_segment ->
  exists r,
    process_message rom segment_start_offset segment_index_0_based
      msg_idx_in_segment absolute_msg_idx message_offset_in_segment
      next_message_offset_in_segment mapping rom_basename
    = Finished r.
Proof.
  intros Hsmall Hpos. unfold process_message.
  destruct (segment_start_offset + message_offset_in_segment >=? rom_size rom) eqn:Hge;
    [eexists; reflexivity |].
  destruct (rom_at_in_bounds rom (segment_start_offset + message_offset_in_segment))
    as [mode [-> _]]; [lia |].
  destruct (mode =? MODE_ADPCM).
  - destruct (decode_fuel_enough rom absolute_msg_idx Hsmall
                (segment_start_offset + message_offset_in_segment + 1))
      as [s' ->]; [lia |].
    destruct (decoding_ok s' && (count (pcm_buffer s') >? 0)); [eexists; reflexivity |].
    destruct (decoding_ok s' && (count (pcm_buffer s') =? 0)); eexists; reflexivity.
  - destruct (mode =? MODE_PCM); [| eexists; reflexivity].
    match goal with |- context [if ?c then Finished _ else Finished _] =>
      destruct c end; eexists; reflexivity.
Qed.

(** X5: on a ROM below 4 GiB [process_message] comes to an end for every
    record, without reading outside of the ROM, and it answers [true]:
    whatever goes wrong inside one message (a start out of bounds, an
    unknown mode, a failed decode, an empty raw range) is reported and the
    caller is told to go on. *)
Theorem process_message_always_continues
    (rom : list byte)
    (segment_start_offset segment_index_0_based msg_idx_in_segment
     absolute_msg_idx message_offset_in_segment next_message_offset_in_segment : Z)
    (mapping : option MessageMapping) (rom_basename : string) :
  rom_size rom < 2 ^ 32 ->
  0 <= segment_start_offset + message_offset_in_segment ->
  exists evs,
    process_message rom segment_start_offset segment_index_0_based
      msg_idx_in_segment absolute_msg_idx message_offset_in_segment
      next_message_offset_in_segment mapping rom_basename
    = Finished (true, evs).
Proof.
  intros Hsmall Hpos.
  destruct (process_message_total rom segment_start_offset segment_index_0_based
              msg_idx_in_segment absolute_msg_idx message_offset_in_segment
              next_message_offset_in_segment mapping rom_basename Hsmall Hpos)
    as [[continue evs] Hrun].
  exists evs. rewrite Hrun. rewrite (process_message_true _ _ _ _ _ _ _ _ _ _ _ Hrun).
  reflexivity.
Qed.

Lemma process_message_always_continues_witness :
  exists evs,
    process_message [x00; xc8; x01; x77; x00] 0 0 0 0 0 ROM_SEGMENT_SIZE None "rom.bin"
    = Finished (true, evs).
Proof.
  assert (H1 : rom_size [x00; xc8; x01; x77; x00] < 2 ^ 32) by (vm_compute; reflexivity).
  assert (H2 : 0 <= 0 + 0) by lia.
  exact (process_message_always_continues [x00; xc8; x01; x77; x00] 0 0 0 0 0
           ROM_SEGMENT_SIZE None "rom.bin" H1 H2).
Defined.

(** ** Reading the segment header *)

Lemma lor_shiftl_8 (b0 b1 : Z) :
  0 <= b0 -> 0 <= b1 < 256 -> Z.lor (Z.shiftl b0 8) b1 = 256 * b0 + b1.
Proof.
  intros H0 H1.
  assert (Hland : Z.land (Z.shiftl b0 8) b1 = 0).
  { replace b1 with (Z.land b1 (Z.ones 8))
      by (rewrite Z.land_ones by lia; apply Z.mod_small; change (2 ^ 8) with 256; lia).
    rewrite (Z.land_comm b1), Z.land_assoc, Z.land_ones by lia.
    rewrite Z.shiftl_mul_pow2 by lia. rewrite Z.mod_mul by lia. reflexivity. }
  pose proof (Z.add_lor_land (Z.shiftl b0 8) b1) as Hadd.
  rewrite Hland in Hadd.
  assert (Hmul : Z.shiftl b0 8 = b0 * 256) by (apply Z.shiftl_mul_pow2; lia).
  lia.
Qed.

Lemma read_u16be_bytes (rom : list byte) (pos b0 b1 : Z) :
  rom_at rom pos = Some b0 -> rom_at rom (pos + 1) = Some b1 ->
  read_u16be rom pos = Some (256 * b0 + b1) /\ 0 <= 256 * b0 + b1 < 65536.
Proof.
  intros H0 H1.
  destruct (rom_at_some_bounds rom _ _ H0) as [_ R0].
  destruct (rom_at_some_bounds rom _ _ H1) as [_ R1].
  unfold read_u16be. rewrite H0, H1.
  rewrite lor_shiftl_8 by lia. unfold to_uint16.
  rewrite Z.mod_small by (change (2 ^ 16) with 65536; lia).
  split; [reflexivity | lia].
Qed.

(** X6: [read_u16be] on two bytes inside the ROM gives the big-endian
    word, the first byte being the high one; it is below 65536. *)
Theorem read_u16be_big_endian (rom : list byte) (pos : Z) :
  0 <= pos -> pos + 2 <= rom_size rom ->
  exists b0 b1,
    rom_at rom pos = Some b0 /\ rom_at rom (pos + 1) = Some b1 /\
    read_u16be rom pos = Some (256 * b0 + b1) /\
    0 <= 256 * b0 + b1 < 65536.
Proof.
  intros Hpos Hend.
  destruct (rom_at_in_bounds rom pos) as [b0 [H0 R0]]; [lia |].
  destruct (rom_at_in_bounds rom (pos + 1)) as [b1 [H1 R1]]; [lia |].
  exists b0, b1. split; [exact H0 |]. split; [exact H1 |].
  apply read_u16be_bytes; assumption.
Qed.

Lemma read_u16be_big_endian_witness :
  exists b0 b1,
    rom_at [x12; x34] 0 = Some b0 /\ rom_at [x12; x34] (0 + 1) = Some b1 /\
    read_u16be [x12; x34] 0 = Some (256 * b0 + b1) /\
    0 <= 256 * b0 + b1 < 65536.
Proof.
  assert (H1 : 0 <= 0) by lia.
  assert (H2 : 0 + 2 <= rom_size [x12; x34]) by (vm_compute; discriminate).
  exact (read_u16be_big_endian [x12; x34] 0 H1 H2).
Defined.

Lemma index_in_bounds {A : Type} (l : list A) (i : Z) :
  0 <= i < Z.of_nat (length l) -> exists x, index l i = Some x.
Proof.
  intros H. unfold index.
  destruct (Z.ltb_spec i 0) as [Hneg | _]; [lia |].
  destruct (nth_error l (Z.to_nat i)) as [x |] eqn:Hnth; [exists x; reflexivity |].
  apply nth_error_None in Hnth. lia.
Qed.

(** X7: the loop that fills the offset table: with the [count] words
    inside the ROM it reads every one of them, and entry [i] of the table
    is the big-endian word at [pos + 2 * i]. *)
Theorem read_offset_table_entries (rom : list byte) (count : nat) :
  forall pos : Z,
    0 <= pos -> pos + 2 * Z.of_nat count <= rom_size rom ->
    exists offset_table,
      read_offset_table rom pos count = Some offset_table /\
      length offset_table = count /\
      forall i, 0 <= i < Z.of_nat count ->
                index offset_table i = read_u16be rom (pos + 2 * i) /\
                index offset_table i <> None.
Proof.
  induction count as [| count IH]; intros pos Hpos Hend.
  - exists []. split; [reflexivity |]. split; [reflexivity |]. intros i Hi.
    cbn [length Z.of_nat] in Hi. lia.
  - destruct (rom_at_in_bounds rom pos) as [b0 [H0 _]]; [lia |].
    destruct (rom_at_in_bounds rom (pos + 1)) as [b1 [H1 _]]; [lia |].
    destruct (read_u16be_bytes rom pos b0 b1 H0 H1) as [Hw _].
    destruct (IH (pos + 2)) as (rest & Hrest & Hlen & Hentries); [lia | lia |].
    exists (256 * b0 + b1 :: rest). cbn [read_offset_table]. rewrite Hw, Hrest.
    split; [reflexivity |]. split; [cbn [length]; rewrite Hlen; reflexivity |].
    intros i Hi. destruct (Z.eq_dec i 0) as [-> | Hne].
    + replace (pos + 2 * 0) with pos by lia. rewrite Hw.
      split; [reflexivity | discriminate].
    + destruct (Hentries (i - 1)) as [He Hn]; [lia |].
      replace (pos + 2 + 2 * (i - 1)) with (pos + 2 * i) in He by lia.
      assert (Hidx : index (256 * b0 + b1 :: rest) i = index rest (i - 1)).
      { unfold index.
        destruct (Z.ltb_spec i 0) as [Hneg | _]; [lia |].
        destruct (Z.ltb_spec (i - 1) 0) as [Hneg | _]; [lia |].
        replace (Z.to_nat i) with (S (Z.to_nat (i - 1))) by lia. reflexivity. }
      rewrite Hidx. split; [exact He | exact Hn].
Qed.

Lemma read_offset_table_entries_witness :
  exists offset_table,
    read_offset_table [x00; x03; x12; x34] 0 2 = Some offset_table /\
    length offset_table = 2%nat /\
    forall i, 0 <= i < Z.of_nat 2 ->
              index offset_table i = read_u16be [x00; x03; x12; x34] (0 + 2 * i) /\
              index offset_table i <> None.
Proof.
  assert (H1 : 0 <= 0) by lia.
  assert (H2 : 0 + 2 * Z.of_nat 2 <= rom_size [x00; x03; x12; x34])
    by (vm_compute; discriminate).
  exact (read_offset_table_entries [x00; x03; x12; x34] 2 0 H1 H2).
Defined.

Lemma read_offset_table_length (rom : list byte) (count : nat) :
  forall pos : Z,
    0 <= pos -> pos + 2 * Z.of_nat count <= rom_size rom ->
    exists offset_table,
      read_offset_table rom pos count = Some offset_table /\
      length offset_table = count.
Proof.
  induction count as [| count IH]; intros pos Hpos Hend.
  - exists []. auto.
  - destruct (rom_at_in_bounds rom pos) as [b0 [H0 _]]; [lia |].
    destruct (rom_at_in_bounds rom (pos + 1)) as [b1 [H1 _]]; [lia |].
    destruct (read_u16be_bytes rom pos b0 b1 H0 H1) as [Hw _].
    destruct (IH (pos + 2)) as (rest & Hrest & Hlen); [lia | lia |].
    exists (256 * b0 + b1 :: rest). cbn [read_offset_table]. rewrite Hw, Hrest.
    split; [reflexivity | cbn [length]; rewrite Hlen; reflexivity].
Qed.

Lemma memcmp_differs_in_bounds (rom : list byte) (ref : list byte) :
  forall pos : Z,
    0 <= pos -> pos + Z.of_nat (length ref) <= rom_size rom ->
    exists differs, memcmp_differs rom pos ref = Some differs.
Proof.
  induction ref as [| r ref IH]; intros pos Hpos Hend; cbn [memcmp_differs].
  - exists false. reflexivity.
  - cbn [length] in Hend.
    destruct (rom_at_in_bounds rom pos) as [b [-> _]]; [lia |].
    destruct (b =? byte_val r); [apply IH; lia | exists true; reflexivity].
Qed.

(** The magic check of a segment header passes exactly when the four
    bytes behind the count byte are 5A A5 69 55. *)
Theorem magic_check_passes_iff (rom : list byte) (segment_start : Z) :
  memcmp_differs rom (segment_start + 1) ROM_MAGIC = Some false <->
  rom_at rom (segment_start + 1) = Some 90 /\
  rom_at rom (segment_start + 2) = Some 165 /\
  rom_at rom (segment_start + 3) = Some 105 /\
  rom_at rom (segment_start + 4) = Some 85.
Proof.
  unfold ROM_MAGIC. cbn [memcmp_differs].
  replace (segment_start + 1 + 1) with (segment_start + 2) by lia.
  replace (segment_start + 2 + 1) with (segment_start + 3) by lia.
  replace (segment_start + 3 + 1) with (segment_start + 4) by lia.
  change (byte_val x5a) with 90. change (byte_val xa5) with 165.
  change (byte_val x69) with 105. change (byte_val x55) with 85.
  split.
  - destruct (rom_at rom (segment_start + 1)) as [b1 |]; [| discriminate].
    destruct (Z.eqb_spec b1 90) as [-> | _]; [| discriminate].
    destruct (rom_at rom (segment_start + 2)) as [b2 |]; [| discriminate].
    destruct (Z.eqb_spec b2 165) as [-> | _]; [| discriminate].
    destruct (rom_at rom (segment_start + 3)) as [b3 |]; [| discriminate].
    destruct (Z.eqb_spec b3 105) as [-> | _]; [| discriminate].
    destruct (rom_at rom (segment_start + 4)) as [b4 |]; [| discriminate].
    destruct (Z.eqb_spec b4 85) as [-> | _]; [| discriminate].
    auto.
  - intros (-> & -> & -> & ->). reflexivity.
Qed.

(** ** [find_mapping] *)

Lemma find_mapping_some (table : MappingTable) (seg idx : Z) (m : MessageMapping) :
  find_mapping table seg idx = Some m ->
  exists before after,
    table = before ++ m :: after /\ mapping_matches seg idx m = true /\
    forallb (fun m' => negb (mapping_matches seg idx m')) before = true.
Proof.
  induction table as [| m0 table IH]; cbn [find_mapping]; [discriminate |].
  destruct ((segment_index m0 =? seg) && (message_index_in_seg m0 =? idx)) eqn:Hm.
  - intros [= <-]. exists [], table. auto.
  - intros H. destruct (IH H) as (before & after & -> & Hmatch & Hbefore).
    exists (m0 :: before), after. split; [reflexivity |]. split; [exact Hmatch |].
    cbn [forallb]. unfold mapping_matches at 1. rewrite Hm, Hbefore. reflexivity.
Qed.

Lemma find_mapping_none (table : MappingTable) (seg idx : Z) :
  find_mapping table seg idx = None ->
  forallb (fun m' => negb (mapping_matches seg idx m')) table = true.
Proof.
  induction table as [| m0 table IH]; [reflexivity |].
  cbn [find_mapping forallb]. unfold mapping_matches at 1.
  destruct ((segment_index m0 =? seg) && (message_index_in_seg m0 =? idx));
    [discriminate |].
  cbn [negb andb]. exact IH.
Qed.

(** X8: [find_mapping] answers with the first entry of the table that
    carries the segment and the index asked for, and with no entry
    exactly when none carries them. *)
Theorem find_mapping_first_match (table : MappingTable) (seg idx : Z) :
  match find_mapping table seg idx with
  | Some m =>
      exists before after,
        table = before ++ m :: after /\ mapping_matches seg idx m = true /\
        forallb (fun m' => negb (mapping_matches seg idx m')) before = true
  | None => forallb (fun m' => negb (mapping_matches seg idx m')) table = true
  end.
Proof.
  destruct (find_mapping table seg idx) as [m |] eqn:Hfind.
  - apply find_mapping_some. exact Hfind.
  - apply find_mapping_none. exact Hfind.
Qed.

(** ** The whole run comes to an end *)

Lemma strlen_append (a b : string) : strlen (a ++ b) = strlen a + strlen b.
Proof.
  unfold strlen. induction a as [| c a IH]; [reflexivity |].
  cbn [String.append String.length]. lia.
Qed.

Lemma strlen_nonneg (a : string) : 0 <= strlen a.
Proof.
  unfold strlen. lia.
Qed.

(** The comment field is at most the eight characters of the hash, the
    PCM marker and the space longer than the comment of the mapping. *)
Lemma build_comment_length (mode_read_ok : bool) (message_mode : Z)
    (user_comment : option string) :
  strlen (build_comment mode_read_ok message_mode user_comment)
  <= 8 + match user_comment with Some c => strlen c | None => 0 end.
Proof.
  unfold build_comment.
  destruct (mode_read_ok && (message_mode =? MODE_PCM)
            && negb match user_comment with
                    | Some c => strstr c "(PCM)"
                    | None => false
                    end) eqn:Htag;
    cbn [orb negb]; change (("#" =? "#")%string) with true; cbv iota;
    (destruct user_comment as [c |];
     [pose proof (strlen_nonneg c); destruct (strlen c >? 0) |]);
    rewrite ?strlen_append; change (strlen "#") with 1;
    change (strlen " (PCM)") with 6; change (strlen " ") with 1; lia.
Qed.

Lemma find_mapping_In (table : MappingTable) (seg idx : Z) (m : MessageMapping) :
  find_mapping table seg idx = Some m -> In m table.
Proof.
  intros H. destruct (find_mapping_some _ _ _ _ H) as (before & after & -> & _).
  apply in_or_app. right. left. reflexivity.
Qed.

Section WalkTotal.

Variable rom : list byte.
Variable mapping_table : MappingTable.
Variable rom_basename : string.
Variables list_mode quiet_mode : bool.
Variable target_message_idx : Z.

Hypothesis rom_small : rom_size rom < 2 ^ 32.
Hypothesis comments_fit :
  list_mode = true -> quiet_mode = false -> Forall comment_fits mapping_table.

Lemma list_message_total (start_address seg idx : Z) :
  list_mode = true -> quiet_mode = false ->
  exists ev,
    list_message rom start_address seg idx (find_mapping mapping_table seg idx)
    = Finished ev.
Proof.
  intros Hl Hq. unfold list_message.
  match goal with |- context [build_comment ?a ?b ?c] =>
    pose proof (build_comment_length a b c) as Hlen;
    destruct (strlen (build_comment a b c) >=? 256) eqn:Hbig end;
    [| eexists; reflexivity].
  exfalso.
  destruct (find_mapping mapping_table seg idx) as [m |] eqn:Hfind; [| lia].
  pose proof (proj1 (Forall_forall _ _) (comments_fit Hl Hq) m
                (find_mapping_In _ _ _ _ Hfind)) as Hfit.
  unfold comment_fits in Hfit. destruct (comment m) as [c |]; lia.
Qed.

(** One record: the iteration comes to an end, and not with an error. *)
Lemma handle_message_iteration_total
    (seg_start seg idx abs : Z) (offset_table : list Z) (message_count : Z) :
  0 <= seg_start -> 0 <= idx < message_count ->
  message_count = Z.of_nat (length offset_table) ->
  exists r ev,
    handle_message_iteration rom seg_start seg idx abs offset_table message_count
      mapping_table rom_basename list_mode quiet_mode target_message_idx
    = Finished (r, ev) /\ r <> MSG_HANDLED_ERROR.
Proof.
  intros Hstart Hidx Hcount. unfold handle_message_iteration.
  destruct (index_in_bounds offset_table idx) as [words ->]; [lia |].
  assert (Hl : list_mode = true \/ list_mode = false) by (destruct list_mode; auto).
  assert (Hq : quiet_mode = true \/ quiet_mode = false) by (destruct quiet_mode; auto).
  destruct Hl as [Hl | Hl]; rewrite Hl.
  - destruct Hq as [Hq | Hq]; rewrite Hq; cbn [negb].
    + eexists _, _. split; [reflexivity | discriminate].
    + destruct (list_message_total (seg_start + to_uint32 (words * 2)) seg idx Hl Hq)
        as [ev ->].
      eexists _, _. split; [reflexivity | discriminate].
  - destruct ((target_message_idx <? 0) || (abs =? target_message_idx));
      [| eexists _, _; split; [reflexivity | discriminate]].
    assert (Hnext : exists next,
               (if idx + 1 <? message_count
                then option_map (fun w => to_uint32 (w * 2)) (index offset_table (idx + 1))
                else Some ROM_SEGMENT_SIZE) = Some next).
    { destruct (idx + 1 <? message_count) eqn:Hlast; [| eexists; reflexivity].
      destruct (index_in_bounds offset_table (idx + 1)) as [w' ->]; [lia |].
      eexists. reflexivity. }
    destruct Hnext as [next ->].
    assert (H0 : 0 <= seg_start + to_uint32 (words * 2)).
    { unfold to_uint32. pose proof (Z.mod_pos_bound (words * 2) (2 ^ 32)). lia. }
    destruct (process_message_total rom seg_start seg idx abs (to_uint32 (words * 2))
                next (find_mapping mapping_table seg idx) rom_basename rom_small H0)
      as [[continue ev] Hrun].
    rewrite Hrun. rewrite (process_message_true _ _ _ _ _ _ _ _ _ _ _ Hrun).
    cbn [negb].
    destruct ((target_message_idx >=? 0) && (abs =? target_message_idx));
      eexists _, _; (split; [reflexivity | discriminate]).
Qed.

Lemma message_loop_total (offset_table : list Z) (message_count : Z)
    (remaining : nat) :
  forall (idx : Z) (w : WalkState),
    0 <= segment_start w -> 0 <= idx ->
    idx + Z.of_nat remaining = message_count ->
    message_count = Z.of_nat (length offset_table) ->
    exists w1,
      message_loop rom mapping_table rom_basename list_mode quiet_mode
        target_message_idx remaining idx offset_table message_count w
      = Finished (false, w1).
Proof.
  induction remaining as [| remaining IH]; intros idx w Hstart Hidx Hrem Hcount;
    cbn [message_loop]; [eexists; reflexivity |].
  destruct (handle_message_iteration_total (segment_start w) (segment_index_0_based w)
              idx (absolute_msg_idx_counter w + idx) offset_table message_count)
    as (r & ev & -> & Hr); [lia | lia | exact Hcount |].
  destruct r; [| eexists; reflexivity | congruence].
  apply IH; cbn [segment_start]; lia.
Qed.

Lemma segment_body_total (w : WalkState) :
  0 <= segment_start w ->
  exists w',
    (segment_body rom mapping_table rom_basename list_mode quiet_mode
       target_message_idx w = WalkContinue w' /\
     segment_start w' = segment_start w) \/
    segment_body rom mapping_table rom_basename list_mode quiet_mode
      target_message_idx w = WalkBreak w'.
Proof.
  intros Hstart. unfold segment_body.
  destruct (segment_start w + 5 >? rom_size rom) eqn:Hshort.
  { destruct (segment_index_0_based w >? 0); eexists; right; reflexivity. }
  destruct (rom_at_in_bounds rom (segment_start w)) as [last [-> Hlast]]; [lia |].
  destruct (memcmp_differs_in_bounds rom ROM_MAGIC (segment_start w + 1))
    as [differs ->]; [lia | unfold ROM_MAGIC; cbn [length]; lia |].
  destruct differs.
  { destruct (segment_index_0_based w =? 0); eexists; right; reflexivity. }
  rewrite (to_uint32_id (last + 1)) by (change (2 ^ 32) with 4294967296; lia).
  destruct ((segment_start w + 5 + (last + 1) * 2 >? rom_size rom)
            || (segment_start w + 5 + (last + 1) * 2
                >? segment_start w + ROM_SEGMENT_SIZE)) eqn:Htable.
  { eexists; right; reflexivity. }
  destruct (read_offset_table_length rom (Z.to_nat (last + 1)) (segment_start w + 5))
    as (tbl & -> & Hlen); [lia | lia |].
  destruct (message_loop_total tbl (last + 1) (Z.to_nat (last + 1)) 0 w)
    as [w1 Hloop]; [lia | lia | lia | lia |].
  rewrite Hloop. cbn [orb target_found_and_processed].
  destruct (target_found_and_processed w1).
  - eexists; right; reflexivity.
  - eexists; left; split; [reflexivity |]. cbn [segment_start].
    apply (message_loop_frame _ _ _ _ _ _ _ _ _ _ _ _ _ Hloop).
Qed.

Lemma segment_loop_total (fuel : nat) :
  forall w : WalkState,
    0 <= segment_start w ->
    rom_size rom <= segment_start w + Z.of_nat fuel * ROM_SEGMENT_SIZE ->
    exists w',
      segment_loop rom mapping_table rom_basename list_mode quiet_mode
        target_message_idx fuel w = Finished w'.
Proof.
  induction fuel as [| fuel IH]; intros w Hstart Hfuel.
  - cbn [segment_loop].
    assert (H : (segment_start w <? rom_size rom) = false) by lia. rewrite H.
    destruct (segment_start w <? rom_size rom); eexists; reflexivity.
  - cbn [segment_loop].
    destruct (segment_start w <? rom_size rom); [| eexists; reflexivity].
    destruct (segment_body_total w Hstart) as [w' [[-> Hsame] | ->]];
      [| eexists; reflexivity].
    apply IH; unfold next_segment; cbn [segment_start]; unfold ROM_SEGMENT_SIZE in *; lia.
Qed.

Lemma main_total :
  exists r,
    main rom mapping_table rom_basename list_mode quiet_mode target_message_idx
    = Finished r.
Proof.
  unfold main. destruct (rom_size rom =? 0); [eexists; reflexivity |].
  match goal with |- context [init_walk_state ?h] =>
    destruct (segment_loop_total (segment_fuel rom) (init_walk_state h)) as [w ->] end.
  - cbn [init_walk_state segment_start]. lia.
  - cbn [init_walk_state segment_start]. unfold segment_fuel, ROM_SEGMENT_SIZE, rom_size.
    div_lia.
  - match goal with |- context [if ?c then _ else _] => destruct c end;
      eexists; reflexivity.
Qed.

End WalkTotal.

(** ** What a run prints and how it exits *)

Lemma handle_message_iteration_no_error
    (rom : list byte) (seg_start seg idx abs : Z) (offset_table : list Z)
    (message_count : Z) (mapping_table : MappingTable) (rom_basename : string)
    (list_mode quiet_mode : bool) (target_message_idx : Z)
    (r : HandleMessageResult) (ev : list event) :
  handle_message_iteration rom seg_start seg idx abs offset_table message_count
    mapping_table rom_basename list_mode quiet_mode target_message_idx
  = Finished (r, ev) ->
  r <> MSG_HANDLED_ERROR.
Proof.
  unfold handle_message_iteration.
  destruct (index offset_table idx) as [words |]; [| discriminate].
  destruct list_mode.
  - destruct (negb quiet_mode); [| intros [= <- _]; discriminate].
    destruct (list_message _ _ _ _ _); try discriminate.
    intros [= <- _]. discriminate.
  - destruct ((target_message_idx <? 0) || (abs =? target_message_idx));
      [| intros [= <- _]; discriminate].
    destruct (if idx + 1 <? message_count then _ else _) as [next |];
      [| discriminate].
    destruct (process_message _ _ _ _ _ _ _ _ _) as [[continue ev'] | |] eqn:Hrun;
      try discriminate.
    rewrite (process_message_true _ _ _ _ _ _ _ _ _ _ _ Hrun). cbn [negb].
    destruct ((target_message_idx >=? 0) && (abs =? target_message_idx));
      intros [= <- _]; discriminate.
Qed.

Section WalkOutput.

Variable rom : list byte.
Variable mapping_table : MappingTable.
Variable rom_basename : string.
Variables list_mode quiet_mode : bool.
Variable target_message_idx : Z.

Variable J : bool -> list event -> Prop.

Hypothesis J_nil : J false [].
Hypothesis J_header :
  list_mode = true -> quiet_mode = false -> J false [list_header rom_basename].
Hypothesis J_step :
  forall out seg_start seg idx abs offset_table message_count r ev,
    J false out ->
    handle_message_iteration rom seg_start seg idx abs offset_table message_count
      mapping_table rom_basename list_mode quiet_mode target_message_idx
    = Finished (r, ev) ->
    J match r with MSG_HANDLED_TARGET_FOUND => true | _ => false end (out ++ ev).

Lemma message_loop_J (offset_table : list Z) (message_count : Z) (remaining : nat) :
  forall idx w err w1,
    target_found_and_processed w = false -> J false (output w) ->
    message_loop rom mapping_table rom_basename list_mode quiet_mode
      target_message_idx remaining idx offset_table message_count w
    = Finished (err, w1) ->
    err = false /\ exit_code w1 = exit_code w /\
    J (target_found_and_processed w1) (output w1).
Proof.
  induction remaining as [| remaining IH]; intros idx w err w1 Hf HJ H;
    cbn [message_loop] in H.
  - injection H as <- <-. rewrite Hf. auto.
  - destruct (handle_message_iteration _ _ _ _ _ _ _ _ _ _ _ _) as [[r ev] | |] eqn:Hit;
      try discriminate.
    pose proof (J_step _ _ _ _ _ _ _ _ _ HJ Hit) as Hstep.
    pose proof (handle_message_iteration_no_error _ _ _ _ _ _ _ _ _ _ _ _ _ _ Hit) as Hr.
    destruct r; [| | congruence].
    + apply IH in H; [exact H | reflexivity || exact Hf | exact Hstep].
    + injection H as <- <-. cbn [exit_code target_found_and_processed output]. auto.
Qed.

Lemma segment_body_J (w : WalkState) :
  target_found_and_processed w = false -> exit_code w = EXIT_SUCCESS ->
  J false (output w) ->
  match segment_body rom mapping_table rom_basename list_mode quiet_mode
          target_message_idx w with
  | WalkContinue w' =>
      target_found_and_processed w' = false /\ exit_code w' = EXIT_SUCCESS /\
      J false (output w')
  | WalkBreak w' => walk_end J w'
  | WalkUndefined => True
  | WalkOutOfFuel => True
  end.
Proof.
  intros Hf He HJ.
  assert (Hsoft : walk_end J w) by (left; rewrite Hf; auto).
  assert (Hfail : forall d, fatal_diag d = true -> walk_end J (fail_walk w d)).
  { intros d Hd. right. unfold fail_walk. cbn [exit_code target_found_and_processed output].
    split; [reflexivity |]. split; [exact Hf |]. exists (output w), d. auto. }
  unfold segment_body.
  destruct (segment_start w + 5 >? rom_size rom).
  { destruct (segment_index_0_based w >? 0); [exact Hsoft | apply Hfail; reflexivity]. }
  destruct (rom_at rom (segment_start w)) as [last |]; [| exact I].
  destruct (memcmp_differs rom (segment_start w + 1) ROM_MAGIC) as [[|] |]; [| | exact I].
  { destruct (segment_index_0_based w =? 0); [apply Hfail; reflexivity | exact Hsoft]. }
  destruct (_ || _); [apply Hfail; reflexivity |].
  destruct (read_offset_table _ _ _) as [tbl |]; [| exact I].
  destruct (message_loop _ _ _ _ _ _ _ _ _ _ _) as [[err w1] | |] eqn:Hloop;
    [| exact I | exact I].
  destruct (message_loop_J _ _ _ _ _ _ _ Hf HJ Hloop) as (-> & Hcode & HJ1).
  cbn [orb target_found_and_processed].
  destruct (target_found_and_processed w1) eqn:Hf1.
  - left. cbn [exit_code target_found_and_processed output].
    split; [congruence | exact HJ1].
  - cbn [exit_code target_found_and_processed output].
    split; [reflexivity |]. split; [congruence | exact HJ1].
Qed.

Lemma segment_loop_J (fuel : nat) :
  forall w w',
    target_found_and_processed w = false -> exit_code w = EXIT_SUCCESS ->
    J false (output w) ->
    segment_loop rom mapping_table rom_basename list_mode quiet_mode
      target_message_idx fuel w = Finished w' ->
    walk_end J w'.
Proof.
  induction fuel as [| fuel IH]; intros w w' Hf He HJ; cbn [segment_loop];
    destruct (segment_start w <? rom_size rom); try discriminate;
    try (intros [= <-]; left; rewrite Hf; auto).
  pose proof (segment_body_J w Hf He HJ) as Hbody.
  destruct (segment_body _ _ _ _ _ _ w) as [w1 | w1 | |]; try discriminate.
  - destruct Hbody as (Hf1 & He1 & HJ1). apply IH; assumption.
  - intros [= <-]. exact Hbody.
Qed.

Lemma main_J (code : Z) (evs : list event) :
  main rom mapping_table rom_basename list_mode quiet_mode target_message_idx
  = Finished (code, evs) ->
  run_end J (negb list_mode && (target_message_idx >=? 0)) code evs.
Proof.
  unfold main. destruct (rom_size rom =? 0).
  { intros [= <- <-]. right. split; [reflexivity |].
    exists [], ErrInvalidRomSize. auto. }
  set (header := if list_mode && negb quiet_mode then _ else _).
  assert (Hh : J false header); [subst header | clearbody header].
  { assert (Hl : list_mode = true \/ list_mode = false) by (destruct list_mode; auto).
    assert (Hq : quiet_mode = true \/ quiet_mode = false) by (destruct quiet_mode; auto).
    destruct Hl as [Hl | Hl], Hq as [Hq | Hq]; rewrite Hl, Hq; cbn [andb negb];
      try exact J_nil.
    apply J_header; assumption. }
  destruct (segment_loop _ _ _ _ _ _ _ _) as [w | |] eqn:Hloop; try discriminate.
  pose proof (segment_loop_J _ (init_walk_state header) _ eq_refl eq_refl Hh Hloop)
    as Hend.
  destruct Hend as [[He HJ] | (He & Hf & out & d & Hout & Hd & HJ)].
  - destruct (negb list_mode && (target_message_idx >=? 0)
              && negb (target_found_and_processed w)
              && negb (exit_code w =? EXIT_FAILURE)) eqn:Hmiss; intros [= <- <-].
    + right. split; [reflexivity |].
      exists (output w), (ErrTargetNotFound target_message_idx).
      split; [reflexivity |]. split; [reflexivity |].
      destruct (target_found_and_processed w); [| exact HJ].
      rewrite Bool.andb_false_r in Hmiss. discriminate.
    + left. split; [exact He |]. exists (target_found_and_processed w).
      split; [exact HJ |]. intros Hwanted. rewrite Hwanted, He in Hmiss.
      change (EXIT_SUCCESS =? EXIT_FAILURE) with false in Hmiss.
      cbn [negb andb] in Hmiss. rewrite Bool.andb_true_r in Hmiss.
      destruct (target_found_and_processed w); [reflexivity | discriminate].
  - rewrite He. change (EXIT_FAILURE =? EXIT_FAILURE) with true.
    rewrite Bool.andb_false_r. intros [= <- <-]. right.
    split; [reflexivity |]. exists out, d. auto.
Qed.

End WalkOutput.

(** X9: [main] comes to an end on every ROM below 4 GiB, whatever the
    mapping table and the flags, provided that in a listing that is not
    quiet the comments of the mapping table have at most 247 characters:
    no read leaves the ROM, the offset table or the ADPCM tables, and the
    exit code is [EXIT_SUCCESS] or [EXIT_FAILURE]. *)
Theorem main_terminates
    (rom : list byte) (mapping_table : MappingTable) (rom_basename : string)
    (list_mode quiet_mode : bool) (target_message_idx : Z) :
  rom_size rom < 2 ^ 32 ->
  (list_mode = true -> quiet_mode = false -> Forall comment_fits mapping_table) ->
  exists code evs,
    main rom mapping_table rom_basename list_mode quiet_mode target_message_idx
    = Finished (code, evs) /\
    (code = EXIT_SUCCESS \/ code = EXIT_FAILURE).
Proof.
  intros Hsmall Hfit.
  destruct (main_total rom mapping_table rom_basename list_mode quiet_mode
              target_message_idx Hsmall Hfit) as [[code evs] Hrun].
  exists code, evs. split; [exact Hrun |].
  destruct (main_J rom mapping_table rom_basename list_mode quiet_mode
              target_message_idx (fun _ _ => True) I (fun _ _ => I)
              (fun _ _ _ _ _ _ _ _ _ _ _ => I) code evs Hrun) as [[He _] | [He _]];
    auto.
Qed.

Lemma main_terminates_witness :
  exists code evs,
    main one_message_rom [mkMessageMapping 0 0 "greeting" (Some "hello"%string)]
      "rom.bin" true false (-1)
    = Finished (code, evs) /\
    (code = EXIT_SUCCESS \/ code = EXIT_FAILURE).
Proof.
  assert (H1 : rom_size one_message_rom < 2 ^ 32) by (vm_compute; reflexivity).
  assert (H2 : true = true -> false = false ->
               Forall comment_fits
                 [mkMessageMapping 0 0 "greeting" (Some "hello"%string)]).
  { intros _ _. constructor; [| constructor]. unfold comment_fits, strlen.
    cbn. lia. }
  exact (main_terminates one_message_rom
           [mkMessageMapping 0 0 "greeting" (Some "hello"%string)]
           "rom.bin" true false (-1) H1 H2).
Defined.

Lemma build_comment_lower (mode_read_ok : bool) (message_mode : Z) (c : string) :
  0 < strlen c ->
  2 + strlen c <= strlen (build_comment mode_read_ok message_mode (Some c)).
Proof.
  intros Hc. unfold build_comment.
  assert (Hpos : (strlen c >? 0) = true) by lia. rewrite Hpos.
  destruct (mode_read_ok && (message_mode =? MODE_PCM) && negb (strstr c "(PCM)"));
    cbn [orb negb]; change (("#" =? "#")%string) with true; cbv iota;
    rewrite ?strlen_append; change (strlen "#") with 1;
    change (strlen " (PCM)") with 6; change (strlen " ") with 1; lia.
Qed.

(** X10: the listing copies the comment of a mapping into the 256 bytes
    of [comment_buffer] without a check of its length: a comment of 254
    or more characters, which the mapping file can hold, makes the
    [strcat] write behind the buffer. *)
Theorem long_comment_overflows_comment_buffer
    (rom : list byte) (seg_start seg idx abs : Z) (offset_table : list Z)
    (message_count : Z) (mapping_table : MappingTable) (rom_basename : string)
    (target_message_idx : Z) (words : Z) (m : MessageMapping) (c : string) :
  index offset_table idx = Some words ->
  find_mapping mapping_table seg idx = Some m ->
  comment m = Some c -> 254 <= strlen c ->
  handle_message_iteration rom seg_start seg idx abs offset_table message_count
    mapping_table rom_basename true false target_message_idx
  = UndefinedBehaviour.
Proof.
  intros Hw Hm Hc Hlen. unfold handle_message_iteration. rewrite Hw, Hm.
  cbn [negb]. unfold list_message. rewrite Hc.
  match goal with |- context [build_comment ?a ?b (Some c)] =>
    pose proof (build_comment_lower a b c) as Hlow;
    destruct (strlen (build_comment a b (Some c)) >=? 256) eqn:Hbig end;
    [reflexivity | lia].
Qed.

Lemma long_comment_overflows_comment_buffer_witness :
  handle_message_iteration one_message_rom 0 0 0 0 [4] 1
    [mkMessageMapping 0 0 "greeting" (Some (replicate 254 "x"))] "rom.bin"
    true false (-1)
  = UndefinedBehaviour.
Proof.
  assert (H1 : index [4] 0 = Some 4) by reflexivity.
  assert (H2 : find_mapping [mkMessageMapping 0 0 "greeting" (Some (replicate 254 "x"))]
                 0 0
               = Some (mkMessageMapping 0 0 "greeting" (Some (replicate 254 "x"))))
    by reflexivity.
  assert (H3 : 254 <= strlen (replicate 254 "x")) by (vm_compute; discriminate).
  exact (long_comment_overflows_comment_buffer one_message_rom 0 0 0 0 [4] 1
           [mkMessageMapping 0 0 "greeting" (Some (replicate 254 "x"))] "rom.bin"
           (-1) 4 (mkMessageMapping 0 0 "greeting" (Some (replicate 254 "x")))
           (replicate 254 "x") H1 H2 eq_refl H3).
Defined.

Lemma no_output_file_app (l1 l2 : list event) :
  no_output_file l1 -> no_output_file l2 -> no_output_file (l1 ++ l2).
Proof.
  intros H1 H2 e He. apply in_app_iff in He.
  destruct He as [He | He]; [apply H1 | apply H2]; exact He.
Qed.

(** X12: a listing decodes nothing: in list mode no call of
    [write_wav_file] or [save_raw_pcm] is made, whatever the ROM holds. *)
Theorem listing_writes_no_file
    (rom : list byte) (mapping_table : MappingTable) (rom_basename : string)
    (quiet_mode : bool) (target_message_idx : Z) (code : Z) (evs : list event) :
  main rom mapping_table rom_basename true quiet_mode target_message_idx
  = Finished (code, evs) ->
  no_output_file evs.
Proof.
  intros Hrun.
  assert (Hend : run_end (fun _ out => no_output_file out)
                   (negb true && (target_message_idx >=? 0)) code evs).
  { apply (main_J rom mapping_table rom_basename true quiet_mode target_message_idx
             (fun _ out => no_output_file out)); [| | | exact Hrun].
    - intros e [].
    - intros _ _ e [<- | []]. exact I.
    - intros out seg_start seg idx abs tbl cnt r ev Hout Hit.
      apply no_output_file_app; [exact Hout |].
      unfold handle_message_iteration in Hit.
      destruct (index tbl idx) as [words |]; [| discriminate].
      destruct (negb quiet_mode); [| injection Hit as _ <-; intros e []].
      unfold list_message in Hit.
      destruct (strlen _ >=? 256); [discriminate |].
      injection Hit as _ <-.
      destruct (_ <? rom_size rom); intros e He; cbn [app In] in He;
        repeat (destruct He as [<- | He]; [exact I |]); destruct He. }
  destruct Hend as [(_ & found & H & _) | (_ & out & d & -> & _ & H)]; [exact H |].
  apply no_output_file_app; [exact H |]. intros e [<- | []]. exact I.
Qed.

Lemma listing_writes_no_file_witness :
  no_output_file
    [list_header "rom.bin";
     Stdout ("0" ++ tab ++ "0" ++ tab ++ "message_0_000" ++ tab ++ tab ++ tab ++ tab
             ++ "# " ++ newline)].
Proof.
  assert (Hrun : main one_message_rom [] "rom.bin" true false (-1)
                 = Finished (EXIT_SUCCESS,
                     [list_header "rom.bin";
                      Stdout ("0" ++ tab ++ "0" ++ tab ++ "message_0_000"
                              ++ tab ++ tab ++ tab ++ tab ++ "# " ++ newline)]))
    by (vm_compute; reflexivity).
  exact (listing_writes_no_file _ _ _ _ _ _ _ Hrun).
Defined.

(** X13: a quiet listing prints nothing at all unless the walk fails:
    either the exit code is [EXIT_SUCCESS] and there is no output, or it
    is [EXIT_FAILURE] and the output is one fatal diagnostic. *)
Theorem quiet_listing_prints_nothing
    (rom : list byte) (mapping_table : MappingTable) (rom_basename : string)
    (target_message_idx : Z) (code : Z) (evs : list event) :
  main rom mapping_table rom_basename true true target_message_idx
  = Finished (code, evs) ->
  (code = EXIT_SUCCESS /\ evs = []) \/
  (code = EXIT_FAILURE /\ exists d, evs = [Stderr d] /\ fatal_diag d = true).
Proof.
  intros Hrun.
  assert (Hend : run_end (fun _ out => out = [])
                   (negb true && (target_message_idx >=? 0)) code evs).
  { apply (main_J rom mapping_table rom_basename true true target_message_idx
             (fun _ out => out = [])); [reflexivity | discriminate | | exact Hrun].
    intros out seg_start seg idx abs tbl cnt r ev -> Hit.
    unfold handle_message_iteration in Hit.
    destruct (index tbl idx) as [words |]; [| discriminate].
    cbn [negb] in Hit. injection Hit as _ <-. reflexivity. }
  destruct Hend as [(He & found & H & _) | (He & out & d & -> & Hd & ->)].
  - left. auto.
  - right. split; [exact He |]. exists d. auto.
Qed.

Lemma quiet_listing_prints_nothing_witness :
  (EXIT_SUCCESS = EXIT_SUCCESS /\ @nil event = []) \/
  (EXIT_SUCCESS = EXIT_FAILURE /\
   exists d, @nil event = [Stderr d] /\ fatal_diag d = true).
Proof.
  assert (Hrun : main one_message_rom [] "rom.bin" true true (-1)
                 = Finished (EXIT_SUCCESS, []))
    by (vm_compute; reflexivity).
  exact (quiet_listing_prints_nothing _ _ _ _ _ _ Hrun).
Defined.

Lemma filter_output_stderr (l : list diag) :
  filter is_output_file (map Stderr l) = [].
Proof.
  induction l as [| d l IH]; [reflexivity | exact IH].
Qed.

Lemma process_message_one_file
    (rom : list byte)
    (segment_start_offset segment_index_0_based msg_idx_in_segment
     absolute_msg_idx message_offset_in_segment next_message_offset_in_segment : Z)
    (mapping : option MessageMapping) (rom_basename : string)
    (continue : bool) (evs : list event) :
  process_message rom segment_start_offset segment_index_0_based
    msg_idx_in_segment absolute_msg_idx message_offset_in_segment
    next_message_offset_in_segment mapping rom_basename
  = Finished (continue, evs) ->
  (length (filter is_output_file evs) <= 1)%nat.
Proof.
  unfold process_message.
  destruct (_ >=? rom_size rom); [intros [= _ <-]; cbn; lia |].
  destruct (rom_at rom _) as [mode |]; [| discriminate].
  destruct (mode =? MODE_ADPCM).
  - destruct (decode_loop rom absolute_msg_idx (decode_fuel rom) _) as [s | |];
      try discriminate.
    destruct (decoding_ok s && (count (pcm_buffer s) >? 0));
      [| destruct (decoding_ok s && (count (pcm_buffer s) =? 0))];
      intros [= _ <-]; rewrite filter_app, filter_output_stderr; cbn; lia.
  - destruct (mode =? MODE_PCM); [| intros [= _ <-]; cbn; lia].
    destruct (_ <=? _); intros [= _ <-]; cbn; lia.
Qed.



(** * The mapping table *)

Lemma mapping_matches_key (seg idx : Z) (m : MessageMapping) :
  mapping_matches seg idx m = true <-> mapping_key m = (seg, idx).
Proof.
  unfold mapping_matches, mapping_key. split.
  - intros H. f_equal; lia.
  - intros [= -> ->]. lia.
Qed.

Lemma find_mapping_add (table : MappingTable) (entry : MessageMapping) (seg idx : Z) :
  find_mapping (add_mapping table entry) seg idx
  = if mapping_matches seg idx entry then Some entry
    else find_mapping table seg idx.
Proof.
  unfold mapping_matches.
  induction table as [| m table IH]; cbn [add_mapping find_mapping].
  - destruct ((segment_index entry =? seg) && (message_index_in_seg entry =? idx));
      reflexivity.
  - destruct ((segment_index m =? segment_index entry)
              && (message_index_in_seg m =? message_index_in_seg entry)) eqn:Hsame;
      cbn [find_mapping].
    + destruct ((segment_index entry =? seg) && (message_index_in_seg entry =? idx))
        eqn:He; [reflexivity |].
      assert (Hm : (segment_index m =? seg) && (message_index_in_seg m =? idx) = false)
        by lia.
      rewrite Hm. reflexivity.
    + destruct ((segment_index m =? seg) && (message_index_in_seg m =? idx)) eqn:Hm.
      * assert (He : (segment_index entry =? seg)
                     && (message_index_in_seg entry =? idx) = false) by lia.
        rewrite He. reflexivity.
      * exact IH.
Qed.

(** X15: [add_mapping] is an insert: afterwards [find_mapping] answers
    with the new entry for the indices of the entry, whatever the table
    held for them, and as before for all other indices. *)
Theorem add_mapping_then_find (table : MappingTable) (entry : MessageMapping) :
  find_mapping (add_mapping table entry) (segment_index entry)
    (message_index_in_seg entry)
  = Some entry /\
  forall seg idx,
    (seg, idx) <> mapping_key entry ->
    find_mapping (add_mapping table entry) seg idx = find_mapping table seg idx.
Proof.
  split.
  - rewrite find_mapping_add.
    assert (H : mapping_matches (segment_index entry) (message_index_in_seg entry) entry
                = true) by (apply mapping_matches_key; reflexivity).
    rewrite H. reflexivity.
  - intros seg idx Hother. rewrite find_mapping_add.
    destruct (mapping_matches seg idx entry) eqn:Hm; [| reflexivity].
    apply mapping_matches_key in Hm. congruence.
Qed.

Lemma add_mapping_keys (table : MappingTable) (entry : MessageMapping) :
  (In (mapping_key entry) (map mapping_key table) ->
   map mapping_key (add_mapping table entry) = map mapping_key table) /\
  (~ In (mapping_key entry) (map mapping_key table) ->
   add_mapping table entry = table ++ [entry]).
Proof.
  induction table as [| m table [IH1 IH2]]; cbn [add_mapping map app In].
  - split; [intros [] | reflexivity].
  - destruct ((segment_index m =? segment_index entry)
              && (message_index_in_seg m =? message_index_in_seg entry)) eqn:Hsame.
    + assert (Hkey : mapping_key m = mapping_key entry)
        by (unfold mapping_key; f_equal; lia).
      split.
      * intros _. cbn [map]. rewrite Hkey. reflexivity.
      * intros Hnot. exfalso. apply Hnot. left. exact Hkey.
    + assert (Hkey : mapping_key m <> mapping_key entry).
      { unfold mapping_key. intros [= H1 H2]. lia. }
      split.
      * intros [H | H]; [contradiction |]. cbn [map]. rewrite (IH1 H). reflexivity.
      * intros Hnot. rewrite IH2; [reflexivity |]. intros H. apply Hnot. right. exact H.
Qed.

(** X16: a table that holds every pair of indices at most once still
    does after [add_mapping]; its length stays when the pair of the entry
    was there (the entry takes the place of the old one) and grows by one
    when it was not (the entry goes to the end). *)
Theorem add_mapping_keeps_keys_unique (table : MappingTable) (entry : MessageMapping) :
  NoDup (map mapping_key table) ->
  NoDup (map mapping_key (add_mapping table entry)) /\
  length (add_mapping table entry)
  = match find_mapping table (segment_index entry) (message_index_in_seg entry) with
    | Some _ => length table
    | None => S (length table)
    end.
Proof.
  intros Hnodup.
  destruct (add_mapping_keys table entry) as [Hin Hout].
  destruct (find_mapping table (segment_index entry) (message_index_in_seg entry))
    as [m |] eqn:Hfound.
  - destruct (find_mapping_some _ _ _ _ Hfound) as (before & after & Htable & Hmatch & _).
    assert (Hpresent : In (mapping_key entry) (map mapping_key table)).
    { apply mapping_matches_key in Hmatch.
      assert (Hkey : mapping_key entry = mapping_key m) by (rewrite Hmatch; reflexivity).
      rewrite Hkey, Htable.
      apply in_map, in_or_app. right. left. reflexivity. }
    split.
    + rewrite (Hin Hpresent). exact Hnodup.
    + rewrite <- (length_map mapping_key (add_mapping table entry)), (Hin Hpresent).
      apply length_map.
  - pose proof (find_mapping_none _ _ _ Hfound) as Hfind.
    assert (Habsent : ~ In (mapping_key entry) (map mapping_key table)).
    { intros H. apply in_map_iff in H. destruct H as (m & Hkey & Hm).
      rewrite forallb_forall in Hfind. specialize (Hfind m Hm).
      apply Bool.negb_true_iff in Hfind.
      assert (Hyes : mapping_matches (segment_index entry) (message_index_in_seg entry) m
                     = true) by (apply mapping_matches_key; exact Hkey).
      congruence. }
    rewrite (Hout Habsent). split.
    + rewrite map_app. cbn [map].
      apply NoDup_app_remove_l with (l := []). cbn [app].
      apply NoDup_Add with (a := mapping_key entry) (l := map mapping_key table).
      * replace (map mapping_key table ++ [mapping_key entry])
          with (map mapping_key table ++ mapping_key entry :: []) by reflexivity.
        rewrite <- (app_nil_r (map mapping_key table)) at 1.
        apply Add_app.
      * split; assumption.
    + rewrite length_app. cbn [length]. lia.
Qed.

Lemma add_mapping_keeps_keys_unique_witness :
  NoDup (map mapping_key
           (add_mapping [mkMessageMapping 0 0 "a" None; mkMessageMapping 0 1 "b" None]
              (mkMessageMapping 0 1 "c" None))) /\
  length (add_mapping [mkMessageMapping 0 0 "a" None; mkMessageMapping 0 1 "b" None]
            (mkMessageMapping 0 1 "c" None))
  = 2%nat.
Proof.
  assert (H : NoDup (map mapping_key [mkMessageMapping 0 0 "a" None;
                                       mkMessageMapping 0 1 "b" None])).
  { cbn. constructor; [intros [H | []]; discriminate |].
    constructor; [intros [] | constructor]. }
  exact (add_mapping_keeps_keys_unique
           [mkMessageMapping 0 0 "a" None; mkMessageMapping 0 1 "b" None]
           (mkMessageMapping 0 1 "c" None) H).
Defined.

(** X17: of the lines of a mapping file that name the same segment and
    index the last one counts: after [add_mapping] was called with the
    entries in turn, [find_mapping] answers with the last entry that
    carries the indices asked for, and as the table did before when no
    entry carries them. *)
Theorem last_mapping_line_wins (entries : list MessageMapping) :
  forall (table : MappingTable) (seg idx : Z),
    find_mapping (add_mappings table entries) seg idx
    = match find_mapping (rev entries) seg idx with
      | Some m => Some m
      | None => find_mapping table seg idx
      end.
Proof.
  unfold add_mappings.
  assert (Hsnoc : forall l e seg idx,
             find_mapping (l ++ [e]) seg idx
             = match find_mapping l seg idx with
               | Some m => Some m
               | None => if mapping_matches seg idx e then Some e else None
               end).
  { intros l e seg idx. unfold mapping_matches.
    induction l as [| m l IH]; cbn [app find_mapping]; [reflexivity |].
    destruct ((segment_index m =? seg) && (message_index_in_seg m =? idx));
      [reflexivity | exact IH]. }
  induction entries as [| e entries IH]; intros table seg idx; [reflexivity |].
  cbn [fold_left rev]. rewrite IH, Hsnoc, find_mapping_add.
  destruct (find_mapping (rev entries) seg idx); [reflexivity |].
  destruct (mapping_matches seg idx e); reflexivity.
Qed.

(** * Paths and comments *)

Lemma string_length_append (a b : string) :
  String.length (a ++ b) = (String.length a + String.length b)%nat.
Proof.
  induction a as [| c a IH]; [reflexivity |].
  cbn [String.append String.length]. rewrite IH. reflexivity.
Qed.

Lemma string_app_assoc (a b c : string) : ((a ++ b) ++ c = a ++ (b ++ c))%string.
Proof.
  induction a as [| x a IH]; [reflexivity |].
  cbn [String.append]. rewrite IH. reflexivity.
Qed.

Lemma string_app_nil_r (a : string) : (a ++ "")%string = a.
Proof.
  induction a as [| x a IH]; [reflexivity |].
  cbn [String.append]. rewrite IH. reflexivity.
Qed.

Lemma occurs_append (c : ascii) (a b : string) :
  occurs c (a ++ b) = occurs c a || occurs c b.
Proof.
  induction a as [| x a IH]; [reflexivity |].
  cbn [String.append occurs]. rewrite IH. apply Bool.orb_assoc.
Qed.

(** Of two pointers into one string the smaller one reaches the greater
    one by going forward. *)
Lemma suffix_compare (pre1 : string) :
  forall (a pre2 b : string),
    (pre1 ++ a)%string = (pre2 ++ b)%string ->
    (String.length a <= String.length b)%nat ->
    exists q, b = (q ++ a)%string /\ pre1 = (pre2 ++ q)%string.
Proof.
  induction pre1 as [| x pre1 IH]; intros a pre2 b Heq Hlen.
  - cbn [String.append] in Heq. subst a. rewrite string_length_append in Hlen.
    destruct pre2 as [| y pre2]; [exists EmptyString; auto |].
    cbn [String.length] in Hlen. lia.
  - destruct pre2 as [| y pre2].
    + cbn [String.append] in Heq. exists (String x pre1). split; [| reflexivity].
      symmetry. exact Heq.
    + cbn [String.append] in Heq. injection Heq as -> Heq.
      destruct (IH _ _ _ Heq Hlen) as (q & Hb & Hpre).
      exists q. split; [exact Hb |]. cbn [String.append]. rewrite Hpre. reflexivity.
Qed.

Lemma strrchr_spec (c : ascii) (s : string) :
  match strrchr s c with
  | Some p =>
      exists pre rest,
        s = (pre ++ p)%string /\ p = String c rest /\ occurs c rest = false
  | None => occurs c s = false
  end.
Proof.
  induction s as [| a s IH]; cbn [strrchr occurs]; [reflexivity |].
  destruct (strrchr s c) as [p |].
  - destruct IH as (pre & rest & -> & -> & Hrest).
    exists (String a pre), rest. auto.
  - rewrite IH. destruct (Ascii.eqb_spec a c) as [-> | Hne]; [| reflexivity].
    exists EmptyString, s. auto.
Qed.

(** One assignment to [base]: behind it [base] holds no occurrence of the
    separator, and is still a part of the path behind a separator, if it
    was one. *)
Lemma base_step (c : ascii) (filepath dir base : string) :
  filepath = (dir ++ base)%string ->
  exists dir',
    filepath
    = (dir' ++ match strrchr filepath c with
               | Some p => if ptr_ge p base then ptr_succ p else base
               | None => base
               end)%string /\
    occurs c match strrchr filepath c with
             | Some p => if ptr_ge p base then ptr_succ p else base
             | None => base
             end = false /\
    (forall c', occurs c' base = false ->
                occurs c' match strrchr filepath c with
                          | Some p => if ptr_ge p base then ptr_succ p else base
                          | None => base
                          end = false) /\
    (dir' = dir \/ exists d, dir' = (d ++ String c "")%string).
Proof.
  intros Hpath. pose proof (strrchr_spec c filepath) as Hspec.
  destruct (strrchr filepath c) as [p |].
  - destruct Hspec as (pre & rest & Hp & -> & Hrest).
    unfold ptr_ge. cbn [ptr_succ].
    destruct (Nat.leb_spec (String.length (String c rest)) (String.length base))
      as [Hle | Hgt].
    + pose proof Hpath as Hboth. rewrite Hp in Hboth.
      destruct (suffix_compare _ _ _ _ Hboth Hle) as (q & Hb & _).
      exists (pre ++ String c "")%string.
      split; [rewrite string_app_assoc; exact Hp |]. split; [exact Hrest |].
      split; [| right; exists pre; reflexivity].
      intros c' Hc'. rewrite Hb, occurs_append in Hc'. cbn [occurs] in Hc'.
      apply Bool.orb_false_iff in Hc'. destruct Hc' as [_ Hc'].
      apply Bool.orb_false_iff in Hc'. apply Hc'.
    + pose proof Hpath as Hboth. rewrite Hp in Hboth. symmetry in Hboth.
      destruct (suffix_compare _ _ _ _ Hboth) as (q & Hq & _); [lia |].
      exists dir. split; [exact Hpath |].
      split; [| split; [auto | left; reflexivity]].
      destruct q as [| x q].
      * cbn [String.append] in Hq. rewrite <- Hq in Hgt. lia.
      * cbn [String.append] in Hq. injection Hq as _ ->.
        rewrite occurs_append in Hrest. apply Bool.orb_false_iff in Hrest.
        apply Hrest.
  - exists dir. split; [exact Hpath |].
    split; [| split; [auto | left; reflexivity]].
    rewrite Hpath, occurs_append in Hspec. apply Bool.orb_false_iff in Hspec.
    apply Hspec.
Qed.

(** X18: [get_base_filename] cuts the path behind its last separator,
    slash or backslash, whichever comes later: the result is the end of
    the path, it holds no separator, and what is cut off is empty or ends
    with a separator. *)
Theorem get_base_filename_cuts_at_last_separator (filepath : string) :
  exists dir,
    filepath = (dir ++ get_base_filename filepath)%string /\
    occurs "/" (get_base_filename filepath) = false /\
    occurs "\" (get_base_filename filepath) = false /\
    (dir = EmptyString \/
     exists d, dir = (d ++ "/")%string \/ dir = (d ++ "\")%string).
Proof.
  unfold get_base_filename.
  destruct (base_step "/" filepath EmptyString filepath eq_refl)
    as (dir1 & Hpath1 & Hslash1 & _ & Hdir1).
  set (base1 := match strrchr filepath "/" with
                | Some p => if ptr_ge p filepath then ptr_succ p else filepath
                | None => filepath
                end) in *.
  destruct (base_step "\" filepath dir1 base1 Hpath1)
    as (dir2 & Hpath2 & Hbslash2 & Hkeep & Hdir2).
  exists dir2. split; [exact Hpath2 |]. split; [apply Hkeep; exact Hslash1 |].
  split; [exact Hbslash2 |].
  destruct Hdir2 as [-> | [d ->]]; [| right; exists d; right; reflexivity].
  destruct Hdir1 as [-> | [d ->]]; [left; reflexivity |].
  right. exists d. left. reflexivity.
Qed.

Lemma skip_spaces_spec (s : string) :
  exists ws,
    all_spaces ws = true /\ s = (ws ++ skip_spaces s)%string /\
    match skip_spaces s with
    | String a _ => isspace a = false
    | EmptyString => True
    end.
Proof.
  induction s as [| a s (ws & Hws & Hs & Hfirst)]; cbn [skip_spaces].
  - exists EmptyString. auto.
  - destruct (isspace a) eqn:Ha.
    + exists (String a ws). cbn [all_spaces String.append]. rewrite Ha, Hws, <- Hs. auto.
    + exists EmptyString. auto.
Qed.


(** * The files written *)

Lemma land_255 (v : Z) : Z.land v 255 = v mod 256.
Proof.
  change 255 with (Z.ones 8). rewrite Z.land_ones by lia. reflexivity.
Qed.

Lemma shiftr_div (v n : Z) : 0 <= n -> Z.shiftr v n = v / 2 ^ n.
Proof.
  intros H. apply Z.shiftr_div_pow2. exact H.
Qed.

Lemma le_value_u32le (value : Z) : le_value (u32le_bytes value) = to_uint32 value.
Proof.
  unfold u32le_bytes, to_uint32. cbn [le_value].
  rewrite !land_255, !shiftr_div by lia.
  change (2 ^ 8) with 256. change (2 ^ 16) with 65536.
  change (2 ^ 24) with 16777216. change (2 ^ 32) with 4294967296. div_lia.
Qed.

(** X20: [write_u16le] and [write_u32le] write the value least
    significant byte first: the bytes are below 256 and, read back as a
    little-endian number, give the value modulo 2^16 and 2^32. *)
Theorem little_endian_writers (value : Z) :
  le_value (u16le_bytes value) = to_uint16 value /\
  le_value (u32le_bytes value) = to_uint32 value /\
  Forall (fun b => 0 <= b < 256) (u16le_bytes value ++ u32le_bytes value) /\
  (forall file, write_u16le value file = (true, file ++ u16le_bytes value)) /\
  (forall file, write_u32le value file = (true, file ++ u32le_bytes value)).
Proof.
  split; [| split; [| split; [| split; intros file; reflexivity]]];
    unfold u16le_bytes, u32le_bytes, to_uint16, to_uint32; cbn [le_value app];
    rewrite !land_255, !shiftr_div by lia;
    change (2 ^ 8) with 256; change (2 ^ 16) with 65536;
    change (2 ^ 24) with 16777216; change (2 ^ 32) with 4294967296.
  - div_lia.
  - div_lia.
  - repeat constructor; apply Z.mod_pos_bound; lia.
Qed.

Lemma u32le_value (v : Z) : 0 <= v < 2 ^ 32 -> le_value (u32le_bytes v) = v.
Proof.
  intros H. rewrite le_value_u32le. apply to_uint32_id. exact H.
Qed.

Lemma string_bytes_length (s : string) : Z.of_nat (length (string_bytes s)) = strlen s.
Proof.
  unfold string_bytes, strlen. rewrite length_map. f_equal.
  induction s as [| c s IH]; [reflexivity |].
  cbn [list_ascii_of_string length String.length]. rewrite IH. reflexivity.
Qed.

Lemma chunk_id_length (id : string) :
  String.length id = 4%nat -> length (firstn 4 (string_bytes id)) = 4%nat.
Proof.
  intros H. rewrite length_firstn.
  pose proof (string_bytes_length id) as Hl. unfold strlen in Hl. lia.
Qed.

Lemma info_bytes_length (id text : string) :
  String.length id = 4%nat ->
  Z.of_nat (length (info_bytes id text))
  = 8 + (strlen text + 1) + (if Z.even (strlen text + 1) then 0 else 1).
Proof.
  intros Hid. unfold info_bytes. rewrite !length_app, (chunk_id_length id Hid).
  pose proof (string_bytes_length text) as Hl.
  destruct (Z.even (strlen text + 1)); cbn [length u32le_bytes]; lia.
Qed.

Lemma even_mod_2 (z : Z) : negb (z mod 2 =? 0) = negb (Z.even z).
Proof.
  rewrite Zeven_mod. reflexivity.
Qed.

Lemma write_info_sub_chunk_bytes (id text : string) (file : list Z) :
  String.length id = 4%nat -> strlen text < 2 ^ 24 ->
  write_info_sub_chunk id (Some text) file
  = (Z.of_nat (length (info_bytes id text)), file ++ info_bytes id text) /\
  0 < Z.of_nat (length (info_bytes id text)).
Proof.
  intros Hid Hlen. pose proof (strlen_nonneg text) as Hpos.
  change (2 ^ 24) with 16777216 in Hlen.
  assert (H32 : forall z, 0 <= z < 4294967296 -> to_uint32 z = z)
    by (intros z Hz; apply to_uint32_id; change (2 ^ 32) with 4294967296; lia).
  rewrite (info_bytes_length id text Hid). split.
  - unfold write_info_sub_chunk, and_then, write_chunk_id, write_u32le, fwrite, skip_op.
    rewrite (H32 (strlen text)) by lia. rewrite (H32 (strlen text + 1)) by lia.
    rewrite even_mod_2. unfold info_bytes.
    destruct (Z.even (strlen text + 1)); cbn [negb];
      rewrite H32 by lia; rewrite <- ?app_assoc; cbn [app];
      rewrite ?app_nil_r; reflexivity.
  - destruct (Z.even (strlen text + 1)); lia.
Qed.

(** X21: [write_info_sub_chunk] on a text below 16 MiB appends the
    sub-chunk (id, size, text with its terminator, pad byte) to the file
    and returns the number of bytes it has appended, which is even and
    not 0; the size field holds the length of the text with its
    terminator, without the pad byte. *)
Theorem info_sub_chunk_size (id text : string) (file : list Z) :
  String.length id = 4%nat -> strlen text < 2 ^ 24 ->
  write_info_sub_chunk id (Some text) file
  = (Z.of_nat (length (info_bytes id text)), file ++ info_bytes id text) /\
  Z.even (Z.of_nat (length (info_bytes id text))) = true /\
  0 < Z.of_nat (length (info_bytes id text)) /\
  le_field (info_bytes id text) 4 4 = strlen text + 1.
Proof.
  intros Hid Hlen. pose proof (strlen_nonneg text) as Hpos.
  change (2 ^ 24) with 16777216 in Hlen.
  destruct (write_info_sub_chunk_bytes id text file Hid Hlen) as [Hrun Hsome].
  split; [exact Hrun |]. split; [| split; [exact Hsome |]];
    rewrite ?(info_bytes_length id text Hid).
  - destruct (Z.even (strlen text + 1)) eqn:He.
    + replace (8 + (strlen text + 1) + 0) with ((strlen text + 1) + 2 * 4) by lia.
      rewrite Z.even_add_mul_2. exact He.
    + replace (8 + (strlen text + 1) + 1) with (Z.succ (strlen text + 1) + 2 * 4) by lia.
      rewrite Z.even_add_mul_2, Z.even_succ, <- Z.negb_even, He. reflexivity.
  - unfold le_field, info_bytes.
    pose proof (chunk_id_length id Hid) as Hfour.
    destruct (firstn 4 (string_bytes id)) as [| a [| b [| c [| d [| e l]]]]];
      try discriminate.
    cbn [app skipn firstn u32le_bytes]. apply u32le_value.
    change (2 ^ 32) with 4294967296. lia.
Qed.

Lemma info_sub_chunk_size_witness :
  write_info_sub_chunk "ITRK" (Some "7"%string) [1]
  = (Z.of_nat (length (info_bytes "ITRK" "7")), [1] ++ info_bytes "ITRK" "7") /\
  Z.even (Z.of_nat (length (info_bytes "ITRK" "7"))) = true /\
  0 < Z.of_nat (length (info_bytes "ITRK" "7")) /\
  le_field (info_bytes "ITRK" "7") 4 4 = strlen "7" + 1.
Proof.
  assert (H1 : String.length "ITRK" = 4%nat) by reflexivity.
  assert (H2 : strlen "7" < 2 ^ 24) by (vm_compute; reflexivity).
  exact (info_sub_chunk_size "ITRK" "7" [1] H1 H2).
Defined.

Lemma s16le_round_trip (pcm : list Z) :
  s16le_samples (sample_bytes pcm) = map to_int16 pcm.
Proof.
  unfold sample_bytes. induction pcm as [| x pcm IH]; [reflexivity |].
  cbn [flat_map map]. unfold u16le_bytes at 1. cbn [app s16le_samples].
  rewrite IH. f_equal.
  rewrite !land_255, shiftr_div by lia. change (2 ^ 8) with 256.
  unfold to_int16, to_uint16. change (2 ^ 16) with 65536. div_lia.
Qed.

Lemma sample_bytes_length (pcm : list Z) :
  length (sample_bytes pcm) = (2 * length pcm)%nat.
Proof.
  unfold sample_bytes. induction pcm as [| x pcm IH]; [reflexivity |].
  cbn [flat_map]. rewrite length_app, IH. cbn [length u16le_bytes]. lia.
Qed.

Lemma write_samples_run (pcm : list Z) :
  forall file,
    fold_right (fun sample rest => write_u16le (to_uint16 sample) ;; rest) skip_op pcm
      file
    = (true, file ++ sample_bytes pcm).
Proof.
  unfold sample_bytes.
  induction pcm as [| x pcm IH]; intros file; cbn [fold_right flat_map].
  - unfold skip_op. rewrite app_nil_r. reflexivity.
  - unfold and_then, write_u16le, fwrite. rewrite IH, <- app_assoc. reflexivity.
Qed.

Lemma info_size_bytes (id text : string) :
  String.length id = 4%nat -> strlen text < 2 ^ 24 ->
  info_size text = Z.of_nat (length (info_bytes id text)).
Proof.
  intros Hid Hlen. rewrite (info_bytes_length id text Hid). unfold info_size.
  pose proof (strlen_nonneg text) as Hpos. change (2 ^ 24) with 16777216 in Hlen.
  assert (Hsz : to_size_t (strlen text + 1) = strlen text + 1).
  { unfold to_size_t. apply Z.mod_small. change (2 ^ 64) with 18446744073709551616.
    lia. }
  rewrite Hsz, even_mod_2. destruct (Z.even (strlen text + 1)); reflexivity.
Qed.

Lemma info_bytes_bound (id text : string) :
  String.length id = 4%nat -> strlen text < 2 ^ 24 ->
  0 < Z.of_nat (length (info_bytes id text)) < 16777300.
Proof.
  intros Hid Hlen. rewrite (info_bytes_length id text Hid).
  pose proof (strlen_nonneg text) as Hpos. change (2 ^ 24) with 16777216 in Hlen.
  destruct (Z.even (strlen text + 1)); lia.
Qed.

Lemma info_sub_chunk_run (id text : string) (rest : file_op) (file : list Z) :
  String.length id = 4%nat -> strlen text < 2 ^ 24 ->
  (info_sub_chunk id (Some text) ;; rest) file = rest (file ++ info_bytes id text).
Proof.
  intros Hid Hlen. unfold and_then, info_sub_chunk.
  destruct (write_info_sub_chunk_bytes id text file Hid Hlen) as (-> & Hpos).
  assert (Hne : (Z.of_nat (length (info_bytes id text)) =? 0) = false) by lia.
  rewrite Hne. reflexivity.
Qed.

Lemma fwrite_run (bytes : list Z) (rest : file_op) (file : list Z) :
  (fwrite bytes ;; rest) file = rest (file ++ bytes).
Proof.
  reflexivity.
Qed.

Lemma samples_run (pcm : list Z) (rest : file_op) (file : list Z) :
  (fold_right (fun sample rest => write_u16le (to_uint16 sample) ;; rest) skip_op pcm
   ;; rest) file
  = rest (file ++ sample_bytes pcm).
Proof.
  unfold and_then at 1. rewrite write_samples_run. reflexivity.
Qed.

(** The file [write_wav_file] writes, byte for byte. *)
Lemma wav_bytes (pcm : list Z) (sample_rate : Z)
    (rom_basename track_title track_number_str : string)
    (comment : option string) (date_str : string) :
  Z.of_nat (length pcm) < 2 ^ 30 ->
  strlen rom_basename < 2 ^ 24 -> strlen track_title < 2 ^ 24 ->
  strlen track_number_str < 2 ^ 24 -> strlen date_str < 2 ^ 24 ->
  (forall c, comment = Some c -> strlen c < 2 ^ 24) ->
  let info :=
    info_list_bytes rom_basename track_title track_number_str comment date_str in
  write_wav_file pcm sample_rate rom_basename track_title track_number_str
    comment date_str
  = (true,
     string_bytes "RIFF"
     ++ u32le_bytes (40 + Z.of_nat (length info) + 2 * Z.of_nat (length pcm))
     ++ string_bytes "WAVE" ++ string_bytes "fmt " ++ u32le_bytes 16
     ++ fmt_bytes sample_rate
     ++ string_bytes "LIST" ++ u32le_bytes (Z.of_nat (length info)) ++ info
     ++ string_bytes "data" ++ u32le_bytes (2 * Z.of_nat (length pcm))
     ++ sample_bytes pcm) /\
  Z.of_nat (length info) < 2 ^ 27.
Proof.
  intros Hn Hrb Htitle Htrack Hdate Hcomment info.
  unfold write_wav_file. cbv zeta.
  change (ADPCM_BITS / 8) with 2. change ADPCM_CHANNELS with 1. change ADPCM_BITS with 16.
  change (2 ^ 30) with 1073741824 in Hn.
  assert (H32 : forall z, 0 <= z < 4294967296 -> to_uint32 z = z)
    by (intros z Hz; apply to_uint32_id; change (2 ^ 32) with 4294967296; lia).
  rewrite (H32 (Z.of_nat (length pcm))) by lia.
  assert (Hbig : (Z.of_nat (length pcm) * 2 >? UINT32_MAX) = false)
    by (unfold UINT32_MAX; change (2 ^ 32) with 4294967296; lia).
  rewrite Hbig. rewrite (H32 (Z.of_nat (length pcm) * 2)) by lia.
  assert (Hpad : negb (Z.of_nat (length pcm) * 2 mod 2 =? 0) = false)
    by (rewrite Z.mod_mul by lia; reflexivity).
  rewrite Hpad.
  (* the sizes *)
  pose proof (info_bytes_bound "IALB" "Nortel Millennium VoiceWare" eq_refl eq_refl) as B1.
  pose proof (info_bytes_bound "IART" rom_basename eq_refl Hrb) as B2.
  pose proof (info_bytes_bound "INAM" track_title eq_refl Htitle) as B3.
  pose proof (info_bytes_bound "ITRK" track_number_str eq_refl Htrack) as B4.
  pose proof (info_bytes_bound "ICRD" date_str eq_refl Hdate) as B5.
  rewrite (info_size_bytes "IALB" "Nortel Millennium VoiceWare" eq_refl eq_refl).
  rewrite (info_size_bytes "IART" rom_basename eq_refl Hrb).
  rewrite (info_size_bytes "INAM" track_title eq_refl Htitle).
  rewrite (info_size_bytes "ITRK" track_number_str eq_refl Htrack).
  rewrite (info_size_bytes "ICRD" date_str eq_refl Hdate).
  assert (Hinfo :
    Z.of_nat (length info)
    = 4 + Z.of_nat (length (info_bytes "IALB" "Nortel Millennium VoiceWare"))
      + Z.of_nat (length (info_bytes "IART" rom_basename))
      + Z.of_nat (length (info_bytes "INAM" track_title))
      + Z.of_nat (length (info_bytes "ITRK" track_number_str))
      + Z.of_nat (length (info_bytes "ICRD" date_str))
      + Z.of_nat (length match comment with
                         | Some c => if strlen c >? 0 then info_bytes "ICMT" c else []
                         | None => []
                         end)).
  { subst info. unfold info_list_bytes. rewrite !length_app.
    change (length (string_bytes "INFO")) with 4%nat. lia. }
  set (a1 := Z.of_nat (length (info_bytes "IALB" "Nortel Millennium VoiceWare"))) in *.
  set (a2 := Z.of_nat (length (info_bytes "IART" rom_basename))) in *.
  set (a3 := Z.of_nat (length (info_bytes "INAM" track_title))) in *.
  set (a4 := Z.of_nat (length (info_bytes "ITRK" track_number_str))) in *.
  set (a5 := Z.of_nat (length (info_bytes "ICRD" date_str))) in *.
  rewrite (H32 (4 + a1)) by lia. rewrite (H32 (4 + a1 + a2)) by lia.
  rewrite (H32 (4 + a1 + a2 + a3)) by lia. rewrite (H32 (4 + a1 + a2 + a3 + a4)) by lia.
  rewrite (H32 (4 + a1 + a2 + a3 + a4 + a5)) by lia.
  rewrite (H32 (Z.of_nat (length pcm) * 2 + 0)) by lia.
  unfold write_chunk_id, write_u32le, write_u16le.
  change (firstn 4 (string_bytes "RIFF")) with (string_bytes "RIFF").
  change (firstn 4 (string_bytes "WAVE")) with (string_bytes "WAVE").
  change (firstn 4 (string_bytes "fmt ")) with (string_bytes "fmt ").
  change (firstn 4 (string_bytes "LIST")) with (string_bytes "LIST").
  change (firstn 4 (string_bytes "INFO")) with (string_bytes "INFO").
  change (firstn 4 (string_bytes "data")) with (string_bytes "data").
  assert (Hcase :
    match comment with Some c => strlen c >? 0 | None => false end = true /\
    (exists c, comment = Some c /\ strlen c < 2 ^ 24 /\ (strlen c >? 0) = true) \/
    match comment with Some c => strlen c >? 0 | None => false end = false /\
    match comment with
    | Some c => if strlen c >? 0 then info_bytes "ICMT" c else []
    | None => []
    end = []).
  { destruct comment as [c |]; [| right; auto].
    destruct (strlen c >? 0) eqn:Hc; [left | right; auto].
    split; [reflexivity |]. exists c. auto. }
  destruct Hcase as [[Hhas (c & -> & Hc & Hc0)] | [Hhas Hnone]]; rewrite Hhas.
  - pose proof (info_bytes_bound "ICMT" c eq_refl Hc) as B6.
    rewrite (info_size_bytes "ICMT" c eq_refl Hc).
    rewrite Hc0 in Hinfo.
    set (a6 := Z.of_nat (length (info_bytes "ICMT" c))) in *.
    rewrite (H32 (4 + a1 + a2 + a3 + a4 + a5 + a6)) by lia.
    rewrite (H32 (4 + (4 + a1 + a2 + a3 + a4 + a5 + a6))) by lia.
    rewrite H32 by lia.
    rewrite !fwrite_run.
    rewrite info_sub_chunk_run by (reflexivity || assumption).
    rewrite info_sub_chunk_run by (reflexivity || assumption).
    rewrite info_sub_chunk_run by (reflexivity || assumption).
    rewrite info_sub_chunk_run by (reflexivity || assumption).
    rewrite info_sub_chunk_run by (reflexivity || assumption).
    rewrite info_sub_chunk_run by (reflexivity || assumption).
    rewrite !fwrite_run, samples_run. unfold skip_op.
    split; [| change (2 ^ 27) with 134217728; lia].
    f_equal. rewrite Hinfo. subst info. unfold info_list_bytes, fmt_bytes. rewrite Hc0.
    rewrite <- !app_assoc. cbn [app].
    replace (sample_rate * 1 * 2) with (sample_rate * 2) by lia.
    change (to_uint16 (1 * 2)) with 2.
    replace (Z.of_nat (length pcm) * 2) with (2 * Z.of_nat (length pcm)) by lia.
    replace (4 + (4 + 4 + 16) + (4 + (4 + a1 + a2 + a3 + a4 + a5 + a6))
             + (4 + 4 + (2 * Z.of_nat (length pcm) + 0)))
      with (40 + (4 + a1 + a2 + a3 + a4 + a5 + a6) + 2 * Z.of_nat (length pcm)) by lia.
    reflexivity.
  - rewrite Hnone, Z.add_0_r in Hinfo.
    rewrite (H32 (4 + (4 + a1 + a2 + a3 + a4 + a5))) by lia.
    rewrite H32 by lia.
    rewrite !fwrite_run.
    rewrite info_sub_chunk_run by (reflexivity || assumption).
    rewrite info_sub_chunk_run by (reflexivity || assumption).
    rewrite info_sub_chunk_run by (reflexivity || assumption).
    rewrite info_sub_chunk_run by (reflexivity || assumption).
    rewrite info_sub_chunk_run by (reflexivity || assumption).
    unfold and_then at 1, skip_op at 1.
    rewrite !fwrite_run, samples_run. unfold skip_op.
    split; [| change (2 ^ 27) with 134217728; lia].
    f_equal. rewrite Hinfo. subst info. unfold info_list_bytes, fmt_bytes. rewrite Hnone.
    rewrite <- !app_assoc. cbn [app]. rewrite ?app_nil_r.
    replace (sample_rate * 1 * 2) with (sample_rate * 2) by lia.
    change (to_uint16 (1 * 2)) with 2.
    replace (Z.of_nat (length pcm) * 2) with (2 * Z.of_nat (length pcm)) by lia.
    replace (4 + (4 + 4 + 16) + (4 + (4 + a1 + a2 + a3 + a4 + a5))
             + (4 + 4 + (2 * Z.of_nat (length pcm) + 0)))
      with (40 + (4 + a1 + a2 + a3 + a4 + a5) + 2 * Z.of_nat (length pcm)) by lia.
    reflexivity.
Qed.


(** X22: the file [write_wav_file] writes (samples below 2^30, texts
    below 16 MiB): the RIFF header, the 16-byte format chunk of 16-bit
    mono PCM with a byte rate of twice the sample rate, the INFO list
    with its true size, and the data chunk with its true size of two
    bytes per sample and no pad byte.  The RIFF size field holds the file
    length less 12: the eight bytes of the RIFF header itself, and four
    more, since the size computed for the LIST chunk leaves out its size
    field. *)
Theorem wav_file_layout (pcm : list Z) (sample_rate : Z)
    (rom_basename track_title track_number_str : string)
    (comment : option string) (date_str : string) :
  Z.of_nat (length pcm) < 2 ^ 30 ->
  strlen rom_basename < 2 ^ 24 -> strlen track_title < 2 ^ 24 ->
  strlen track_number_str < 2 ^ 24 -> strlen date_str < 2 ^ 24 ->
  (forall c, comment = Some c -> strlen c < 2 ^ 24) ->
  let info :=
    info_list_bytes rom_basename track_title track_number_str comment date_str in
  exists file,
    write_wav_file pcm sample_rate rom_basename track_title track_number_str
      comment date_str
    = (true, file) /\
    file
    = string_bytes "RIFF" ++ u32le_bytes (Z.of_nat (length file) - 12)
      ++ string_bytes "WAVE" ++ string_bytes "fmt " ++ u32le_bytes 16
      ++ fmt_bytes sample_rate
      ++ string_bytes "LIST" ++ u32le_bytes (Z.of_nat (length info)) ++ info
      ++ string_bytes "data" ++ u32le_bytes (Z.of_nat (length (sample_bytes pcm)))
      ++ sample_bytes pcm /\
    Z.of_nat (length (sample_bytes pcm)) = 2 * Z.of_nat (length pcm) /\
    le_field file 4 4 = Z.of_nat (length file) - 12 /\
    le_field file 40 4 = Z.of_nat (length info).
Proof.
  intros Hn Hrb Htitle Htrack Hdate Hcomment info.
  destruct (wav_bytes pcm sample_rate rom_basename track_title track_number_str
              comment date_str Hn Hrb Htitle Htrack Hdate Hcomment) as [Hrun Hinfo].
  fold info in Hrun, Hinfo.
  change (2 ^ 30) with 1073741824 in Hn. change (2 ^ 27) with 134217728 in Hinfo.
  eexists. split; [exact Hrun |].
  assert (Hdata : Z.of_nat (length (sample_bytes pcm)) = 2 * Z.of_nat (length pcm))
    by (rewrite sample_bytes_length; lia).
  match goal with |- ?f = _ /\ _ =>
    assert (Hlen : Z.of_nat (length f) - 12
                   = 40 + Z.of_nat (length info) + 2 * Z.of_nat (length pcm)) end.
  { rewrite !length_app, sample_bytes_length. unfold fmt_bytes.
    rewrite !length_app. cbn [length string_bytes list_ascii_of_string map
                              u32le_bytes u16le_bytes]. lia. }
  rewrite Hlen, Hdata.
  split; [reflexivity |]. split; [reflexivity |].
  unfold le_field, fmt_bytes.
  cbn [string_bytes list_ascii_of_string map app skipn firstn u32le_bytes u16le_bytes].
  split; apply u32le_value; change (2 ^ 32) with 4294967296; lia.
Qed.

Lemma wav_file_layout_witness :
  exists file,
    write_wav_file [1280; 3712] 8000 "rom.bin" "message_0_000" "0" None "2024-01-01"
    = (true, file) /\
    le_field file 4 4 = Z.of_nat (length file) - 12 /\
    le_field file 40 4
    = Z.of_nat (length (info_list_bytes "rom.bin" "message_0_000" "0" None
                          "2024-01-01")).
Proof.
  assert (H1 : Z.of_nat (length [1280; 3712]) < 2 ^ 30) by (vm_compute; reflexivity).
  assert (H2 : strlen "rom.bin" < 2 ^ 24) by (vm_compute; reflexivity).
  assert (H3 : strlen "message_0_000" < 2 ^ 24) by (vm_compute; reflexivity).
  assert (H4 : strlen "0" < 2 ^ 24) by (vm_compute; reflexivity).
  assert (H5 : strlen "2024-01-01" < 2 ^ 24) by (vm_compute; reflexivity).
  assert (H6 : forall c, @None string = Some c -> strlen c < 2 ^ 24)
    by (intros c Hc; discriminate Hc).
  destruct (wav_file_layout [1280; 3712] 8000 "rom.bin" "message_0_000" "0" None
              "2024-01-01" H1 H2 H3 H4 H5 H6)
    as (file & Hrun & _ & _ & Hriff & Hlist).
  exists file. split; [exact Hrun |]. split; [exact Hriff | exact Hlist].
Defined.

(** X23: the samples come back from the file: with every sample a value
    of an [int16_t], the last two bytes per sample of the file, read as
    little-endian 16-bit numbers in two's complement, are the samples of
    the buffer in their order. *)
Theorem wav_samples_round_trip (pcm : list Z) (sample_rate : Z)
    (rom_basename track_title track_number_str : string)
    (comment : option string) (date_str : string) :
  Forall in_int16 pcm ->
  Z.of_nat (length pcm) < 2 ^ 30 ->
  strlen rom_basename < 2 ^ 24 -> strlen track_title < 2 ^ 24 ->
  strlen track_number_str < 2 ^ 24 -> strlen date_str < 2 ^ 24 ->
  (forall c, comment = Some c -> strlen c < 2 ^ 24) ->
  exists file,
    write_wav_file pcm sample_rate rom_basename track_title track_number_str
      comment date_str
    = (true, file) /\
    s16le_samples (skipn (length file - 2 * length pcm) file) = pcm /\
    le_field file (length file - 2 * length pcm - 4) 4 = 2 * Z.of_nat (length pcm).
Proof.
  intros Hint Hn Hrb Htitle Htrack Hdate Hcomment.
  destruct (wav_bytes pcm sample_rate rom_basename track_title track_number_str
              comment date_str Hn Hrb Htitle Htrack Hdate Hcomment) as [Hrun Hinfo].
  change (2 ^ 30) with 1073741824 in Hn.
  eexists. split; [exact Hrun |].
  set (info := info_list_bytes rom_basename track_title track_number_str comment
                 date_str) in *.
  set (riff := 40 + Z.of_nat (length info) + 2 * Z.of_nat (length pcm)).
  set (head := string_bytes "RIFF" ++ u32le_bytes riff ++ string_bytes "WAVE"
               ++ string_bytes "fmt " ++ u32le_bytes 16 ++ fmt_bytes sample_rate
               ++ string_bytes "LIST" ++ u32le_bytes (Z.of_nat (length info))
               ++ info ++ string_bytes "data").
  set (size := u32le_bytes (2 * Z.of_nat (length pcm))).
  assert (Hfile :
    string_bytes "RIFF" ++ u32le_bytes riff ++ string_bytes "WAVE"
    ++ string_bytes "fmt " ++ u32le_bytes 16 ++ fmt_bytes sample_rate
    ++ string_bytes "LIST" ++ u32le_bytes (Z.of_nat (length info)) ++ info
    ++ string_bytes "data" ++ size ++ sample_bytes pcm
    = head ++ size ++ sample_bytes pcm).
  { subst head. rewrite <- !app_assoc. reflexivity. }
  rewrite Hfile.
  assert (Hsize : length size = 4%nat) by reflexivity.
  pose proof (sample_bytes_length pcm) as Hdata.
  split.
  - replace (length (head ++ size ++ sample_bytes pcm) - 2 * length pcm)%nat
      with (length (head ++ size) + 0)%nat by (rewrite !length_app; lia).
    rewrite app_assoc, skipn_app, skipn_all2 by lia.
    replace (length (head ++ size) + 0 - length (head ++ size))%nat with 0%nat by lia.
    cbn [app skipn]. rewrite s16le_round_trip.
    clear -Hint. induction Hint as [| x pcm Hx _ IH]; [reflexivity |].
    cbn [map]. rewrite IH, to_int16_id by exact Hx. reflexivity.
  - unfold le_field.
    replace (length (head ++ size ++ sample_bytes pcm) - 2 * length pcm - 4)%nat
      with (length head + 0)%nat by (rewrite !length_app; lia).
    rewrite skipn_app, skipn_all2 by lia.
    replace (length head + 0 - length head)%nat with 0%nat by lia.
    cbn [app skipn]. subst size. cbn [u32le_bytes app firstn].
    apply (u32le_value (2 * Z.of_nat (length pcm))).
    change (2 ^ 32) with 4294967296. lia.
Qed.

Lemma wav_samples_round_trip_witness :
  exists file,
    write_wav_file [1280; -3712] 8000 "rom.bin" "message_0_000" "0"
      (Some "hello"%string) "2024-01-01"
    = (true, file) /\
    s16le_samples (skipn (length file - 2 * length [1280; -3712]) file)
    = [1280; -3712].
Proof.
  assert (H0 : Forall in_int16 [1280; -3712])
    by (repeat constructor; unfold in_int16; lia).
  assert (H1 : Z.of_nat (length [1280; -3712]) < 2 ^ 30) by (vm_compute; reflexivity).
  assert (H2 : strlen "rom.bin" < 2 ^ 24) by (vm_compute; reflexivity).
  assert (H3 : strlen "message_0_000" < 2 ^ 24) by (vm_compute; reflexivity).
  assert (H4 : strlen "0" < 2 ^ 24) by (vm_compute; reflexivity).
  assert (H5 : strlen "2024-01-01" < 2 ^ 24) by (vm_compute; reflexivity).
  assert (H6 : forall c, Some "hello"%string = Some c -> strlen c < 2 ^ 24)
    by (intros c [= <-]; vm_compute; reflexivity).
  destruct (wav_samples_round_trip [1280; -3712] 8000 "rom.bin" "message_0_000" "0"
              (Some "hello"%string) "2024-01-01" H0 H1 H2 H3 H4 H5 H6)
    as (file & Hrun & Hsamples & _).
  exists file. split; [exact Hrun | exact Hsamples].
Defined.

(** ** Raw PCM messages *)

Lemma skipn_nth_error {A : Type} (l : list A) (n : nat) (a : A) :
  nth_error l n = Some a -> exists rest, skipn n l = a :: rest.
Proof.
  revert l. induction n as [| n IH]; intros [| x l] H; try discriminate.
  - injection H as ->. exists l. reflexivity.
  - cbn [skipn]. apply IH. exact H.
Qed.



(** ** The listing line *)

(** X30: the padding of a listing line: there is always at least one tab
    between the file name and the comment, at most five; a name shorter
    than 40 characters is padded to the fifth tab stop of 8 columns
    behind its start, and a longer one gets one tab. *)
Theorem tabs_to_print_pads_to_column_40 (output_base : string) :
  1 <= tabs_to_print output_base <= 5 /\
  (strlen output_base < 40 ->
   (strlen output_base / 8 + tabs_to_print output_base) * 8 = 40) /\
  (40 <= strlen output_base -> tabs_to_print output_base = 1).
Proof.
  unfold tabs_to_print. pose proof (strlen_nonneg output_base) as Hpos.
  change ((LIST_FILENAME_ALIGN_WIDTH + TAB_WIDTH - 1) / TAB_WIDTH) with 5.
  unfold TAB_WIDTH.
  destruct (strlen output_base / 8 <? 5) eqn:Hlt; repeat split; intros; div_lia.
Qed.

(** The comment field by cases. *)
Lemma build_comment_cases (mode_read_ok : bool) (message_mode : Z)
    (user_comment : option string) :
  build_comment mode_read_ok message_mode user_comment
  = if mode_read_ok && (message_mode =? MODE_PCM)
       && negb (strstr match user_comment with Some c => c | None => EmptyString end
                  "(PCM)")
    then
      if strlen match user_comment with Some c => c | None => EmptyString end >? 0
      then ("# (PCM) " ++ match user_comment with Some c => c | None => EmptyString end)
           %string
      else "# (PCM)"%string
    else ("# " ++ match user_comment with Some c => c | None => EmptyString end)%string.
Proof.
  unfold build_comment. destruct user_comment as [c |]; cbv zeta.
  - destruct (mode_read_ok && (message_mode =? MODE_PCM) && negb (strstr c "(PCM)"));
      cbn [orb negb].
    + destruct (strlen c >? 0); reflexivity.
    + destruct (strlen c >? 0) eqn:Hc; [reflexivity |].
      rewrite (strlen_zero c Hc). reflexivity.
  - change (strstr "" "(PCM)") with false.
    destruct (mode_read_ok && (message_mode =? MODE_PCM) && negb false); reflexivity.
Qed.

(** The comment field of a listing line always begins with the
    hash, and for a raw PCM message it carries the marker (PCM): added in
    front of the comment of the mapping, unless that comment holds the
    marker already. *)
Theorem build_comment_marks_pcm (mode_read_ok : bool) (message_mode : Z)
    (user_comment : option string) :
  let text := match user_comment with Some c => c | None => EmptyString end in
  let tagged :=
    mode_read_ok && (message_mode =? MODE_PCM) && negb (strstr text "(PCM)") in
  build_comment mode_read_ok message_mode user_comment
  = if tagged then
      if strlen text >? 0 then ("# (PCM) " ++ text)%string else "# (PCM)"%string
    else ("# " ++ text)%string.
Proof.
  cbv zeta. apply build_comment_cases.
Qed.

(** * The mapping file *)

(** ** Decimal numbers *)

Lemma uint_value_pos (d : Decimal.uint) :
  forall p : positive, uint_value d (Z.pos p) = Z.pos (Pos.of_uint_acc d p).
Proof.
  induction d as [| d IH | d IH | d IH | d IH | d IH | d IH | d IH | d IH | d IH | d IH];
    intros p; cbn [uint_value Pos.of_uint_acc]; [reflexivity | ..];
    rewrite <- IH; f_equal; lia.
Qed.

Lemma uint_value_0 (d : Decimal.uint) : uint_value d 0 = Z.of_N (Pos.of_uint d).
Proof.
  induction d as [| d IH | d IH | d IH | d IH | d IH | d IH | d IH | d IH | d IH | d IH];
    cbn [uint_value Pos.of_uint]; [reflexivity | exact IH | ..];
    cbn [Z.mul Z.add Z.of_N]; apply uint_value_pos.
Qed.

Lemma strtol_digits_stop (rest : string) (acc : Z) :
  no_digit_ahead rest = true -> strtol_digits rest acc = (acc, rest).
Proof.
  destruct rest as [| c rest]; [reflexivity |]. cbn [no_digit_ahead strtol_digits].
  destruct (isdigit c); [discriminate | reflexivity].
Qed.

Lemma strtol_digits_uint (d : Decimal.uint) (rest : string) :
  no_digit_ahead rest = true ->
  forall acc,
    strtol_digits (NilEmpty.string_of_uint d ++ rest) acc = (uint_value d acc, rest).
Proof.
  intros Hrest.
  induction d as [| d IH | d IH | d IH | d IH | d IH | d IH | d IH | d IH | d IH | d IH];
    intros acc; cbn [NilEmpty.string_of_uint String.append uint_value];
    [apply strtol_digits_stop; exact Hrest | ..];
    cbn [strtol_digits]; match goal with |- context [isdigit ?c] =>
      change (isdigit c) with true end; cbv iota; apply IH.
Qed.

Lemma all_digits_uint (d : Decimal.uint) : all_digits (NilEmpty.string_of_uint d) = true.
Proof.
  induction d as [| d IH | d IH | d IH | d IH | d IH | d IH | d IH | d IH | d IH | d IH];
    cbn [NilEmpty.string_of_uint all_digits]; [reflexivity | ..]; exact IH.
Qed.

(** The decimal text of a number that is not negative: digits, at least
    one, and [strtol_digits] reads the number back. *)
Lemma digits_text (v : Z) :
  0 <= v ->
  exists d,
    digits v = NilEmpty.string_of_uint d /\ d <> Decimal.Nil /\ uint_value d 0 = v.
Proof.
  intros Hv. unfold digits. exists (N.to_uint (Z.to_N v)).
  assert (Hnil : N.to_uint (Z.to_N v) <> Decimal.Nil).
  { destruct (Z.to_N v) as [| p]; [discriminate | apply DecimalPos.Unsigned.to_uint_nonnil]. }
  split; [| split; [exact Hnil |]].
  - unfold NilZero.string_of_uint. destruct (N.to_uint (Z.to_N v)); congruence.
  - rewrite uint_value_0. change (Pos.of_uint (N.to_uint (Z.to_N v)))
      with (N.of_uint (N.to_uint (Z.to_N v))).
    rewrite DecimalN.Unsigned.of_to. lia.
Qed.

Lemma digits_all_digits (v : Z) :
  0 <= v -> all_digits (digits v) = true /\ digits v <> EmptyString.
Proof.
  intros Hv. destruct (digits_text v Hv) as (d & -> & Hnil & _).
  split; [apply all_digits_uint |].
  destruct d; try discriminate. congruence.
Qed.

Lemma fmt_d_digits (v : Z) : 0 <= v -> fmt_d v = digits v.
Proof.
  intros Hv. unfold fmt_d, digits. destruct v as [| p | p]; [reflexivity | | lia].
  reflexivity.
Qed.

Lemma strtol_digits_text (v : Z) (rest : string) :
  0 <= v -> no_digit_ahead rest = true ->
  strtol (digits v ++ rest) = (Z.min LONG_MAX v, rest).
Proof.
  intros Hv Hrest.
  destruct (digits_text v Hv) as (d & Htext & Hnil & Hvalue). rewrite Htext.
  pose proof (all_digits_uint d) as Hall.
  pose proof (strtol_digits_uint d rest Hrest 0) as Hrun. rewrite Hvalue in Hrun.
  unfold strtol.
  destruct (NilEmpty.string_of_uint d) as [| c s] eqn:Hd.
  { destruct d; discriminate || congruence. }
  cbn [all_digits] in Hall. apply andb_prop in Hall. destruct Hall as [Hc _].
  cbn [String.append] in *. cbn [skip_spaces].
  assert (Hspace : isspace c = false)
    by (destruct c as [[] [] [] [] [] [] [] []]; try discriminate Hc; reflexivity).
  rewrite Hspace.
  destruct c as [[] [] [] [] [] [] [] []]; try discriminate Hc;
    cbv beta iota; rewrite Hrun, Hc; unfold LONG_MIN, LONG_MAX; f_equal; lia.
Qed.

(** X25: [strtol] reads back what [printf] prints: on the decimal text
    of a number that is not negative, followed by something that is not
    a digit, it gives the number, clamped to [LONG_MAX], and stops behind
    the digits. *)
Theorem strtol_reads_decimal (v : Z) (rest : string) :
  0 <= v -> no_digit_ahead rest = true ->
  strtol (fmt_d v ++ rest) = (Z.min LONG_MAX v, rest) /\
  strtol (fmt_u v ++ rest) = (Z.min LONG_MAX v, rest).
Proof.
  intros Hv Hrest. rewrite (fmt_d_digits v Hv). unfold fmt_u.
  split; apply strtol_digits_text; assumption.
Qed.

Lemma strtol_reads_decimal_witness :
  strtol (fmt_d 12 ++ "x") = (Z.min LONG_MAX 12, "x"%string) /\
  strtol (fmt_u 12 ++ "x") = (Z.min LONG_MAX 12, "x"%string).
Proof.
  assert (H1 : 0 <= 12) by lia.
  assert (H2 : no_digit_ahead "x" = true) by reflexivity.
  exact (strtol_reads_decimal 12 "x" H1 H2).
Defined.

(** ** The lines of the file *)

Lemma digit_not_other (c x : ascii) :
  isdigit c = true -> isdigit x = false -> Ascii.eqb c x = false.
Proof.
  intros Hc Hx. destruct (Ascii.eqb_spec c x) as [-> | _]; [congruence | reflexivity].
Qed.

Lemma occurs_all_digits (x : ascii) (a : string) :
  all_digits a = true -> isdigit x = false -> occurs x a = false.
Proof.
  intros Ha Hx. induction a as [| c a IH]; [reflexivity |].
  cbn [all_digits occurs] in *. apply andb_prop in Ha. destruct Ha as [Hc Ha].
  rewrite (digit_not_other c x Hc Hx), (IH Ha). reflexivity.
Qed.

Lemma strchr_found (c : ascii) (a b : string) :
  occurs c a = false -> strchr (a ++ String c b) c = Some (String c b).
Proof.
  intros Ha. induction a as [| x a IH]; cbn [String.append strchr].
  - rewrite Ascii.eqb_refl. reflexivity.
  - cbn [occurs] in Ha. apply Bool.orb_false_iff in Ha. destruct Ha as [Hx Ha].
    rewrite Hx. apply IH. exact Ha.
Qed.

Lemma strchr_none (c : ascii) (a : string) : occurs c a = false -> strchr a c = None.
Proof.
  intros Ha. induction a as [| x a IH]; [reflexivity |].
  cbn [occurs strchr] in *. apply Bool.orb_false_iff in Ha. destruct Ha as [Hx Ha].
  rewrite Hx. apply IH. exact Ha.
Qed.

Lemma substring_prefix (a q : string) : substring 0 (String.length a) (a ++ q) = a.
Proof.
  induction a as [| x a IH]; cbn [String.length String.append substring].
  - destruct q; reflexivity.
  - rewrite IH. reflexivity.
Qed.

Lemma cut_at_append (a q : string) : cut_at (a ++ q) q = a.
Proof.
  unfold cut_at. rewrite string_length_append.
  replace (String.length a + String.length q - String.length q)%nat
    with (String.length a) by lia.
  apply substring_prefix.
Qed.

Lemma skip_spaces_none (s : string) :
  match s with String c _ => isspace c = false | EmptyString => True end ->
  skip_spaces s = s.
Proof.
  destruct s as [| c s]; [reflexivity |]. cbn [skip_spaces]. intros ->. reflexivity.
Qed.

Lemma digit_shape (c : ascii) :
  isdigit c = true ->
  isspace c = false /\ Ascii.eqb c "#" = false /\ Ascii.eqb c tab_char = false.
Proof.
  intros Hc. destruct c as [[] [] [] [] [] [] [] []]; try discriminate Hc; auto.
Qed.

(** A line that begins with two decimal numbers, each with a tab behind
    it: the two indices are accepted, and the rest of the line holds the
    name and the comment. *)
Lemma parse_line_head (seg idx : Z) (rest : string) :
  0 <= seg -> 0 <= idx ->
  parse_mapping_line (digits seg ++ tab ++ digits idx ++ tab ++ rest)
  = let '(filename, comment_start) :=
      match strchr rest tab_char with
      | Some tab3 => (rtrim (cut_at rest tab3), Some (ptr_succ tab3))
      | None => (rtrim rest, None)
      end in
    LineEntry
      (mkMessageMapping (to_int (Z.min LONG_MAX seg)) (to_int (Z.min LONG_MAX idx))
         filename
         match comment_start with
         | Some (String c text) => Some (clean_comment (rtrim (String c text)))
         | _ => None
         end).
Proof.
  intros Hseg Hidx.
  destruct (digits_all_digits seg Hseg) as [Hsd Hsn].
  destruct (digits_all_digits idx Hidx) as [Hid Hin].
  pose proof (occurs_all_digits tab_char _ Hsd eq_refl) as Hstab.
  pose proof (occurs_all_digits tab_char _ Hid eq_refl) as Hitab.
  assert (Hstrtol : forall v, 0 <= v -> strtol (digits v) = (Z.min LONG_MAX v, EmptyString)).
  { intros v Hv. pose proof (strtol_digits_text v EmptyString Hv eq_refl) as H.
    rewrite string_app_nil_r in H. exact H. }
  unfold parse_mapping_line.
  destruct (digits seg) as [| c s] eqn:Hs; [congruence |].
  cbn [all_digits] in Hsd. apply andb_prop in Hsd. destruct Hsd as [Hc Hsd].
  destruct (digit_shape c Hc) as (Hspace & Hhash & Htab).
  cbn [String.append]. cbn [skip_spaces]. rewrite Hspace, Hhash.
  change (String c (s ++ tab ++ digits idx ++ tab ++ rest))%string
    with (String c s ++ String tab_char (digits idx ++ String tab_char rest))%string.
  rewrite (strchr_found tab_char (String c s) _ Hstab). cbn [ptr_succ].
  rewrite (strchr_found tab_char (digits idx) rest Hitab). cbn [ptr_succ].
  rewrite cut_at_append, cut_at_append.
  rewrite <- Hs, (Hstrtol seg Hseg), (Hstrtol idx Hidx).
  change (negb ("" =? "")%string) with false. cbn [orb].
  assert (Hok : (Z.min LONG_MAX seg <? 0) || (Z.min LONG_MAX idx <? 0) = false)
    by (unfold LONG_MAX; lia).
  rewrite Hok. reflexivity.
Qed.

Lemma parse_line_with_comment (seg idx : Z) (name tail : string) :
  0 <= seg -> 0 <= idx -> occurs tab_char name = false ->
  parse_mapping_line (digits seg ++ tab ++ digits idx ++ tab ++ name ++ tab ++ tail)
  = LineEntry
      (mkMessageMapping (to_int (Z.min LONG_MAX seg)) (to_int (Z.min LONG_MAX idx))
         (rtrim name)
         match tail with
         | EmptyString => None
         | _ => Some (clean_comment (rtrim tail))
         end).
Proof.
  intros Hseg Hidx Hname. rewrite (parse_line_head seg idx _ Hseg Hidx).
  change (name ++ tab ++ tail)%string with (name ++ String tab_char tail)%string.
  rewrite (strchr_found tab_char name tail Hname), cut_at_append. cbn [ptr_succ].
  destruct tail; reflexivity.
Qed.



(** ** A listing is a mapping file *)

Lemma rtrim_spaces (w : string) : all_spaces w = true -> rtrim w = EmptyString.
Proof.
  induction w as [| c w IH]; [reflexivity |]. cbn [all_spaces rtrim].
  intros H. apply andb_prop in H. destruct H as [Hc Hw]. rewrite (IH Hw), Hc.
  reflexivity.
Qed.

Lemma rtrim_app_spaces (a w : string) :
  all_spaces w = true -> rtrim (a ++ w) = rtrim a.
Proof.
  intros Hw. induction a as [| c a IH]; cbn [String.append rtrim].
  - apply rtrim_spaces. exact Hw.
  - rewrite IH. reflexivity.
Qed.

Lemma rtrim_app_fixed (a b : string) :
  rtrim b = b -> b <> EmptyString -> rtrim (a ++ b) = (a ++ b)%string.
Proof.
  intros Hb Hne. induction a as [| c a IH]; cbn [String.append rtrim]; [exact Hb |].
  rewrite IH. destruct (a ++ b)%string eqn:Hab; [| reflexivity].
  destruct a; [cbn [String.append] in Hab; congruence | discriminate].
Qed.

Lemma skip_spaces_app (w t : string) :
  all_spaces w = true -> skip_spaces (w ++ t) = skip_spaces t.
Proof.
  induction w as [| c w IH]; [reflexivity |]. cbn [all_spaces String.append skip_spaces].
  intros H. apply andb_prop in H. destruct H as [-> Hw]. apply IH. exact Hw.
Qed.

Lemma clean_comment_hash (w text : string) :
  all_spaces w = true ->
  clean_comment (w ++ String "#" text) = skip_spaces text.
Proof.
  intros Hw. unfold clean_comment.
  destruct (w ++ String "#" text)%string as [| c s] eqn:Hs.
  { destruct w; discriminate. }
  rewrite <- Hs, (skip_spaces_app w _ Hw). reflexivity.
Qed.

Lemma all_spaces_tabs (k : nat) : all_spaces (replicate k tab) = true.
Proof.
  induction k as [| k IH]; [reflexivity | exact IH].
Qed.

Lemma to_int_id (z : Z) : - 2 ^ 31 <= z < 2 ^ 31 -> to_int z = z.
Proof.
  intros H. unfold to_int. change (2 ^ 31) with 2147483648 in *.
  change (2 ^ 32) with 4294967296. rewrite Z.mod_small by lia. lia.
Qed.

(** X27: a listing is a mapping file.  The line that the listing prints
    for a record, read by [load_mappings], gives back the segment, the
    index and the file name of that line and, as the comment, the text
    behind the hash; and the entry read back lists as the very same line.
    This holds for indices that fit an [int], a name without a tab and
    without white space at its end, and a comment of the mapping without
    white space at its ends. *)
Theorem listing_line_loads_back
    (rom : list byte) (start_address seg idx : Z) (mapping : option MessageMapping)
    (evs : list event) :
  0 <= seg < 2 ^ 31 -> 0 <= idx < 2 ^ 31 ->
  occurs tab_char (output_base_of mapping seg idx) = false ->
  rtrim (output_base_of mapping seg idx) = output_base_of mapping seg idx ->
  rtrim (user_comment_text mapping) = user_comment_text mapping ->
  skip_spaces (user_comment_text mapping) = user_comment_text mapping ->
  list_message rom start_address seg idx mapping = Finished evs ->
  exists line body,
    In (Stdout line) evs /\
    parse_mapping_line line
    = LineEntry (mkMessageMapping seg idx (output_base_of mapping seg idx) (Some body)) /\
    list_message rom start_address seg idx
      (Some (mkMessageMapping seg idx (output_base_of mapping seg idx) (Some body)))
    = Finished evs.
Proof.
  intros Hseg Hidx Hname Hrname Hrc Hsc.
  change (2 ^ 31) with 2147483648 in Hseg, Hidx.
  unfold list_message. cbn [output_filename_base comment].
  fold (output_base_of mapping seg idx).
  set (name := output_base_of mapping seg idx) in *.
  set (ok := start_address <? rom_size rom).
  set (mode := if ok then match rom_at rom start_address with
                          | Some b => b
                          | None => 255
                          end else 255).
  set (uc := match mapping with Some m => comment m | None => None end).
  assert (Htext : match uc with Some c => c | None => EmptyString end
                  = user_comment_text mapping).
  { subst uc. unfold user_comment_text. destruct mapping as [m |]; reflexivity. }
  set (c := user_comment_text mapping) in *.
  pose proof (build_comment_cases ok mode uc) as Hcases. rewrite Htext in Hcases.
  set (tagged := ok && (mode =? MODE_PCM) && negb (strstr c "(PCM)")) in *.
  set (body := if tagged then if strlen c >? 0 then ("(PCM) " ++ c)%string
                              else "(PCM)"%string
               else c).
  assert (Hbuffer : build_comment ok mode uc = ("# " ++ body)%string).
  { rewrite Hcases. subst body. destruct tagged; [| reflexivity].
    destruct (strlen c >? 0); reflexivity. }
  assert (Hbody : body = EmptyString \/
                  (body <> EmptyString /\ rtrim body = body /\ skip_spaces body = body)).
  { subst body. destruct tagged.
    - right. destruct (strlen c >? 0) eqn:Hc; [| repeat split; discriminate].
      assert (Hne : c <> EmptyString) by (intros E; rewrite E in Hc; discriminate).
      split; [discriminate |]. split; [| reflexivity].
      apply (rtrim_app_fixed "(PCM) " c Hrc Hne).
    - destruct c as [| x c']; [left; reflexivity | right].
      split; [discriminate | split; assumption]. }
  assert (Hagain : build_comment ok mode (Some body) = ("# " ++ body)%string).
  { rewrite (build_comment_cases ok mode (Some body)).
    assert (Hnot : ok && (mode =? MODE_PCM) && negb (strstr body "(PCM)") = false).
    { subst body. destruct tagged eqn:Htag; [| exact Htag].
      destruct (strlen c >? 0); cbn [strstr prefix]; rewrite Bool.andb_false_r;
        reflexivity. }
    rewrite Hnot. reflexivity. }
  rewrite Hbuffer.
  destruct (strlen ("# " ++ body) >=? 256) eqn:Hfit; [discriminate |].
  intros [= <-].
  pose proof (strlen_nonneg name) as Hlen.
  assert (Htabs : exists k, Z.to_nat (tabs_to_print name) = S k).
  { assert (H1 : 1 <= tabs_to_print name).
    { unfold tabs_to_print.
      change ((LIST_FILENAME_ALIGN_WIDTH + TAB_WIDTH - 1) / TAB_WIDTH) with 5.
      unfold TAB_WIDTH. destruct (strlen name / 8 <? 5) eqn:Hlt; lia. }
    exists (Z.to_nat (tabs_to_print name) - 1)%nat. lia. }
  destruct Htabs as [k Hk]. rewrite Hk.
  eexists. exists body. split; [apply in_or_app; right; left; reflexivity |].
  split; [| rewrite Hagain, Hfit; reflexivity].
  rewrite (fmt_d_digits seg) by lia. unfold fmt_u.
  change (parse_mapping_line
            (digits seg ++ tab ++ digits idx ++ tab ++ name ++ tab
             ++ (replicate k tab ++ ("# " ++ body) ++ newline))
          = LineEntry (mkMessageMapping seg idx name (Some body))).
  rewrite (parse_line_with_comment seg idx name _) by (lia || assumption).
  rewrite Hrname.
  rewrite !Z.min_r by (unfold LONG_MAX; lia).
  rewrite !to_int_id by (change (2 ^ 31) with 2147483648; lia).
  assert (Hclean :
    clean_comment (rtrim (replicate k tab ++ ("# " ++ body) ++ newline)) = body).
  { destruct Hbody as [-> | (Hne & Hrb & Hsb)].
    - change (replicate k tab ++ ("# " ++ "") ++ newline)%string
        with (replicate k tab ++ "#" ++ (" " ++ newline))%string.
      rewrite <- string_app_assoc, rtrim_app_spaces by reflexivity.
      rewrite rtrim_app_fixed by (reflexivity || discriminate).
      rewrite clean_comment_hash by apply all_spaces_tabs. reflexivity.
    - replace (replicate k tab ++ ("# " ++ body) ++ newline)%string
        with ((replicate k tab ++ "# " ++ body) ++ newline)%string
        by (rewrite !string_app_assoc; reflexivity).
      rewrite rtrim_app_spaces by reflexivity.
      replace (replicate k tab ++ "# " ++ body)%string
        with ((replicate k tab ++ "# ") ++ body)%string
        by (rewrite !string_app_assoc; reflexivity).
      rewrite rtrim_app_fixed by assumption.
      rewrite string_app_assoc.
      change ("# " ++ body)%string with (String "#" (" " ++ body))%string.
      rewrite clean_comment_hash by apply all_spaces_tabs.
      cbn [String.append skip_spaces]. change (isspace " ") with true. cbv iota.
      exact Hsb. }
  destruct (replicate k tab ++ ("# " ++ body) ++ newline)%string eqn:Htail.
  { destruct k; discriminate. }
  rewrite Hclean. reflexivity.
Qed.

Lemma listing_line_loads_back_witness :
  exists line body,
    In (Stdout line)
      [Stdout ("0" ++ tab ++ "0" ++ tab ++ "message_0_000" ++ tab ++ tab ++ tab ++ tab
               ++ "# " ++ newline)] /\
    parse_mapping_line line
    = LineEntry (mkMessageMapping 0 0 (output_base_of None 0 0) (Some body)) /\
    list_message one_message_rom 8 0 0
      (Some (mkMessageMapping 0 0 (output_base_of None 0 0) (Some body)))
    = Finished
        [Stdout ("0" ++ tab ++ "0" ++ tab ++ "message_0_000" ++ tab ++ tab ++ tab ++ tab
                 ++ "# " ++ newline)].
Proof.
  assert (H1 : 0 <= 0 < 2 ^ 31) by (split; [lia | reflexivity]).
  assert (H2 : occurs tab_char (output_base_of None 0 0) = false) by reflexivity.
  assert (H3 : rtrim (output_base_of None 0 0) = output_base_of None 0 0) by reflexivity.
  assert (H4 : rtrim (user_comment_text None) = user_comment_text None) by reflexivity.
  assert (H5 : skip_spaces (user_comment_text None) = user_comment_text None)
    by reflexivity.
  assert (H6 : list_message one_message_rom 8 0 0 None
               = Finished
                   [Stdout ("0" ++ tab ++ "0" ++ tab ++ "message_0_000"
                            ++ tab ++ tab ++ tab ++ tab ++ "# " ++ newline)])
    by (vm_compute; reflexivity).
  exact (listing_line_loads_back one_message_rom 8 0 0 None _ H1 H1 H2 H3 H4 H5 H6).
Defined.

(** ** [load_mappings] as a whole *)

Lemma fgets_chars_shorter (room : nat) :
  forall input line rest,
    fgets_chars room input = (line, rest) ->
    (String.length rest <= String.length input)%nat /\
    (room <> 0%nat -> input <> EmptyString ->
     (String.length rest < String.length input)%nat).
Proof.
  induction room as [| room IH]; intros input line rest H.
  - cbn [fgets_chars] in H. injection H as <- <-. split; [lia | congruence].
  - destruct input as [| c input]; cbn [fgets_chars] in H.
    + injection H as <- <-. split; [lia | congruence].
    + destruct (Ascii.eqb c newline_char).
      * injection H as <- <-. cbn [String.length]. split; lia.
      * destruct (fgets_chars room input) as [line' rest'] eqn:Hrest.
        injection H as <- <-. destruct (IH _ _ _ Hrest) as [Hle _].
        cbn [String.length]. split; lia.
Qed.

Lemma fgets_shorter (size : nat) (input line rest : string) :
  (1 < size)%nat -> fgets size input = Some (line, rest) ->
  (String.length rest < String.length input)%nat.
Proof.
  intros Hsize. unfold fgets. destruct input as [| c input]; [discriminate |].
  intros [= Hgets]. destruct (fgets_chars_shorter _ _ _ _ Hgets) as [_ Hlt].
  apply Hlt; [lia | discriminate].
Qed.

Lemma add_mapping_nodup (table : MappingTable) (entry : MessageMapping) :
  NoDup (map mapping_key table) -> NoDup (map mapping_key (add_mapping table entry)).
Proof.
  intros Hnodup. destruct (add_mapping_keys table entry) as [Hin Hout].
  assert (Hdec : forall a b : Z * Z, {a = b} + {a <> b})
    by (decide equality; apply Z.eq_dec).
  destruct (in_dec Hdec (mapping_key entry) (map mapping_key table)) as [Hyes | Hno].
  - rewrite (Hin Hyes). exact Hnodup.
  - rewrite (Hout Hno), map_app. cbn [map].
    apply NoDup_Add with (a := mapping_key entry) (l := map mapping_key table).
    + rewrite <- (app_nil_r (map mapping_key table)) at 1. apply Add_app.
    + split; assumption.
Qed.

Lemma load_lines_ends (fuel : nat) :
  forall input line_num table,
    (String.length input <= fuel)%nat ->
    NoDup (map mapping_key table) ->
    exists ok table' diags,
      load_lines fuel input line_num table = Finished (ok, table', diags) /\
      NoDup (map mapping_key table') /\
      (ok = true -> diags = []) /\
      (ok = false -> table' = [] /\ exists d, diags = [d]).
Proof.
  induction fuel as [| fuel IH]; intros input line_num table Hfuel Hnodup.
  - destruct input as [| c input]; [| cbn [String.length] in Hfuel; lia].
    exists true, table, []. cbn [load_lines fgets]. repeat split; auto; discriminate.
  - cbn [load_lines]. destruct (fgets 1024 input) as [[line rest] |] eqn:Hgets.
    + assert (Hshort : (String.length rest <= fuel)%nat).
      { assert (H : (String.length rest < String.length input)%nat)
          by (apply (fgets_shorter 1024 input line rest); [lia | exact Hgets]).
        lia. }
      destruct (parse_mapping_line line) as [| entry | |].
      * apply IH; assumption.
      * apply IH; [exact Hshort | apply add_mapping_nodup; exact Hnodup].
      * exists false, [], [ErrMissingTabs (line_num + 1)].
        repeat split; try discriminate; [constructor | eexists; reflexivity].
      * exists false, [], [ErrInvalidIndex (line_num + 1)].
        repeat split; try discriminate; [constructor | eexists; reflexivity].
    + exists true, table, []. repeat split; auto; discriminate.
Qed.

(** X28: [load_mappings] comes to an end for every file; the table it leaves
    holds every pair of indices at most once; when it fails, one error
    has been printed and the table is empty. *)
Theorem load_mappings_ends (text : string) :
  exists ok table diags,
    load_mappings (Some text) [] = Finished (ok, table, diags) /\
    NoDup (map mapping_key table) /\
    (ok = true -> diags = []) /\
    (ok = false -> table = [] /\ exists d, diags = [d]).
Proof.
  unfold load_mappings. apply load_lines_ends; [lia | constructor].
Qed.

(** Lines that are blank or begin, behind white space, with a hash are
    skipped: they can stand anywhere in the file and change nothing. *)
Lemma skipped_line (line : string) :
  match skip_spaces line with
  | EmptyString => True
  | String c _ => c = "#"%char
  end ->
  parse_mapping_line line = LineSkipped.
Proof.
  unfold parse_mapping_line. destruct (skip_spaces line) as [| c s]; [reflexivity |].
  intros ->. reflexivity.
Qed.

(** ** [parse_arguments] *)

Lemma strtol_range (text : string) : LONG_MIN <= fst (strtol text) <= LONG_MAX.
Proof.
  unfold strtol.
  match goal with |- _ <= fst (match ?m with pair _ _ => _ end) <= _ =>
    destruct m as [negative p] end.
  assert (Hzero : LONG_MIN <= 0 <= LONG_MAX) by (unfold LONG_MIN, LONG_MAX; lia).
  destruct p as [| c p]; [exact Hzero |].
  destruct (isdigit c); [| exact Hzero].
  destruct (strtol_digits (String c p) 0) as [value endptr]. cbn [fst].
  unfold LONG_MIN, LONG_MAX. lia.
Qed.

Lemma parse_loop_keeps (n : nat) :
  forall args a0 a,
    (length args <= n)%nat ->
    parse_loop args a0 = inl a ->
    (-1 <= target_message_idx a0 <= LONG_MAX -> -1 <= target_message_idx a <= LONG_MAX) /\
    (rom_filepath a = rom_filepath a0 \/
     exists path, rom_filepath a = Some path /\ In path args) /\
    (list_mode a = true ->
     list_mode a0 = true \/ In "-l"%string args \/ In "--list"%string args) /\
    (quiet_mode a = true ->
     quiet_mode a0 = true \/ In "-q"%string args \/ In "--quiet"%string args).
Proof.
  induction n as [| n IH]; intros args a0 a Hlen Hrun.
  { destruct args; [| cbn [length] in Hlen; lia]. injection Hrun as <-. auto. }
  destruct args as [| arg rest]; [injection Hrun as <-; auto |].
  cbn [length] in Hlen. cbn [parse_loop] in Hrun.
  assert (Hstep : forall a1,
    parse_loop rest a1 = inl a ->
    (-1 <= target_message_idx a0 <= LONG_MAX -> -1 <= target_message_idx a1 <= LONG_MAX) ->
    (rom_filepath a1 = rom_filepath a0 \/ rom_filepath a1 = Some arg) ->
    (list_mode a1 = true -> list_mode a0 = true \/ arg = "-l"%string
                            \/ arg = "--list"%string) ->
    (quiet_mode a1 = true -> quiet_mode a0 = true \/ arg = "-q"%string
                             \/ arg = "--quiet"%string) ->
    (-1 <= target_message_idx a0 <= LONG_MAX -> -1 <= target_message_idx a <= LONG_MAX) /\
    (rom_filepath a = rom_filepath a0 \/
     exists path, rom_filepath a = Some path /\ In path (arg :: rest)) /\
    (list_mode a = true ->
     list_mode a0 = true \/ In "-l"%string (arg :: rest)
     \/ In "--list"%string (arg :: rest)) /\
    (quiet_mode a = true ->
     quiet_mode a0 = true \/ In "-q"%string (arg :: rest)
     \/ In "--quiet"%string (arg :: rest))).
  { intros a1 Hrest Ht Hr Hl Hq.
    destruct (IH rest a1 a) as (It & Ir & Il & Iq); [lia | exact Hrest |].
    split; [tauto |]. split; [| split].
    - destruct Ir as [Ir | (path & Ip & Iin)].
      + rewrite Ir. destruct Hr as [Hr | Hr]; [left; exact Hr |].
        right. exists arg. split; [exact Hr | left; reflexivity].
      + right. exists path. split; [exact Ip | right; exact Iin].
    - intros H. destruct (Il H) as [H1 | [H1 | H1]]; cbn [In]; [| tauto | tauto].
      destruct (Hl H1) as [H2 | [H2 | H2]]; auto.
    - intros H. destruct (Iq H) as [H1 | [H1 | H1]]; cbn [In]; [| tauto | tauto].
      destruct (Hq H1) as [H2 | [H2 | H2]]; auto. }
  assert (Hskip : forall arg' rest' a1,
    rest = arg' :: rest' ->
    parse_loop rest' a1 = inl a ->
    (-1 <= target_message_idx a0 <= LONG_MAX -> -1 <= target_message_idx a1 <= LONG_MAX) ->
    rom_filepath a1 = rom_filepath a0 ->
    list_mode a1 = list_mode a0 -> quiet_mode a1 = quiet_mode a0 ->
    (-1 <= target_message_idx a0 <= LONG_MAX -> -1 <= target_message_idx a <= LONG_MAX) /\
    (rom_filepath a = rom_filepath a0 \/
     exists path, rom_filepath a = Some path /\ In path (arg :: rest)) /\
    (list_mode a = true ->
     list_mode a0 = true \/ In "-l"%string (arg :: rest)
     \/ In "--list"%string (arg :: rest)) /\
    (quiet_mode a = true ->
     quiet_mode a0 = true \/ In "-q"%string (arg :: rest)
     \/ In "--quiet"%string (arg :: rest))).
  { intros arg' rest' a1 -> Hrest Ht Hr Hl Hq.
    destruct (IH rest' a1 a) as (It & Ir & Il & Iq);
      [cbn [length] in Hlen; lia | exact Hrest |].
    rewrite Hr in Ir. rewrite Hl in Il. rewrite Hq in Iq.
    split; [tauto |]. split; [| split].
    - destruct Ir as [Ir | (path & Ip & Iin)]; [left; exact Ir |].
      right. exists path. split; [exact Ip | right; right; exact Iin].
    - intros H. destruct (Il H) as [H1 | [H1 | H1]]; cbn [In]; tauto.
    - intros H. destruct (Iq H) as [H1 | [H1 | H1]]; cbn [In]; tauto. }
  destruct (String.eqb_spec arg "-m") as [Em | _].
  { destruct rest as [| path rest']; [discriminate |].
    apply (Hskip path rest' _ eq_refl Hrun); auto. }
  destruct (String.eqb_spec arg "-i") as [Ei | _].
  { destruct rest as [| text rest']; [discriminate |].
    pose proof (strtol_range text) as Hrange.
    destruct (strtol text) as [value endptr]. cbn [fst] in Hrange.
    destruct (negb (endptr =? "")%string || (value <? 0)) eqn:Hbad; [discriminate |].
    apply (Hskip text rest' _ eq_refl Hrun); auto.
    cbn [target_message_idx]. intros _. lia. }
  destruct (String.eqb_spec arg "-l") as [El | _]; cbn [orb] in Hrun.
  { apply (Hstep _ Hrun); cbn [target_message_idx rom_filepath list_mode quiet_mode];
      auto. }
  destruct (String.eqb_spec arg "--list") as [El | _].
  { apply (Hstep _ Hrun); cbn [target_message_idx rom_filepath list_mode quiet_mode];
      auto. }
  destruct (String.eqb_spec arg "-q") as [Eq | _]; cbn [orb] in Hrun.
  { apply (Hstep _ Hrun); cbn [target_message_idx rom_filepath list_mode quiet_mode];
      auto. }
  destruct (String.eqb_spec arg "--quiet") as [Eq | _].
  { apply (Hstep _ Hrun); cbn [target_message_idx rom_filepath list_mode quiet_mode];
      auto. }
  destruct ((arg =? "-v")%string || (arg =? "--verbose")%string).
  { apply (Hstep _ Hrun); cbn [target_message_idx rom_filepath list_mode quiet_mode];
      auto. }
  destruct ((arg =? "-h")%string || (arg =? "--help")%string); [discriminate |].
  assert (Hplain : match rom_filepath a0 with
                   | None =>
                       parse_loop rest
                         (mkArguments (Some arg) (map_filepath a0)
                            (target_message_idx a0) (list_mode a0) (quiet_mode a0)
                            (verbose_mode a0))
                   | Some _ => inr (ErrUnexpectedArgument arg)
                   end = inl a).
  { destruct arg as [| c arg']; [exact Hrun |].
    destruct c as [[] [] [] [] [] [] [] []]; try exact Hrun; discriminate Hrun. }
  destruct (rom_filepath a0) eqn:Hrom; [discriminate |].
  apply (Hstep _ Hplain); cbn [target_message_idx rom_filepath list_mode quiet_mode];
    auto.
Qed.

(** X29: the arguments as [parse_arguments] hands them to [main]: there is a
    ROM path, and it is one of the arguments; quiet wins over verbose; a
    listing has no target; the target is -1 or a number that [strtol] has
    read, not negative; and the flags are set only if they were given. *)
Theorem parse_arguments_result (args : list string) (a : Arguments) :
  parse_arguments args = inl a ->
  (exists path, rom_filepath a = Some path /\ In path args) /\
  (quiet_mode a = true -> verbose_mode a = false) /\
  (list_mode a = true -> target_message_idx a = -1) /\
  -1 <= target_message_idx a <= LONG_MAX /\
  (list_mode a = true -> In "-l"%string args \/ In "--list"%string args) /\
  (quiet_mode a = true -> In "-q"%string args \/ In "--quiet"%string args).
Proof.
  unfold parse_arguments.
  destruct (parse_loop args (mkArguments None None (-1) false false false))
    as [a1 | e] eqn:Hloop; [| discriminate].
  destruct (parse_loop_keeps (length args) args _ a1 (le_n _) Hloop)
    as (Ht & Hr & Hl & Hq).
  cbn [target_message_idx rom_filepath list_mode quiet_mode] in *.
  assert (Ht' : -1 <= target_message_idx a1 <= LONG_MAX)
    by (apply Ht; unfold LONG_MAX; lia).
  destruct (rom_filepath a1) as [path |] eqn:Hrom; [| discriminate].
  intros [= <-]. cbn [target_message_idx rom_filepath list_mode quiet_mode verbose_mode].
  split.
  { destruct Hr as [Hr | (p & Hp & Hin)]; [discriminate |].
    exists p. split; [exact Hp | exact Hin]. }
  split; [intros ->; reflexivity |].
  split.
  { intros ->. cbn [andb]. destruct (target_message_idx a1 >=? 0) eqn:Hge; lia. }
  split.
  { destruct (list_mode a1 && (target_message_idx a1 >=? 0)); [unfold LONG_MAX |]; lia. }
  split.
  - intros H. destruct (Hl H) as [H1 | H1]; [discriminate | exact H1].
  - intros H. destruct (Hq H) as [H1 | H1]; [discriminate | exact H1].
Qed.

Lemma parse_arguments_result_witness :
  (exists path,
     rom_filepath (mkArguments (Some "rom.bin"%string) None (-1) true true false)
     = Some path /\
     In path ["rom.bin"; "-l"; "-i"; "5"; "-v"; "-q"]%string) /\
  (true = true -> false = false) /\ (true = true -> -1 = -1) /\
  -1 <= -1 <= LONG_MAX /\
  (true = true ->
   In "-l"%string ["rom.bin"; "-l"; "-i"; "5"; "-v"; "-q"]%string
   \/ In "--list"%string ["rom.bin"; "-l"; "-i"; "5"; "-v"; "-q"]%string) /\
  (true = true ->
   In "-q"%string ["rom.bin"; "-l"; "-i"; "5"; "-v"; "-q"]%string
   \/ In "--quiet"%string ["rom.bin"; "-l"; "-i"; "5"; "-v"; "-q"]%string).
Proof.
  assert (H : parse_arguments ["rom.bin"; "-l"; "-i"; "5"; "-v"; "-q"]%string
              = inl (mkArguments (Some "rom.bin"%string) None (-1) true true false))
    by (vm_compute; reflexivity).
  exact (parse_arguments_result _ _ H).
Defined.

(** ** The exit code and the diagnostics *)

Lemma no_fatal_app (a b : list diag) : no_fatal a -> no_fatal b -> no_fatal (a ++ b).
Proof.
  intros Ha Hb. apply Forall_app. split; assumption.
Qed.

Lemma no_fatal_silence (n : nat) (b : PcmBuffer) (ok : bool) (b' : PcmBuffer)
    (d : list diag) :
  add_silence n b = (ok, b', d) -> no_fatal d.
Proof.
  intros H. apply Forall_forall. intros x Hx.
  rewrite (add_silence_diags _ _ _ _ _ H x Hx). reflexivity.
Qed.

Lemma no_fatal_nibble (nibble : Z) (a : AdpcmState) (b : PcmBuffer) (r : nibble_result) :
  decode_nibble nibble a b = Some r -> no_fatal (nr_diags r).
Proof.
  intros H. apply Forall_forall. intros x Hx.
  destruct (decode_nibble_diags _ _ _ _ H x Hx) as [-> | [i ->]]; reflexivity.
Qed.

(** A pass through the loop prints nothing fatal. *)
Lemma loop_body_no_fatal (rom : list byte) (absolute_msg_idx : Z) (s : DecodeState) :
  no_fatal (stderr s) ->
  match loop_body rom absolute_msg_idx s with
  | Continue s' => no_fatal (stderr s')
  | Break s' => no_fatal (stderr s')
  | Undefined => True
  end.
Proof.
  intros Hq.
  assert (Hrep : forall t, stderr (handle_repeat t) = stderr t).
  { intros t. unfold handle_repeat.
    destruct ((repeat_count t >? 0) && (nibble_count t =? 0));
      [destruct (repeat_count t - 1 >? 0) |]; reflexivity. }
  assert (Hone : forall d, fatal_diag d = false -> no_fatal (stderr s ++ [d])).
  { intros d Hd. apply no_fatal_app; [exact Hq |]. constructor; [exact Hd | constructor]. }
  unfold loop_body. destruct (nibble_count s >? 0).
  - unfold nibble_phase.
    destruct (current_pos s >=? rom_size rom); [fields; apply Hone; reflexivity |].
    destruct (rom_at rom (current_pos s)) as [b |]; [| exact I].
    destruct (decode_nibble _ (adpcm s) (pcm_buffer s)) as [r1 |] eqn:Hd1; [| exact I].
    pose proof (no_fatal_nibble _ _ _ _ Hd1) as Hq1.
    destruct (nr_ok r1); cbn [negb].
    + destruct (nibble_count s - 1 >? 0).
      * destruct (decode_nibble _ (nr_state r1) (nr_buffer r1)) as [r2 |] eqn:Hd2;
          [| exact I].
        pose proof (no_fatal_nibble _ _ _ _ Hd2) as Hq2.
        destruct (nr_ok r2); cbn [negb]; rewrite ?Hrep; fields;
          repeat apply no_fatal_app; assumption.
      * rewrite Hrep. fields. apply no_fatal_app; assumption.
    + fields. apply no_fatal_app; assumption.
  - unfold command_phase.
    destruct (current_pos s >=? rom_size rom); [fields; apply Hone; reflexivity |].
    destruct (rom_at rom (current_pos s)) as [c |]; [| exact I].
    destruct (c =? 0); [fields; destruct (decoding_ok s); exact Hq |].
    destruct ((c >=? 1) && (c <=? 63)).
    { destruct (add_silence (Z.to_nat (to_uint32 (c * 8))) (pcm_buffer s))
        as [[ok b'] d] eqn:Hsil.
      pose proof (no_fatal_silence _ _ _ _ _ Hsil) as Hd.
      fields. destruct (if ok then decoding_ok s else false); fields;
        apply no_fatal_app; assumption. }
    destruct ((c >=? 64) && (c <=? 127));
      [fields; destruct (decoding_ok s); exact Hq |].
    destruct ((c >=? 128) && (c <=? 191)).
    { destruct (current_pos s + 1 >=? rom_size rom);
        [fields; apply Hone; reflexivity |].
      destruct (rom_at rom (current_pos s + 1)); [| exact I].
      fields. destruct (decoding_ok s); exact Hq. }
    destruct ((c >=? 192) && (c <=? 255)).
    { destruct (current_pos s + 1 >=? rom_size rom);
        [fields; apply Hone; reflexivity |].
      destruct (rom_at rom (current_pos s + 1)); [| exact I].
      fields. destruct (decoding_ok s); exact Hq. }
    fields. apply Hone. reflexivity.
Qed.

Lemma decode_loop_no_fatal (rom : list byte) (absolute_msg_idx : Z) (fuel : nat) :
  forall s s',
    no_fatal (stderr s) ->
    decode_loop rom absolute_msg_idx fuel s = Finished s' -> no_fatal (stderr s').
Proof.
  induction fuel as [| fuel IH]; intros s s' Hq; cbn [decode_loop];
    destruct (loop_cond rom s); try discriminate;
    try (intros [= <-]; exact Hq).
  pose proof (loop_body_no_fatal rom absolute_msg_idx s Hq) as Hb.
  destruct (loop_body rom absolute_msg_idx s) as [s1 | s1 |]; try discriminate.
  - apply IH. exact Hb.
  - intros [= <-]. exact Hb.
Qed.

Lemma no_fatal_event_app (a b : list event) :
  no_fatal_event a -> no_fatal_event b -> no_fatal_event (a ++ b).
Proof.
  intros Ha Hb d Hd. apply in_app_iff in Hd. destruct Hd as [Hd | Hd]; auto.
Qed.

Lemma process_message_no_fatal
    (rom : list byte)
    (segment_start_offset segment_index_0_based msg_idx_in_segment
     absolute_msg_idx message_offset_in_segment next_message_offset_in_segment : Z)
    (mapping : option MessageMapping) (rom_basename : string)
    (continue : bool) (evs : list event) :
  process_message rom segment_start_offset segment_index_0_based
    msg_idx_in_segment absolute_msg_idx message_offset_in_segment
    next_message_offset_in_segment mapping rom_basename
  = Finished (continue, evs) ->
  no_fatal_event evs.
Proof.
  assert (Hone : forall e, match e with Stderr d => fatal_diag d = false | _ => True end ->
                           no_fatal_event [e]).
  { intros e He d [Hd | []]. rewrite Hd in He. exact He. }
  unfold process_message.
  destruct (_ >=? rom_size rom); [intros [= _ <-]; apply Hone; reflexivity |].
  destruct (rom_at rom _) as [mode |]; [| discriminate].
  destruct (mode =? MODE_ADPCM).
  - destruct (decode_loop rom absolute_msg_idx (decode_fuel rom) _) as [s | |] eqn:Hrun;
      try discriminate.
    assert (Hs : no_fatal_event (map Stderr (stderr s))).
    { assert (Hq0 : no_fatal (stderr (init_decode_state
                                       (segment_start_offset + message_offset_in_segment
                                        + 1)))) by constructor.
      pose proof (decode_loop_no_fatal _ _ _ _ _ Hq0 Hrun) as Hq.
      intros d Hd. apply in_map_iff in Hd. destruct Hd as (x & [= ->] & Hx).
      exact (proj1 (Forall_forall _ _) Hq d Hx). }
    destruct (decoding_ok s && (count (pcm_buffer s) >? 0));
      [| destruct (decoding_ok s && (count (pcm_buffer s) =? 0))];
      intros [= _ <-]; (apply no_fatal_event_app; [exact Hs |]); apply Hone;
      reflexivity || exact I.
  - destruct (mode =? MODE_PCM); [| intros [= _ <-]; apply Hone; reflexivity].
    destruct (_ <=? _); intros [= _ <-]; apply Hone; reflexivity || exact I.
Qed.

Lemma handle_message_iteration_no_fatal
    (rom : list byte) (seg_start seg idx abs : Z) (offset_table : list Z)
    (message_count : Z) (mapping_table : MappingTable) (rom_basename : string)
    (list_mode quiet_mode : bool) (target_message_idx : Z)
    (r : HandleMessageResult) (ev : list event) :
  handle_message_iteration rom seg_start seg idx abs offset_table message_count
    mapping_table rom_basename list_mode quiet_mode target_message_idx
  = Finished (r, ev) ->
  no_fatal_event ev.
Proof.
  unfold handle_message_iteration.
  destruct (index offset_table idx) as [words |]; [| discriminate].
  destruct list_mode.
  - destruct (negb quiet_mode); [| intros [= _ <-] d []].
    unfold list_message. destruct (strlen _ >=? 256); [discriminate |].
    intros [= _ <-].
    destruct (_ <? rom_size rom); intros d Hd; cbn [app In] in Hd.
    + destruct Hd as [Hd | []]. discriminate Hd.
    + destruct Hd as [Hd | [Hd | []]]; [| discriminate Hd].
      injection Hd as <-. reflexivity.
  - destruct ((target_message_idx <? 0) || (abs =? target_message_idx));
      [| intros [= _ <-] d []].
    destruct (if idx + 1 <? message_count then _ else _) as [next |];
      [| discriminate].
    destruct (process_message _ _ _ _ _ _ _ _ _) as [[continue ev'] | |] eqn:Hrun;
      try discriminate.
    pose proof (process_message_no_fatal _ _ _ _ _ _ _ _ _ _ _ Hrun) as Hev.
    destruct (negb continue); [intros [= _ <-]; exact Hev |].
    destruct ((target_message_idx >=? 0) && (abs =? target_message_idx));
      intros [= _ <-]; exact Hev.
Qed.

(** X11: the exit code tells whether something fatal was printed.  A run
    that ends with [EXIT_SUCCESS] has printed none of the fatal
    diagnostics, whatever went wrong inside the messages; a run that ends
    otherwise ends with [EXIT_FAILURE], and the last thing it printed is
    a fatal diagnostic, the only one of the run. *)
Theorem exit_code_tells_fatal
    (rom : list byte) (mapping_table : MappingTable) (rom_basename : string)
    (list_mode quiet_mode : bool) (target_message_idx : Z)
    (code : Z) (evs : list event) :
  main rom mapping_table rom_basename list_mode quiet_mode target_message_idx
  = Finished (code, evs) ->
  (code = EXIT_SUCCESS /\ no_fatal_event evs) \/
  (code = EXIT_FAILURE /\
   exists out d,
     evs = out ++ [Stderr d] /\ fatal_diag d = true /\ no_fatal_event out).
Proof.
  intros Hrun.
  assert (Hend : run_end (fun _ out => no_fatal_event out)
                   (negb list_mode && (target_message_idx >=? 0)) code evs).
  { apply (main_J rom mapping_table rom_basename list_mode quiet_mode
             target_message_idx (fun _ out => no_fatal_event out));
      [| | | exact Hrun].
    - intros d [].
    - intros _ _ d [Hd | []]. discriminate.
    - intros out seg_start seg idx abs tbl cnt r ev Hout Hit.
      apply no_fatal_event_app; [exact Hout |].
      exact (handle_message_iteration_no_fatal _ _ _ _ _ _ _ _ _ _ _ _ _ _ Hit). }
  destruct Hend as [(He & found & H & _) | (He & out & d & Hout & Hd & H)].
  - left. auto.
  - right. split; [exact He |]. exists out, d. auto.
Qed.

Lemma exit_code_tells_fatal_witness :
  (EXIT_FAILURE = EXIT_SUCCESS /\ no_fatal_event [Stderr ErrInvalidMagic]) \/
  (EXIT_FAILURE = EXIT_FAILURE /\
   exists out d,
     [Stderr ErrInvalidMagic] = out ++ [Stderr d] /\ fatal_diag d = true /\
     no_fatal_event out).
Proof.
  assert (Hrun : main [x00; x00; x00; x00; x00] [] "rom.bin" false false (-1)
                 = Finished (EXIT_FAILURE, [Stderr ErrInvalidMagic]))
    by (vm_compute; reflexivity).
  exact (exit_code_tells_fatal _ _ _ _ _ _ _ _ Hrun).
Defined.
